(** * The chunk journal writer of the noms block store (package nbs)

    A shallow embedding of [journalWriter] (go/store/nbs/journal_writer.go)
    and of the part of the operating system it talks to, followed by the
    properties of the journal that the specification states.

    Conventions.
    - [int], [int64] are signed 64-bit; arithmetic on [wr.off] is written
      with its wrap-around ([int64]).  [uint64] wraps modulo 2^64.
    - A Go slice is a window on a backing array; [wr.buf] always starts at
      cell 0 of its array, so it is kept as the cells below [len]
      ([elems]) and the cells between [len] and [cap] ([spare]).
    - A method with a pointer receiver is a function from the writer to a
      result and the writer afterwards.  Locks are not modelled: every
      method holds [wr.lock] for its whole body.
    - Lengths of slices are [int]; sums of two of them are taken not to
      overflow.
    - The operating system is a model of its own: a file is its bytes,
      whether it is closed, the system calls the environment refuses and
      the log of the calls made on it. *)

From Stdlib Require Import ZArith Lia.
From Stdlib.Strings Require Import Byte.
From stdpp Require Import gmap strings list fin_maps.

Open Scope Z_scope.

(** ** Machine integers *)

Definition int64 (z : Z) : Z := (z + 2 ^ 63) mod 2 ^ 64 - 2 ^ 63.
Definition uint64 (z : Z) : Z := z mod 2 ^ 64.
Definition maxInt64 : Z := 2 ^ 63 - 1.
Definition minInt64 : Z := - 2 ^ 63.

Definition isInt64 (z : Z) : Prop := minInt64 <= z <= maxInt64.

(** ** Addresses, errors, results *)

(** [addr] and [hash.Hash] are [20]byte; an address is kept as the
    160-bit number its bytes spell.  The zero hash is [0]. *)
Definition addr := N.
Definition zeroHash : addr := 0%N.

Inductive error : Type :=
  (* package os / io *)
  | ErrNotExist
  | ErrClosed
  | EOF
  | ErrNegativeOffset
  | ErrFileTooLarge
  | ErrIO (code : nat)
  (* fmt.Errorf values of journal_writer.go, by format string *)
  | ErrFoundDirectory            (* "expected file %s found directory" *)
  | ErrAlreadyExists             (* "journal file %s already exists" *)
  | ErrJournalOffset (o : Z)     (* "expected file journalOffset 0, got %d" *)
  | ErrExceedsCapacity (n c : Z) (* "requested bytes (%d) exceeds capacity (%d)" *)
  | ErrUnknownKind (k : Z)       (* "unknown journal record kind (%d)" *)
  | ErrHashMismatch (h a : addr) (* "chunk record hash does not match (%s != %s)" *)
  (* errors made by the record codec and by NewCompressedChunk *)
  | ErrCodec (code : nat).

(** What a call does: return normally with a nil error, return a non-nil
    error (the other results are then the zero values unless said
    otherwise), or panic. *)
Inductive outcome (A : Type) : Type :=
  | Ret (a : A)
  | Fail (e : error)
  | Panic.
Arguments Ret {A} a.
Arguments Fail {A} e.
Arguments Panic {A}.

(** A Go pair [(value, err)] of a call that does not panic. *)
Inductive result (A : Type) : Type :=
  | Ok (a : A)
  | Err (e : error).
Arguments Ok {A} a.
Arguments Err {A} e.

Definition lift {A : Type} (r : result A) : outcome A :=
  match r with Ok a => Ret a | Err e => Fail e end.

(** ** Byte slices *)

Definition blen (l : list byte) : Z := Z.of_nat (length l).

Record slice : Type := mkSlice {
  elems : list byte;   (* cells [0, len) *)
  spare : list byte    (* cells [len, cap) *)
}.

Definition len (s : slice) : Z := blen (elems s).
Definition cap (s : slice) : Z := blen (elems s) + blen (spare s).

(** [make([]byte, n, c)] for [n = 0] *)
Definition make0 (c : Z) : slice := mkSlice [] (replicate (Z.to_nat c) x00).

(** [s[:m]], defined for [0 <= m <= cap(s)]: the window is moved over the
    same array, whose cells keep their contents. *)
Definition reslice (s : slice) (m : Z) : slice :=
  let a := elems s ++ spare s in
  mkSlice (take (Z.to_nat m) a) (drop (Z.to_nat m) a).

(** [copy(dst, src)]: the new contents of [dst] and the count copied. *)
Definition copy (dst src : list byte) : list byte * Z :=
  (take (length dst) (src ++ drop (length src) dst),
   Z.min (blen dst) (blen src)).

(** The sub-slice [s[l:l+n]] and writing through it: it shares the array
    of [s], so filling it changes the cells [[l, l+n)) of [s]. *)
Definition view (s : slice) (l n : Z) : list byte :=
  take (Z.to_nat n) (drop (Z.to_nat l) (elems s)).

Definition store (s : slice) (l n : Z) (bs : list byte) : slice :=
  mkSlice (take (Z.to_nat l) (elems s)
             ++ (copy (view s l n) bs).1
             ++ drop (Z.to_nat l + Z.to_nat n) (elems s))
          (spare s).

(** ** The file behind the journal

    [*os.File] as the writer uses it.  [ffault] says which system calls
    the environment refuses and with what error; [flog] lists the calls
    that change the file, in the order they were attempted. *)

Inductive syscall : Type :=
  | SysWriteAt (b : list byte) (o : Z)
  | SysReadAt (n : Z) (o : Z)
  | SysWrite (b : list byte)
  | SysSeek (o : Z)
  | SysSync
  | SysClose
  | SysOpen.

Record osFile : Type := mkFile {
  fdata : list byte;
  fpos : Z;
  fclosed : bool;
  ffault : syscall -> option error;
  flog : list syscall
}.

Definition logged (c : syscall) (f : osFile) : osFile :=
  mkFile (fdata f) (fpos f) (fclosed f) (ffault f) (flog f ++ [c]).

(** The bytes of a file after [b] is written at offset [o]; a gap
    between the old end and [o] reads as zeros. *)
Definition pwrite (d : list byte) (o : Z) (b : list byte) : list byte :=
  take (Z.to_nat o) (d ++ replicate (Z.to_nat o - length d) x00)
    ++ b ++ drop (Z.to_nat o + length b) d.

(** [f.WriteAt(b, o)]: count written, error, file afterwards.  A write
    that is refused writes nothing here; a write that fails after part of
    [b] reached the file is not modelled.  The theorems on a writer after
    a failed write therefore state only what does not depend on this:
    [off], the buffer, the index and the bytes of the file below [off],
    which a write at [off] or beyond does not touch. *)
Definition osWriteAt (f : osFile) (b : list byte) (o : Z)
  : Z * option error * osFile :=
  let f' := logged (SysWriteAt b o) f in
  if o <? 0 then (0, Some ErrNegativeOffset, f')
  else if blen b =? 0 then (0, None, f')
  else if fclosed f then (0, Some ErrClosed, f')
  else if maxInt64 <? o + blen b then (0, Some ErrFileTooLarge, f')
  else match ffault f (SysWriteAt b o) with
       | Some e => (0, Some e, f')
       | None =>
           (blen b, None,
            mkFile (pwrite (fdata f) o b) (fpos f) (fclosed f) (ffault f) (flog f'))
       end.

(** [f.ReadAt(p, o)] for [len(p) = n]: the bytes delivered to the front
    of [p], and the error.  A short read is reported as [EOF]. *)
Definition osReadAt (f : osFile) (n : Z) (o : Z) : list byte * option error :=
  if o <? 0 then ([], Some ErrNegativeOffset)
  else if n <=? 0 then ([], None)
  else if fclosed f then ([], Some ErrClosed)
  else match ffault f (SysReadAt n o) with
       | Some e => ([], Some e)
       | None =>
           let d := take (Z.to_nat n) (drop (Z.to_nat o) (fdata f)) in
           (d, if blen d <? n then Some EOF else None)
       end.

(** [f.Sync()] *)
Definition osSync (f : osFile) : option error * osFile :=
  let f' := logged SysSync f in
  if fclosed f then (Some ErrClosed, f')
  else (ffault f SysSync, f').

(** [f.Close()]: the descriptor is released even when the call reports
    an error. *)
Definition osClose (f : osFile) : option error * osFile :=
  let f' := logged SysClose f in
  if fclosed f then (Some ErrClosed, f')
  else (ffault f SysClose,
        mkFile (fdata f) (fpos f) true (ffault f) (flog f')).

(** [f.Write(b)]: write at the cursor and advance it.  As for [WriteAt],
    a refused write writes nothing. *)
Definition osWrite (f : osFile) (b : list byte) : Z * option error * osFile :=
  let f' := logged (SysWrite b) f in
  if blen b =? 0 then (0, None, f')
  else if fclosed f then (0, Some ErrClosed, f')
  else match ffault f (SysWrite b) with
       | Some e => (0, Some e, f')
       | None =>
           (blen b, None,
            mkFile (pwrite (fdata f) (fpos f) b) (fpos f + blen b)
                   (fclosed f) (ffault f) (flog f'))
       end.

(** [f.Seek(o, io.SeekStart)] *)
Definition osSeek (f : osFile) (o : Z) : Z * option error * osFile :=
  let f' := logged (SysSeek o) f in
  if fclosed f then (0, Some ErrClosed, f')
  else if o <? 0 then (0, Some ErrNegativeOffset, f')
  else match ffault f (SysSeek o) with
       | Some e => (0, Some e, f')
       | None => (o, None, mkFile (fdata f) o (fclosed f) (ffault f) (flog f'))
       end.

(** ** Records and the record codec

    journal_record.go and the chunk types are outside the sources at hand.
    The writer uses them through the names below; they are collected in a
    class, so that every statement about the writer holds for any codec. *)

(** Modelled from the spec: the type [CompressedChunk] is missing; a
    chunk is an opaque, pre-compressed payload addressed by its hash
    [H].  [CompressedChunk{}] is the zero value. *)
Record CompressedChunk : Type := mkCompressedChunk {
  H : addr;
  FullCompressedChunk : list byte
}.
Definition zeroCompressedChunk : CompressedChunk := mkCompressedChunk zeroHash [].

(** Modelled from the spec: the type [journalRec] is missing; these are
    the fields journal_writer.go reads ([length] is spelled [rlength]). *)
Record journalRec : Type := mkJournalRec {
  kind : Z;
  address : addr;
  rlength : Z;
  payload : list byte
}.

Record recLookup : Type := mkRecLookup {
  journalOff : Z;
  recordLen : Z;
  payloadOff : Z
}.

Class RecordCodec : Type := {
  chunkJournalRecKind : Z;
  rootHashJournalRecKind : Z;
  (* two cases of one switch *)
  kinds_differ : chunkJournalRecKind <> rootHashJournalRecKind;
  (* func chunkRecordSize(c CompressedChunk) (recordSz, payloadOff uint32) *)
  chunkRecordSize : CompressedChunk -> Z * Z;
  (* recordSz is unsigned *)
  chunkRecordSize_nonneg : forall cc, 0 <= (chunkRecordSize cc).1;
  (* func writeChunkRecord(buf []byte, c CompressedChunk) uint32:
     what is written to the front of buf *)
  writeChunkRecord : list byte -> CompressedChunk -> list byte;
  (* func rootHashRecordSize() int: a length *)
  rootHashRecordSize : Z;
  rootHashRecordSize_nonneg : 0 <= rootHashRecordSize;
  (* func writeRootHashRecord(buf []byte, root addr) uint32 *)
  writeRootHashRecord : list byte -> addr -> list byte;
  (* func readJournalRecord(buf []byte) (journalRec, error) *)
  readJournalRecord : list byte -> result journalRec;
  (* func (r journalRec) payloadOffset() uint32 *)
  payloadOffset : journalRec -> Z;
  (* func (r journalRec) uncompressedPayloadSize() uint64 *)
  uncompressedPayloadSize : journalRec -> Z;
  (* func NewCompressedChunk(h hash.Hash, buff []byte) (CompressedChunk, error) *)
  NewCompressedChunk : addr -> list byte -> result CompressedChunk;
  (* the record framed at the head of a byte stream, when the framing
     there is valid *)
  frameAt : list byte -> option journalRec
}.

(** ** The writer *)

Definition journalWriterBuffSize : Z := 1024 * 1024.
Definition chunkJournalFileSize : Z := 256 * 1024 * 1024.

Record journalWriter : Type := mkWriter {
  buf : slice;
  lookups : gmap N recLookup;
  file : osFile;
  off : Z;
  uncmpSz : Z;
  path : string
}.

Definition set_buf (wr : journalWriter) (b : slice) : journalWriter :=
  mkWriter b (lookups wr) (file wr) (off wr) (uncmpSz wr) (path wr).
Definition set_lookups (wr : journalWriter) (m : gmap N recLookup) : journalWriter :=
  mkWriter (buf wr) m (file wr) (off wr) (uncmpSz wr) (path wr).
Definition set_file (wr : journalWriter) (f : osFile) : journalWriter :=
  mkWriter (buf wr) (lookups wr) f (off wr) (uncmpSz wr) (path wr).
Definition set_off (wr : journalWriter) (o : Z) : journalWriter :=
  mkWriter (buf wr) (lookups wr) (file wr) o (uncmpSz wr) (path wr).
Definition set_uncmpSz (wr : journalWriter) (u : Z) : journalWriter :=
  mkWriter (buf wr) (lookups wr) (file wr) (off wr) u (path wr).

(** A method: the writer before, the outcome and the writer after. *)
Definition method (A : Type) : Type := journalWriter -> outcome A * journalWriter.

(** func (wr *journalWriter) offset() int64 *)
Definition offset (wr : journalWriter) : Z :=
  int64 (off wr + len (buf wr)).

(** func (wr *journalWriter) CurrentSize() int64 *)
Definition CurrentSize (wr : journalWriter) : Z := off wr.

(** func (wr *journalWriter) flush() (err error) *)
Definition flush : method unit := fun wr =>
  match osWriteAt (file wr) (elems (buf wr)) (off wr) with
  | (_, Some e, f) => (Fail e, set_file wr f)
  | (_, None, f) =>
      let wr1 := set_file wr f in
      let wr2 := set_off wr1 (int64 (off wr1 + len (buf wr1))) in
      (Ret tt, set_buf wr2 (reslice (buf wr2) 0))
  end.

(** func (wr *journalWriter) getBytes(n int) (buf []byte, err error)

    The slice returned is [wr.buf[l:l+n]]; the result here is [l]. *)
Definition getBytes (n : Z) : method Z := fun wr =>
  let c := cap (buf wr) in
  let l := len (buf wr) in
  if c <? n then (Fail (ErrExceedsCapacity n c), wr)
  else
    let '(r, wr1) := if c - l <? n then flush wr else (Ret tt, wr) in
    match r with
    | Fail e => (Fail e, wr1)
    | Panic => (Panic, wr1)
    | Ret _ =>
        let l := len (buf wr1) in
        if l + n <? 0 then (Panic, wr1)                 (* wr.buf[:l+n] *)
        else
          let wr2 := set_buf wr1 (reslice (buf wr1) (l + n)) in
          if l + n <? l then (Panic, wr2)               (* wr.buf[l:l+n] *)
          else (Ret l, wr2)
    end.

(** func (wr *journalWriter) ReadAt(p []byte, off int64) (n int, err error)

    [p] is filled in place: the result carries its contents afterwards. *)
Inductive readResult : Type :=
  | ReadRet (p : list byte) (n : Z) (err : option error)
  | ReadPanic.

Definition ReadAt (wr : journalWriter) (p : list byte) (o : Z) : readResult :=
  if o <? off wr then
    (* fill some or all of |p| from |wr.file| *)
    let fread := int64 (off wr - o) in
    if (fread <? blen p) && (fread <? 0) then ReadPanic        (* p[fread:] *)
    else
      let '(p1, bp) :=
        if fread <? blen p
        then (take (Z.to_nat fread) p, drop (Z.to_nat fread) p)   (* straddled read *)
        else (p, []) in
      match osReadAt (file wr) (blen p1) o with
      | (d, Some e) => ReadRet ((copy p1 d).1 ++ bp) 0 (Some e)
      | (d, None) =>
          let '(bp', m) := copy bp (drop (Z.to_nat 0) (elems (buf wr))) in
          ReadRet ((copy p1 d).1 ++ bp') (blen d + m) None
      end
  else
    (* fill all of |p| from |wr.buf| *)
    let o' := int64 (o - off wr) in
    if (o' <? 0) || (len (buf wr) <? o') then ReadPanic         (* wr.buf[off:] *)
    else
      let '(bp', m) := copy p (drop (Z.to_nat o') (elems (buf wr))) in
      ReadRet bp' m None.

(** func (wr *journalWriter) Snapshot() (io.Reader, int64, error)

    The reader is a second descriptor on [wr.path], limited to [wr.off]
    bytes; it is given by the bytes it yields when read before any later
    write. *)
Definition Snapshot : method (list byte * Z) := fun wr =>
  match flush wr with
  | (Fail e, wr1) => (Fail e, wr1)
  | (Panic, wr1) => (Panic, wr1)
  | (Ret _, wr1) =>
      match ffault (file wr1) SysOpen with
      | Some e => (Fail e, wr1)
      | None => (Ret (take (Z.to_nat (off wr1)) (fdata (file wr1)), off wr1), wr1)
      end
  end.

(** func (wr *journalWriter) Write(p []byte) (n int, err error) *)
Definition Write (p : list byte) : method Z := fun wr =>
  if len (buf wr) <? blen p then
    (* write directly to |wr.file| *)
    match flush wr with
    | (Fail e, wr1) => (Fail e, wr1)
    | (Panic, wr1) => (Panic, wr1)
    | (Ret _, wr1) =>
        let '(n, err, f) := osWriteAt (file wr1) p (off wr1) in
        let wr2 := set_off (set_file wr1 f) (int64 (off wr1 + n)) in
        match err with
        | Some e => (Fail e, wr2)
        | None => (Ret n, wr2)
        end
    end
  else
    match getBytes (blen p) wr with
    | (Fail e, wr1) => (Fail e, wr1)
    | (Panic, wr1) => (Panic, wr1)
    | (Ret l, wr1) =>
        (Ret (copy (view (buf wr1) l (blen p)) p).2,
         set_buf wr1 (store (buf wr1) l (blen p) p))
    end.

Section Codec.
Context {codec : RecordCodec}.

(** Modelled from the spec: [processJournalRecords] (journal_record.go) is
    missing.  It forward-scans from offset 0, hands every record and its
    offset to the callback, stops at the first record whose framing is
    invalid and returns the offset of the first invalid byte; an error of
    the callback ends the scan and is returned (with offset 0).  A frame
    is valid at [o] when the codec finds one there, its length is
    positive and it ends inside the file.

    The scan reads the file through its reader: before it looks for a
    frame at [o] the reader fetches the bytes from [o] on, up to the size
    of its buffer.  The file can refuse that read, because it is closed
    or because the environment fails it; the error ends the scan and is
    returned unchanged, like an error of the callback.  Reaching the end
    of the file is no error: no frame is valid there. *)
Definition readFault (f : osFile) (o : Z) : option error :=
  if fclosed f then Some ErrClosed
  else ffault f (SysReadAt journalWriterBuffSize o).

Definition validFrame (d : list byte) (o : Z) : option journalRec :=
  match frameAt (drop (Z.to_nat o) d) with
  | Some r =>
      if (0 <? rlength r) && (o + rlength r <=? blen d) then Some r else None
  | None => None
  end.

Fixpoint scanFrom {S : Type} (fuel : nat) (f : osFile) (o : Z)
    (cb : Z -> journalRec -> S -> option error * S) (s : S)
  : Z * option error * S :=
  match fuel with
  | O => (o, None, s)
  | Datatypes.S fuel' =>
      match readFault f o with
      | Some e => (0, Some e, s)
      | None =>
          match validFrame (fdata f) o with
          | None => (o, None, s)
          | Some r =>
              match cb o r s with
              | (Some e, s') => (0, Some e, s')
              | (None, s') => scanFrom fuel' f (o + rlength r) cb s'
              end
          end
      end
  end.

Definition processJournalRecords {S : Type} (f : osFile)
    (cb : Z -> journalRec -> S -> option error * S) (s : S)
  : Z * option error * S :=
  scanFrom (Datatypes.S (length (fdata f))) f 0 cb s.

(** The function literal of [ProcessJournal]; it closes over [wr] and the
    named result [last]. *)
Definition processRecord (o : Z) (r : journalRec) (s : journalWriter * addr)
  : option error * (journalWriter * addr) :=
  let '(wr, last) := s in
  if kind r =? chunkJournalRecKind then
    let wr1 := set_lookups wr
                 (<[address r := mkRecLookup o (rlength r) (payloadOffset r)]>
                    (lookups wr)) in
    (None, (set_uncmpSz wr1 (uint64 (uncmpSz wr1 + uncompressedPayloadSize r)), last))
  else if kind r =? rootHashJournalRecKind then
    (None, (wr, address r))
  else
    (Some (ErrUnknownKind (kind r)), (wr, last)).

(** func (wr *journalWriter) ProcessJournal(ctx context.Context) (last hash.Hash, err error) *)
Definition ProcessJournal : method addr := fun wr =>
  let '(o, err, (wr1, last)) :=
    processJournalRecords (file wr) processRecord (wr, zeroHash) in
  let wr2 := set_off wr1 o in
  match err with
  | Some e => (Fail e, wr2)
  | None => (Ret last, wr2)
  end.

(** func (wr *journalWriter) WriteChunk(cc CompressedChunk) error *)
Definition WriteChunk (cc : CompressedChunk) : method unit := fun wr =>
  let '(l, o) := chunkRecordSize cc in
  let rec := mkRecLookup (offset wr) l o in
  match getBytes (recordLen rec) wr with
  | (Fail e, wr1) => (Fail e, wr1)
  | (Panic, wr1) => (Panic, wr1)
  | (Ret i, wr1) =>
      let n := recordLen rec in
      let wr2 := set_buf wr1
                   (store (buf wr1) i n (writeChunkRecord (view (buf wr1) i n) cc)) in
      (Ret tt, set_lookups wr2 (<[H cc := rec]> (lookups wr2)))
  end.

(** func (wr *journalWriter) WriteRootHash(root hash.Hash) error *)
Definition WriteRootHash (root : addr) : method unit := fun wr =>
  match getBytes rootHashRecordSize wr with
  | (Fail e, wr1) => (Fail e, wr1)
  | (Panic, wr1) => (Panic, wr1)
  | (Ret i, wr1) =>
      let n := rootHashRecordSize in
      let wr2 := set_buf wr1
                   (store (buf wr1) i n (writeRootHashRecord (view (buf wr1) i n) root)) in
      match flush wr2 with
      | (Fail e, wr3) => (Fail e, wr3)
      | (Panic, wr3) => (Panic, wr3)
      | (Ret _, wr3) =>
          match osSync (file wr3) with
          | (Some e, f) => (Fail e, set_file wr3 f)
          | (None, f) => (Ret tt, set_file wr3 f)
          end
      end
  end.

(** func (wr *journalWriter) has(h addr) (ok bool) *)
Definition has (h : addr) (wr : journalWriter) : bool :=
  bool_decide (is_Some (lookups wr !! h)).

(** func (wr *journalWriter) getCompressed(h addr) (CompressedChunk, error) *)
Definition getCompressed (h : addr) (wr : journalWriter) : outcome CompressedChunk :=
  match lookups wr !! h with
  | None => Ret zeroCompressedChunk
  | Some l =>
      let buf := replicate (Z.to_nat (recordLen l)) x00 in   (* make([]byte, l.recordLen) *)
      match ReadAt wr buf (journalOff l) with
      | ReadPanic => Panic
      | ReadRet _ _ (Some _) => Ret zeroCompressedChunk
      | ReadRet buf' _ None =>
          match readJournalRecord buf' with
          | Err e => Fail e
          | Ok rec =>
              if negb (h =? address rec)%N
              then Fail (ErrHashMismatch h (address rec))
              else lift (NewCompressedChunk h (payload rec))
          end
      end
  end.

End Codec.

(** func (wr *journalWriter) Close() (err error) *)
Definition Close : method unit := fun wr =>
  match flush wr with
  | (Fail e, wr1) => (Fail e, wr1)
  | (Panic, wr1) => (Panic, wr1)
  | (Ret _, wr1) =>
      let '(serr, f1) := osSync (file wr1) in
      let '(cerr, f2) := osClose f1 in
      let err := match cerr with Some e => Some e | None => serr end in
      match err with
      | Some e => (Fail e, set_file wr1 f2)
      | None => (Ret tt, set_file wr1 f2)
      end
  end.

(** func (wr *journalWriter) recordCount() uint32 *)
Definition recordCount (wr : journalWriter) : Z :=
  Z.of_nat (size (lookups wr)) mod 2 ^ 32.

(** func (wr *journalWriter) uncompressedSize() uint64 *)
Definition uncompressedSize (wr : journalWriter) : Z := uncmpSz wr.

(** ** The file system and the two constructors *)

Inductive node : Type :=
  | RegularFile (d : list byte)
  | Directory.

Inductive fscall : Type :=
  | FsAbs (p : string)
  | FsStat (p : string)
  | FsOpenFile (p : string).

(** [wabs] is [filepath.Abs] when it succeeds; [wfault] says which calls
    on paths the environment refuses; a descriptor opened in the world
    gets [hfault] as its own faults. *)
Record world : Type := mkWorld {
  nodes : gmap string node;
  wabs : string -> string;
  wfault : fscall -> option error;
  hfault : syscall -> option error
}.

Definition set_node (w : world) (p : string) (n : node) : world :=
  mkWorld (<[p := n]> (nodes w)) (wabs w) (wfault w) (hfault w).

(** errors.Is(err, os.ErrNotExist) *)
Definition isNotExist (e : error) : bool :=
  match e with ErrNotExist => true | _ => false end.

(** filepath.Abs(path) *)
Definition fsAbs (w : world) (p : string) : result string :=
  match wfault w (FsAbs p) with
  | Some e => Err e
  | None => Ok (wabs w p)
  end.

(** os.Stat(path): the result is [info.IsDir()]. *)
Definition fsStat (w : world) (p : string) : result bool :=
  match wfault w (FsStat p) with
  | Some e => Err e
  | None =>
      match nodes w !! p with
      | None => Err ErrNotExist
      | Some Directory => Ok true
      | Some (RegularFile _) => Ok false
      end
  end.

(** os.OpenFile(path, os.O_RDWR [|os.O_CREATE], 0666) *)
Definition fsOpenFile (w : world) (p : string) (create : bool)
  : result osFile * world :=
  match wfault w (FsOpenFile p) with
  | Some e => (Err e, w)
  | None =>
      match nodes w !! p with
      | Some (RegularFile d) => (Ok (mkFile d 0 false (hfault w) []), w)
      | Some Directory => (Err (ErrIO 21), w)
      | None =>
          if create
          then (Ok (mkFile [] 0 false (hfault w) []), set_node w p (RegularFile []))
          else (Err ErrNotExist, w)
      end
  end.

Definition newJournalWriter (f : osFile) (p : string) : journalWriter :=
  mkWriter (make0 journalWriterBuffSize) ∅ f 0 0 p.

(** func openJournalWriter(ctx context.Context, path string)
      (wr *journalWriter, exists bool, err error) *)
Definition openJournalWriter (w : world) (p : string)
  : option journalWriter * bool * option error :=
  match fsAbs w p with
  | Err e => (None, false, Some e)
  | Ok p =>
      match fsStat w p with
      | Err e =>
          if isNotExist e then (None, false, None) else (None, false, Some e)
      | Ok true => (None, true, Some ErrFoundDirectory)
      | Ok false =>
          match fsOpenFile w p false with
          | (Ok f, _) => (Some (newJournalWriter f p), true, None)
          | (Err e, _) => (None, true, Some e)
          end
      end
  end.

(** The zero-fill loop of [createJournalWriter]:
    [for i := 0; i < chunkJournalFileSize; i += batch { f.Write(b) }]. *)
Fixpoint zeroFill (fuel : nat) (size batch : Z) (b : list byte) (i : Z) (f : osFile)
  : option error * osFile :=
  match fuel with
  | O => (None, f)
  | S fuel' =>
      if i <? size then
        match osWrite f b with
        | (_, Some e, f') => (Some e, f')
        | (_, None, f') => zeroFill fuel' size batch b (i + batch) f'
        end
      else (None, f)
  end.

Definition batch : Z := 1024 * 1024.

(** func createJournalWriter(ctx context.Context, path string)
      (wr *journalWriter, err error)

    The world afterwards holds what reached the file. *)
Definition createJournalWriter (w : world) (p : string)
  : result journalWriter * world :=
  match fsAbs w p with
  | Err e => (Err e, w)
  | Ok p =>
      match fsStat w p with
      | Ok _ => (Err ErrAlreadyExists, w)
      | Err e =>
          if negb (isNotExist e) then (Err e, w)
          else
            match fsOpenFile w p true with
            | (Err e, w1) => (Err e, w1)
            | (Ok f, w1) =>
                let b := replicate (Z.to_nat batch) x00 in
                match zeroFill (Z.to_nat (chunkJournalFileSize / batch) + 1)
                               chunkJournalFileSize batch b 0 f with
                | (Some e, f1) => (Err e, set_node w1 p (RegularFile (fdata f1)))
                | (None, f1) =>
                    let w2 := set_node w1 p (RegularFile (fdata f1)) in
                    match osSync f1 with
                    | (Some e, _) => (Err e, w2)
                    | (None, f2) =>
                        match osSeek f2 0 with
                        | (_, Some e, _) => (Err e, w2)
                        | (o, None, f3) =>
                            if negb (o =? 0) then (Err (ErrJournalOffset o), w2)
                            else (Ok (newJournalWriter f3 p), w2)
                        end
                    end
                end
            end
      end
  end.

(** ** Sequences of calls

    The calls that change a writer, and a step of the environment that
    changes which system calls it refuses.  [ReadAt], [getCompressed],
    [has], [CurrentSize], [recordCount] and [uncompressedSize] leave the
    writer as it is. *)
Section Calls.
Context {codec : RecordCodec}.

Inductive call : Type :=
  | CallWriteChunk (cc : CompressedChunk)
  | CallWriteRootHash (root : addr)
  | CallWrite (p : list byte)
  | CallSnapshot
  | CallClose
  | EnvFault (flt : syscall -> option error).

Definition set_fault (f : osFile) (flt : syscall -> option error) : osFile :=
  mkFile (fdata f) (fpos f) (fclosed f) flt (flog f).

Definition exec (c : call) (wr : journalWriter) : journalWriter :=
  match c with
  | CallWriteChunk cc => (WriteChunk cc wr).2
  | CallWriteRootHash root => (WriteRootHash root wr).2
  | CallWrite p => (Write p wr).2
  | CallSnapshot => (Snapshot wr).2
  | CallClose => (Close wr).2
  | EnvFault flt => set_file wr (set_fault (file wr) flt)
  end.

Definition run (cs : list call) (wr : journalWriter) : journalWriter :=
  foldl (fun w c => exec c w) wr cs.

End Calls.

(** ** The journal as a sequence of bytes and of records *)

(** The logical end of the journal, [off + len(buf)], before conversion
    to [int64]. *)
Definition logicalEnd (wr : journalWriter) : Z := off wr + len (buf wr).

(** The logical contents: what was flushed, then what is buffered. *)
Definition journalBytes (wr : journalWriter) : list byte :=
  take (Z.to_nat (off wr)) (fdata (file wr)) ++ elems (buf wr).

Section Replay.
Context {codec : RecordCodec}.

(** [framed d o recs o']: from offset [o] the bytes [d] hold the records
    [recs], each validly framed at its offset and each starting where the
    one before ends; the last one ends at [o']. *)
Inductive framed (d : list byte) : Z -> list (Z * journalRec) -> Z -> Prop :=
  | framed_nil o : framed d o [] o
  | framed_cons o r recs o' :
      validFrame d o = Some r ->
      framed d (o + rlength r) recs o' ->
      framed d o ((o, r) :: recs) o'.

Definition isChunk (r : journalRec) : bool := kind r =? chunkJournalRecKind.
Definition isRoot (r : journalRec) : bool := kind r =? rootHashJournalRecKind.
Definition knownKind (r : journalRec) : bool := isChunk r || isRoot r.

(** The address of the last root-hash record, the zero hash without one. *)
Definition lastRoot (recs : list (Z * journalRec)) : addr :=
  match last (filter (fun x => isRoot x.2 = true) recs) with
  | Some x => address x.2
  | None => zeroHash
  end.

(** The index entry of [a] after the records: that of the last chunk
    record with address [a], else the entry there was. *)
Definition replayLookup (m : gmap N recLookup) (recs : list (Z * journalRec))
    (a : addr) : option recLookup :=
  match last (filter (fun x => isChunk x.2 = true /\ address x.2 = a) recs) with
  | Some x => Some (mkRecLookup x.1 (rlength x.2) (payloadOffset x.2))
  | None => m !! a
  end.

(** The sum of the uncompressed payload sizes of the chunk records. *)
Definition chunkSizes (recs : list (Z * journalRec)) : Z :=
  foldr (fun x acc => uncompressedPayloadSize x.2 + acc) 0
        (filter (fun x => isChunk x.2 = true) recs).

End Replay.

(** ** Definitions used in the statements *)

(** The file after a successful [WriteAt(b, o)]. *)
Definition written (f : osFile) (b : list byte) (o : Z) : osFile :=
  mkFile (if blen b =? 0 then fdata f else pwrite (fdata f) o b)
         (fpos f) (fclosed f) (ffault f) (flog f ++ [SysWriteAt b o]).

(** The calls a reservation makes: one [WriteAt] of the buffer when the
    request does not fit the room left, none otherwise. *)
Definition reservationLog (n : Z) (wr : journalWriter) : list syscall :=
  if (cap (buf wr) - len (buf wr) <? n) && (n <=? cap (buf wr))
  then [SysWriteAt (elems (buf wr)) (off wr)]
  else [].

(** What is buffered in front of a record reserved with [n] bytes: the
    buffer as it was, or nothing when the reservation flushed it first. *)
Definition bufferedBefore (n : Z) (wr : journalWriter) : list byte :=
  if cap (buf wr) - len (buf wr) <? n then [] else elems (buf wr).

(** [advances wr wr']: between [wr] and [wr'] the file log only grew, and
    either [off] stayed and the buffer kept its contents (possibly with
    more after them), or the buffer of [wr] was written to the file at
    [off wr] and [off] moved past it. *)
Definition advances (wr wr' : journalWriter) : Prop :=
  isInt64 (off wr') /\
  flog (file wr) `prefix_of` flog (file wr') /\
  ((off wr' = off wr /\ elems (buf wr) `prefix_of` elems (buf wr')) \/
   (logicalEnd wr <= off wr' /\
    exists extra, SysWriteAt (elems (buf wr) ++ extra) (off wr) ∈ flog (file wr'))).

Section Statements.
Context {codec : RecordCodec}.

(** The closure state after the callback has taken the records in order. *)
Definition replayed (s : journalWriter * addr) (recs : list (Z * journalRec))
  : journalWriter * addr :=
  foldl (fun s x => (processRecord x.1 x.2 s).2) s recs.

(** A record to write, its encoded length, and a run of such writes. *)
Inductive recordWrite : Type :=
  | WChunk (cc : CompressedChunk)
  | WRoot (root : addr).

Definition recordSize (w : recordWrite) : Z :=
  match w with
  | WChunk cc => (chunkRecordSize cc).1
  | WRoot _ => rootHashRecordSize
  end.

Definition writeRecord (w : recordWrite) : method unit :=
  match w with
  | WChunk cc => WriteChunk cc
  | WRoot root => WriteRootHash root
  end.

(** The writer after the writes, when each of them returned no error. *)
Fixpoint writeAll (ws : list recordWrite) (wr : journalWriter) : option journalWriter :=
  match ws with
  | [] => Some wr
  | w :: ws' =>
      match writeRecord w wr with
      | (Ret _, wr') => writeAll ws' wr'
      | _ => None
      end
  end.

Definition totalSize (ws : list recordWrite) : Z :=
  foldr (fun w acc => recordSize w + acc) 0 ws.

End Statements.

(** The file of a created journal: 256 batches of zeros were written,
    then [Sync] and [Seek(0)]. *)
Definition zeroFilled (flt : syscall -> option error) : osFile :=
  mkFile (replicate (Z.to_nat chunkJournalFileSize) x00) 0 false flt
         (replicate 256 (SysWrite (replicate (Z.to_nat batch) x00))
            ++ [SysSync; SysSeek 0]).

(** func journalFileExists(path string) (bool, error)

    [os.Stat] returns a nil [FileInfo] with an error; when the error is
    not [os.ErrNotExist] the call [info.IsDir()] is on that nil value and
    panics. *)
Definition journalFileExists (w : world) (p : string) : outcome (bool * option error) :=
  match fsAbs w p with
  | Err e => Ret (false, Some e)
  | Ok p =>
      match fsStat w p with
      | Err e => if isNotExist e then Ret (false, None) else Panic
      | Ok true => Ret (true, Some ErrFoundDirectory)
      | Ok false => Ret (true, None)
      end
  end.

(** The flushed part of the journal lies inside the file: [off] is a
    valid offset of it. *)
Definition inFile (wr : journalWriter) : Prop :=
  0 <= off wr <= blen (fdata (file wr)) /\ off wr <= maxInt64.

(** The file can be read: it is open and the environment refuses no
    positional read. *)
Definition readable (f : osFile) : Prop :=
  fclosed f = false /\ forall n o, ffault f (SysReadAt n o) = None.

(** [grows wr wr']: the journal of [wr'] starts with the journal of [wr]
    and its flushed part lies inside the file. *)
Definition grows (wr wr' : journalWriter) : Prop :=
  inFile wr' /\ journalBytes wr `prefix_of` journalBytes wr'.

(** A call that may change the index at [h]. *)
Definition touches (h : addr) (c : call) : Prop :=
  match c with
  | CallWriteChunk cc => H cc = h
  | _ => False
  end.

(** A world whose only node is a regular file [/j] of four bytes. *)
Definition fileWorld : world :=
  mkWorld {[ "/j" := RegularFile [x01; x02; x03; x04] ]}
          (fun p => p) (fun _ => None) (fun _ => None).

(** A world in which [os.Stat] fails with an I/O error. *)
Definition statFails : world :=
  mkWorld ∅ (fun p => p)
          (fun c => match c with FsStat _ => Some (ErrIO 13) | _ => None end)
          (fun _ => None).

(** A file on which every [Sync] fails. *)
Definition syncFails (c : syscall) : option error :=
  match c with SysSync => Some (ErrIO 5) | _ => None end.

(** An empty world in which a new file takes no bytes: every [Write] on
    a descriptor fails. *)
Definition writeRefused : world :=
  mkWorld ∅ (fun p => p) (fun _ => None)
          (fun c => match c with SysWrite _ => Some (ErrIO 28) | _ => None end).

(** ** A small codec to run the writer with

    One-byte fields and no checksum: a record is its length, its kind
    (1 = root hash, 2 = chunk), its address and its payload. *)
Module Demo.

Definition byteOf (n : Z) : byte :=
  match Byte.of_N (Z.to_N n) with Some b => b | None => x00 end.
Definition valOf (b : byte) : Z := Z.of_N (Byte.to_N b).

Definition parse (b : list byte) : option journalRec :=
  match b with
  | n :: k :: a :: rest =>
      if 3 <=? valOf n
      then Some (mkJournalRec (valOf k) (Byte.to_N a) (valOf n)
                              (take (Z.to_nat (valOf n - 3)) rest))
      else None
  | _ => None
  end.

#[export] Instance codec : RecordCodec := {|
  chunkJournalRecKind := 2;
  rootHashJournalRecKind := 1;
  kinds_differ := ltac:(discriminate);
  chunkRecordSize cc := (3 + blen (FullCompressedChunk cc), 3);
  chunkRecordSize_nonneg := ltac:(intros cc; unfold blen; simpl; lia);
  writeChunkRecord _ cc :=
    byteOf (3 + blen (FullCompressedChunk cc)) :: x02
      :: byteOf (Z.of_N (H cc)) :: FullCompressedChunk cc;
  rootHashRecordSize := 3;
  rootHashRecordSize_nonneg := ltac:(lia);
  writeRootHashRecord _ a := [x03; x01; byteOf (Z.of_N a)];
  readJournalRecord b :=
    match parse b with
    | Some r => if rlength r =? blen b then Ok r else Err (ErrCodec 1)
    | None => Err (ErrCodec 1)
    end;
  payloadOffset _ := 3;
  uncompressedPayloadSize r := blen (payload r);
  NewCompressedChunk h b := Ok (mkCompressedChunk h b);
  frameAt := parse
|}.

Definition noFault : syscall -> option error := fun _ => None.

(** An open, empty file and a writer on it with an 8-byte buffer. *)
Definition emptyFile : osFile := mkFile [] 0 false noFault [].
Definition fresh : journalWriter :=
  mkWriter (make0 8) ∅ emptyFile 0 0 "/j".

Definition cc1 : CompressedChunk := mkCompressedChunk 7%N [x0a; x0b].
Definition cc2 : CompressedChunk := mkCompressedChunk 9%N [x0c; x0d; x0e].

(** A file on which every [WriteAt] fails. *)
Definition writeFails (c : syscall) : option error :=
  match c with SysWriteAt _ _ => Some (ErrIO 5) | _ => None end.

(** A file on which the reads at offset 5 and beyond fail. *)
Definition readFailsFrom5 (c : syscall) : option error :=
  match c with
  | SysReadAt _ o => if 5 <=? o then Some (ErrIO 5) else None
  | _ => None
  end.

(** A world whose only node is the directory [/j], and an empty one. *)
Definition dirWorld : world :=
  mkWorld {[ "/j" := Directory ]} (fun p => p) (fun _ => None) (fun _ => None).
Definition emptyWorld : world :=
  mkWorld ∅ (fun p => p) (fun _ => None) (fun _ => None).

End Demo.

(** * Properties *)

(** ** Integers and slices *)

Lemma int64_id (z : Z) : isInt64 z -> int64 z = z.
Proof.
  unfold isInt64, int64, minInt64, maxInt64. intros Hz.
  rewrite Z.mod_small; lia.
Qed.

Lemma int64_range (z : Z) : isInt64 (int64 z).
Proof.
  unfold isInt64, int64, minInt64, maxInt64.
  pose proof (Z.mod_pos_bound (z + 2 ^ 63) (2 ^ 64) ltac:(lia)). lia.
Qed.

Lemma blen_nonneg (l : list byte) : 0 <= blen l.
Proof. unfold blen. lia. Qed.

Lemma blen_app (a b : list byte) : blen (a ++ b) = blen a + blen b.
Proof. unfold blen. rewrite length_app. lia. Qed.

Lemma blen_nil : blen [] = 0.
Proof. reflexivity. Qed.

Lemma len_nonneg (s : slice) : 0 <= len s.
Proof. apply blen_nonneg. Qed.

Lemma len_le_cap (s : slice) : len s <= cap s.
Proof. unfold len, cap. pose proof (blen_nonneg (spare s)). lia. Qed.

Lemma cap_reslice (s : slice) (m : Z) : cap (reslice s m) = cap s.
Proof.
  unfold cap, reslice, blen; simpl.
  rewrite <- !Nat2Z.inj_add, <- !length_app, take_drop. reflexivity.
Qed.

Lemma len_reslice (s : slice) (m : Z) :
  0 <= m <= cap s -> len (reslice s m) = m.
Proof.
  unfold len, cap, reslice, blen; simpl. intros Hm.
  rewrite length_take, length_app. lia.
Qed.

Lemma elems_reslice_0 (s : slice) : elems (reslice s 0) = [].
Proof. reflexivity. Qed.

Lemma elems_reslice_grow (s : slice) (n : Z) :
  0 <= n ->
  elems (reslice s (len s + n)) = elems s ++ take (Z.to_nat n) (spare s).
Proof.
  intros Hn. unfold reslice, len, blen; simpl.
  rewrite take_app. f_equal.
  - apply take_ge. lia.
  - f_equal. lia.
Qed.

Lemma length_copy (dst src : list byte) : length (copy dst src).1 = length dst.
Proof.
  unfold copy; simpl. rewrite length_take, length_app, length_drop. lia.
Qed.

(** ** flush *)

Ltac zbool :=
  repeat match goal with
  | H : (_ <? _) = true |- _ => apply Z.ltb_lt in H
  | H : (_ <? _) = false |- _ => apply Z.ltb_ge in H
  | H : (_ <=? _) = true |- _ => apply Z.leb_le in H
  | H : (_ <=? _) = false |- _ => apply Z.leb_gt in H
  | H : (_ =? _) = true |- _ => apply Z.eqb_eq in H
  | H : (_ =? _) = false |- _ => apply Z.eqb_neq in H
  end.

Lemma osWriteAt_cases (f : osFile) (b : list byte) (o : Z) :
  (exists e, osWriteAt f b o = (0, Some e, logged (SysWriteAt b o) f)) \/
  (osWriteAt f b o = (blen b, None, written f b o) /\
   0 <= o /\ (blen b <> 0 -> o + blen b <= maxInt64 /\ fclosed f = false
                              /\ ffault f (SysWriteAt b o) = None)).
Proof.
  unfold osWriteAt, written.
  destruct (o <? 0) eqn:Ho; [left; eauto|]. zbool.
  destruct (blen b =? 0) eqn:Hb.
  { right. zbool. rewrite Hb. split; [reflexivity|]. split; [lia|]. congruence. }
  destruct (fclosed f) eqn:Hc; [left; eauto|].
  destruct (maxInt64 <? o + blen b) eqn:Hm; [left; eauto|]. zbool.
  destruct (ffault f (SysWriteAt b o)) eqn:Hf; [left; eauto|].
  right. repeat split; auto; lia.
Qed.

Lemma flush_Fail (wr wr' : journalWriter) (e : error) :
  flush wr = (Fail e, wr') ->
  wr' = set_file wr (logged (SysWriteAt (elems (buf wr)) (off wr)) (file wr)).
Proof.
  unfold flush.
  destruct (osWriteAt_cases (file wr) (elems (buf wr)) (off wr)) as [[e' ->]|[-> _]];
    intros Heq; inversion Heq; reflexivity.
Qed.

Lemma flush_not_Panic (wr wr' : journalWriter) : flush wr <> (Panic, wr').
Proof.
  unfold flush.
  destruct (osWriteAt_cases (file wr) (elems (buf wr)) (off wr)) as [[e' ->]|[-> _]];
    discriminate.
Qed.

Lemma flush_Ret (wr wr' : journalWriter) (u : unit) :
  isInt64 (off wr) ->
  flush wr = (Ret u, wr') ->
  wr' = mkWriter (reslice (buf wr) 0) (lookups wr)
                 (written (file wr) (elems (buf wr)) (off wr))
                 (off wr + len (buf wr)) (uncmpSz wr) (path wr)
  /\ 0 <= off wr /\ off wr + len (buf wr) <= maxInt64.
Proof.
  intros Hoff. unfold flush.
  destruct (osWriteAt_cases (file wr) (elems (buf wr)) (off wr))
    as [[e' ->]|[-> (Ho & Hb)]]; [discriminate|].
  intros Heq; inversion Heq; subst; clear Heq.
  assert (Hle : off wr + len (buf wr) <= maxInt64).
  { unfold len. destruct (Z.eq_dec (blen (elems (buf wr))) 0) as [Hz|Hz].
    - rewrite Hz. unfold isInt64 in Hoff. lia.
    - apply Hb in Hz. lia. }
  split; [|split; assumption].
  unfold set_buf, set_off, set_file; simpl.
  rewrite int64_id; [reflexivity|].
  pose proof (len_nonneg (buf wr)). unfold isInt64, minInt64, maxInt64 in *. lia.
Qed.

(** ** getBytes *)

Lemma getBytes_oversize (n : Z) (wr : journalWriter) :
  cap (buf wr) < n ->
  getBytes n wr = (Fail (ErrExceedsCapacity n (cap (buf wr))), wr).
Proof.
  intros Hn. unfold getBytes.
  destruct (cap (buf wr) <? n) eqn:Hc; [reflexivity|]. zbool. lia.
Qed.

Lemma getBytes_fits (n : Z) (wr : journalWriter) :
  0 <= n <= cap (buf wr) - len (buf wr) ->
  getBytes n wr = (Ret (len (buf wr)),
                   set_buf wr (reslice (buf wr) (len (buf wr) + n))).
Proof.
  intros Hn. unfold getBytes. pose proof (len_nonneg (buf wr)) as Hl.
  destruct (cap (buf wr) <? n) eqn:Hc; zbool; [lia|].
  destruct (cap (buf wr) - len (buf wr) <? n) eqn:Hr; zbool; [lia|].
  destruct (len (buf wr) + n <? 0) eqn:H0; zbool; [lia|].
  destruct (len (buf wr) + n <? len (buf wr)) eqn:H1; zbool; [lia|].
  reflexivity.
Qed.

Lemma getBytes_flush_first (n : Z) (wr : journalWriter) :
  isInt64 (off wr) ->
  cap (buf wr) - len (buf wr) < n <= cap (buf wr) ->
  getBytes n wr =
    match flush wr with
    | (Ret _, wr1) => (Ret 0, set_buf wr1 (reslice (buf wr1) n))
    | (Fail e, wr1) => (Fail e, wr1)
    | (Panic, wr1) => (Panic, wr1)
    end.
Proof.
  intros Hoff Hn. unfold getBytes.
  pose proof (len_nonneg (buf wr)) as Hl. pose proof (len_le_cap (buf wr)) as Hlc.
  destruct (cap (buf wr) <? n) eqn:Hc; zbool; [lia|].
  destruct (cap (buf wr) - len (buf wr) <? n) eqn:Hr; zbool; [|lia].
  destruct (flush wr) as [[u|e|] wr1] eqn:Hf; try reflexivity.
  apply flush_Ret in Hf as (-> & _ & _); [|assumption]. simpl.
  change (len (reslice (buf wr) 0)) with 0. rewrite !Z.add_0_l.
  destruct (n <? 0) eqn:H0; zbool; [lia|]. reflexivity.
Qed.

(** A successful reservation moves the logical end by [n] and returns
    the [n] cells at the tail of the buffer. *)
Lemma getBytes_Ret (n i : Z) (wr wr' : journalWriter) :
  isInt64 (off wr) ->
  getBytes n wr = (Ret i, wr') ->
  0 <= n <= cap (buf wr) /\
  logicalEnd wr' = logicalEnd wr + n /\
  i + n = len (buf wr') /\
  cap (buf wr') = cap (buf wr) /\
  off wr <= off wr' /\
  ((off wr' = off wr /\ i = len (buf wr) /\ file wr' = file wr /\
    buf wr' = reslice (buf wr) (len (buf wr) + n)) \/
   (off wr' = off wr + len (buf wr) /\ i = 0 /\ cap (buf wr) - len (buf wr) < n /\
    file wr' = written (file wr) (elems (buf wr)) (off wr) /\
    buf wr' = reslice (reslice (buf wr) 0) n)) /\
  lookups wr' = lookups wr /\ uncmpSz wr' = uncmpSz wr /\ path wr' = path wr /\
  isInt64 (off wr').
Proof.
  intros Hoff Hg.
  pose proof (len_nonneg (buf wr)) as Hl. pose proof (len_le_cap (buf wr)) as Hlc.
  destruct (Z.lt_ge_cases (cap (buf wr)) n) as [Hbig|Hle].
  { rewrite getBytes_oversize in Hg by assumption. discriminate. }
  destruct (Z.lt_ge_cases (cap (buf wr) - len (buf wr)) n) as [Hroom|Hroom].
  - rewrite getBytes_flush_first in Hg by (auto; lia).
    destruct (flush wr) as [[u|e|] wr1] eqn:Hf; try discriminate.
    apply flush_Ret in Hf as (-> & Ho & Hmax); [|assumption].
    inversion Hg; subst; clear Hg. unfold logicalEnd; simpl.
    rewrite len_reslice by (rewrite cap_reslice; lia).
    rewrite !cap_reslice.
    repeat split; try reflexivity; try lia.
    + right. repeat split; try reflexivity; lia.
    + unfold minInt64. lia.
  - unfold getBytes in Hg.
    destruct (cap (buf wr) <? n) eqn:Hc; zbool; [lia|].
    destruct (cap (buf wr) - len (buf wr) <? n) eqn:Hr; zbool; [lia|].
    destruct (len (buf wr) + n <? 0) eqn:H0; [discriminate|].
    destruct (len (buf wr) + n <? len (buf wr)) eqn:H1; [discriminate|]. zbool.
    inversion Hg; subst; clear Hg. unfold logicalEnd; simpl.
    rewrite len_reslice by lia. rewrite cap_reslice.
    repeat split; try reflexivity; try lia; try apply Hoff.
    left. repeat split; reflexivity.
Qed.

(** ** How a call moves the writer *)

Lemma prefix_blen (a b : list byte) : a `prefix_of` b -> blen a <= blen b.
Proof. intros Hp. apply prefix_length in Hp. unfold blen. lia. Qed.

Lemma advances_refl (wr : journalWriter) : isInt64 (off wr) -> advances wr wr.
Proof. intros Hoff. split; [assumption|]. split; [reflexivity|]. left. split; reflexivity. Qed.

Lemma advances_off (wr wr' : journalWriter) : advances wr wr' -> off wr <= off wr'.
Proof.
  intros (_ & _ & [[-> _]|[Hle _]]); [lia|].
  unfold logicalEnd in Hle. pose proof (len_nonneg (buf wr)). lia.
Qed.

Lemma advances_end (wr wr' : journalWriter) :
  advances wr wr' -> logicalEnd wr <= logicalEnd wr'.
Proof.
  intros (_ & _ & [[Ho Hp]|[Hle _]]); unfold logicalEnd in *.
  - apply prefix_blen in Hp. unfold len. lia.
  - pose proof (len_nonneg (buf wr')). lia.
Qed.

Lemma advances_trans (a b c : journalWriter) :
  advances a b -> advances b c -> advances a c.
Proof.
  intros Hab Hbc.
  pose proof (advances_off _ _ Hbc) as Hoff.
  destruct Hab as (_ & Hlab & Hab). destruct Hbc as (Hi & Hlbc & Hbc).
  split; [assumption|]. split; [etransitivity; eassumption|].
  destruct Hab as [[Ho Hp]|[Hle [extra Hin]]].
  - destruct Hbc as [[Ho' Hp']|[Hle' [extra' Hin']]].
    + left. split; [lia|]. etransitivity; eassumption.
    + right. split.
      * apply prefix_blen in Hp. unfold logicalEnd, len in *. lia.
      * destruct Hp as [k Hk]. exists (k ++ extra').
        rewrite app_assoc, <- Hk, <- Ho. assumption.
  - right. split; [lia|]. exists extra.
    destruct Hlbc as [k ->]. apply elem_of_app. left. assumption.
Qed.

(** Changes that [advances] does not look at. *)
Lemma advances_same (wr wr1 wr2 : journalWriter) :
  advances wr wr1 ->
  off wr2 = off wr1 -> elems (buf wr1) `prefix_of` elems (buf wr2) ->
  flog (file wr1) `prefix_of` flog (file wr2) ->
  advances wr wr2.
Proof.
  intros Ha Ho Hb Hl. apply (advances_trans _ wr1); [assumption|].
  destruct Ha as (Hi & _). split; [congruence|]. split; [assumption|].
  left. split; assumption.
Qed.

Lemma prefix_logged (c : syscall) (f : osFile) : flog f `prefix_of` flog (logged c f).
Proof. simpl. apply prefix_app_r. reflexivity. Qed.

Lemma advances_flush (wr wr' : journalWriter) (r : outcome unit) :
  isInt64 (off wr) -> flush wr = (r, wr') -> advances wr wr'.
Proof.
  intros Hoff Hf. destruct r as [u|e|].
  - apply flush_Ret in Hf as (-> & Ho & Hle); [|assumption].
    split; simpl.
    { pose proof (len_nonneg (buf wr)). unfold isInt64, minInt64 in *. lia. }
    split; [apply prefix_app_r; reflexivity|].
    right. split; [unfold logicalEnd; lia|]. exists [].
    rewrite app_nil_r. apply elem_of_app. right. apply list_elem_of_singleton. reflexivity.
  - apply flush_Fail in Hf as ->.
    apply (advances_same wr wr); auto using advances_refl; try reflexivity.
    apply prefix_logged.
  - exfalso. exact (flush_not_Panic _ _ Hf).
Qed.

Lemma getBytes_Fail (n : Z) (wr wr' : journalWriter) (e : error) :
  getBytes n wr = (Fail e, wr') ->
  wr' = wr \/ flush wr = (Fail e, wr').
Proof.
  unfold getBytes.
  destruct (cap (buf wr) <? n); [intros Heq; inversion Heq; auto|].
  destruct (cap (buf wr) - len (buf wr) <? n).
  - destruct (flush wr) as [[u|e'|] wr1] eqn:Hf.
    + repeat case_match; discriminate.
    + intros Heq; inversion Heq; subst; auto.
    + discriminate.
  - repeat case_match; discriminate.
Qed.

Lemma getBytes_Panic (n : Z) (wr wr' : journalWriter) :
  getBytes n wr = (Panic, wr') -> n < 0.
Proof.
  unfold getBytes. pose proof (len_nonneg (buf wr)) as Hl.
  destruct (cap (buf wr) <? n); [discriminate|].
  destruct (cap (buf wr) - len (buf wr) <? n) eqn:Hr.
  - destruct (flush wr) as [[u|e'|] wr1] eqn:Hf; try discriminate.
    + pose proof (len_nonneg (buf wr1)).
      repeat case_match; try discriminate; zbool; intros _; lia.
    + exfalso. exact (flush_not_Panic _ _ Hf).
  - repeat case_match; try discriminate; zbool; intros _; lia.
Qed.

Lemma advances_getBytes (n : Z) (wr wr' : journalWriter) (r : outcome Z) :
  isInt64 (off wr) -> 0 <= n -> getBytes n wr = (r, wr') -> advances wr wr'.
Proof.
  intros Hoff Hn Hg. destruct r as [i|e|].
  - apply getBytes_Ret in Hg
      as (_ & _ & _ & _ & _ & [(Ho & _ & Hf & Hb)|(Ho & _ & _ & Hf & Hb)]
          & _ & _ & _ & Hi);
      try assumption.
    + split; [assumption|]. split; [rewrite Hf; reflexivity|].
      left. split; [assumption|]. rewrite Hb, elems_reslice_grow by assumption.
      apply prefix_app_r. reflexivity.
    + split; [assumption|]. rewrite Hf. simpl.
      split; [apply prefix_app_r; reflexivity|].
      right. split; [unfold logicalEnd; lia|]. exists [].
      rewrite app_nil_r. apply elem_of_app. right.
      apply list_elem_of_singleton. reflexivity.
  - apply getBytes_Fail in Hg as [->|Hf].
    + apply advances_refl; assumption.
    + eapply advances_flush; eassumption.
  - apply getBytes_Panic in Hg. lia.
Qed.

Lemma blen_view (s : slice) (i n : Z) :
  0 <= i -> 0 <= n -> i + n <= len s -> blen (view s i n) = n.
Proof.
  intros Hi Hn Hle. unfold len, view, blen in *.
  rewrite length_take, length_drop. lia.
Qed.

Lemma elems_store_tail (s : slice) (i n : Z) (bs : list byte) :
  0 <= i -> 0 <= n -> i + n = len s ->
  elems (store s i n bs) = take (Z.to_nat i) (elems s) ++ (copy (view s i n) bs).1.
Proof.
  intros Hi Hn Hle. unfold store, len, blen in *; cbn [elems].
  rewrite (drop_ge (elems s)) by lia. rewrite app_nil_r. reflexivity.
Qed.

Lemma len_store (s : slice) (i n : Z) (bs : list byte) :
  0 <= i -> 0 <= n -> i + n <= len s -> len (store s i n bs) = len s.
Proof.
  intros Hi Hn Hle. unfold len, store, blen in *; cbn [elems].
  rewrite !length_app, length_copy. unfold view.
  rewrite !length_take, !length_drop. lia.
Qed.

Lemma cap_store (s : slice) (i n : Z) (bs : list byte) :
  0 <= i -> 0 <= n -> i + n <= len s -> cap (store s i n bs) = cap s.
Proof.
  intros Hi Hn Hle. pose proof (len_store s i n bs Hi Hn Hle) as Hl.
  unfold cap, len in *. simpl in *. lia.
Qed.

Lemma store_keeps_front (s : slice) (i n : Z) (bs front : list byte) :
  front `prefix_of` elems s -> blen front <= i ->
  front `prefix_of` elems (store s i n bs).
Proof.
  intros [k Hk] Hi. unfold store; simpl. rewrite Hk.
  rewrite take_app_ge by (unfold blen in Hi; lia).
  rewrite <- app_assoc. apply prefix_app_r. reflexivity.
Qed.

(** Reserving [n] bytes and filling them. *)
Lemma advances_reserved (n i : Z) (bs : list byte) (wr wr1 wr2 : journalWriter) :
  isInt64 (off wr) -> 0 <= n ->
  getBytes n wr = (Ret i, wr1) ->
  off wr2 = off wr1 -> buf wr2 = store (buf wr1) i n bs -> file wr2 = file wr1 ->
  advances wr wr2 /\ logicalEnd wr2 = logicalEnd wr + n
  /\ cap (buf wr2) = cap (buf wr).
Proof.
  intros Hoff Hn Hg Ho2 Hb2 Hf2.
  pose proof (advances_getBytes _ _ _ _ Hoff Hn Hg) as (Hi & Hl & Hd).
  pose proof (len_nonneg (buf wr)) as Hl0.
  apply getBytes_Ret in Hg
    as (_ & Hend & Hin & Hcap & _ & Hcase & _); [|assumption].
  assert (H0i : 0 <= i) by (destruct Hcase as [(_ & -> & _)|(_ & -> & _)]; lia).
  assert (Hlen : len (buf wr2) = len (buf wr1))
    by (rewrite Hb2; apply len_store; lia).
  split; [|split].
  - split; [congruence|]. split; [rewrite Hf2; assumption|].
    destruct Hcase as [(Ho & Hi' & _ & Hb)|(Ho & _ & _ & Hf & _)].
    + left. split; [congruence|]. rewrite Hb2.
      apply store_keeps_front; [|unfold len in Hi'; lia].
      rewrite Hb, elems_reslice_grow by assumption. apply prefix_app_r. reflexivity.
    + right. rewrite Hf2, Ho2. destruct Hd as [[Ho' _]|Hd]; [|assumption].
      split; [unfold logicalEnd; lia|]. exists []. rewrite app_nil_r, Hf. simpl.
      apply elem_of_app. right. apply list_elem_of_singleton. reflexivity.
  - unfold logicalEnd in *. lia.
  - rewrite Hb2, cap_store by lia. assumption.
Qed.

Section CallLemmas.
Context {codec : RecordCodec}.

Lemma WriteChunk_not_Panic (cc : CompressedChunk) (wr wr' : journalWriter) :
  WriteChunk cc wr <> (Panic, wr').
Proof.
  unfold WriteChunk. pose proof (chunkRecordSize_nonneg cc) as Hn.
  destruct (chunkRecordSize cc) as [l o]; simpl in *.
  destruct (getBytes l wr) as [[i|e|] wr1] eqn:Hg; try discriminate.
  apply getBytes_Panic in Hg. lia.
Qed.

Lemma advances_WriteChunk (cc : CompressedChunk) (wr : journalWriter) :
  isInt64 (off wr) -> advances wr (WriteChunk cc wr).2.
Proof.
  intros Hoff. unfold WriteChunk. pose proof (chunkRecordSize_nonneg cc) as Hn.
  destruct (chunkRecordSize cc) as [l o]; simpl in *.
  destruct (getBytes l wr) as [[i|e|] wr1] eqn:Hg; simpl.
  - eapply advances_reserved; try eassumption; reflexivity.
  - eapply advances_getBytes; eassumption.
  - eapply advances_getBytes; eassumption.
Qed.

Lemma WriteChunk_Ret (cc : CompressedChunk) (wr wr' : journalWriter) (u : unit) :
  isInt64 (off wr) ->
  WriteChunk cc wr = (Ret u, wr') ->
  logicalEnd wr' = logicalEnd wr + (chunkRecordSize cc).1 /\
  lookups wr' =
    <[H cc := mkRecLookup (offset wr) (chunkRecordSize cc).1 (chunkRecordSize cc).2]>
      (lookups wr) /\
  cap (buf wr') = cap (buf wr).
Proof.
  intros Hoff. unfold WriteChunk. pose proof (chunkRecordSize_nonneg cc) as Hn.
  destruct (chunkRecordSize cc) as [l o]; simpl in *.
  destruct (getBytes l wr) as [[i|e|] wr1] eqn:Hg; try discriminate.
  intros Heq; inversion Heq; subst; clear Heq. simpl.
  pose proof Hg as Hg'.
  apply getBytes_Ret in Hg' as (_ & _ & _ & _ & _ & _ & Hlk & _); [|assumption].
  split; [|split].
  - eapply advances_reserved; try eassumption; reflexivity.
  - rewrite Hlk. reflexivity.
  - eapply (advances_reserved l i _ wr wr1 (set_buf wr1 _)); try eassumption; reflexivity.
Qed.

End CallLemmas.

(** ** What reaches the file *)

Lemma flush_log (wr : journalWriter) :
  flog (file (flush wr).2) = flog (file wr) ++ [SysWriteAt (elems (buf wr)) (off wr)].
Proof.
  unfold flush.
  destruct (osWriteAt_cases (file wr) (elems (buf wr)) (off wr)) as [[e' ->]|[-> _]];
    reflexivity.
Qed.

Lemma getBytes_log (n : Z) (wr : journalWriter) :
  flog (file (getBytes n wr).2) = flog (file wr) ++ reservationLog n wr.
Proof.
  unfold getBytes, reservationLog.
  destruct (cap (buf wr) <? n) eqn:Hc; zbool.
  { replace (n <=? cap (buf wr)) with false by (symmetry; apply Z.leb_gt; lia).
    rewrite andb_false_r, app_nil_r. reflexivity. }
  replace (n <=? cap (buf wr)) with true by (symmetry; apply Z.leb_le; lia).
  rewrite andb_true_r.
  destruct (cap (buf wr) - len (buf wr) <? n) eqn:Hr.
  - pose proof (flush_log wr) as Hl.
    destruct (flush wr) as [[u|e|] wr1]; simpl in *; try assumption.
    repeat case_match; simpl; assumption.
  - rewrite app_nil_r. repeat case_match; reflexivity.
Qed.

Lemma pwrite_read_back (d b : list byte) (o : Z) :
  0 <= o -> take (length b) (drop (Z.to_nat o) (pwrite d o b)) = b.
Proof.
  intros Ho. unfold pwrite.
  rewrite drop_app_length'.
  - rewrite take_app_length. reflexivity.
  - rewrite length_take, length_app, length_replicate. lia.
Qed.

Lemma fclosed_written (f : osFile) (b : list byte) (o : Z) :
  fclosed (written f b o) = fclosed f.
Proof. reflexivity. Qed.

Lemma ffault_written (f : osFile) (b : list byte) (o : Z) :
  ffault (written f b o) = ffault f.
Proof. reflexivity. Qed.

Section FileLemmas.
Context {codec : RecordCodec}.

Lemma WriteChunk_log (cc : CompressedChunk) (wr : journalWriter) :
  flog (file (WriteChunk cc wr).2)
  = flog (file wr) ++ reservationLog (chunkRecordSize cc).1 wr.
Proof.
  unfold WriteChunk. destruct (chunkRecordSize cc) as [l o]; simpl.
  pose proof (getBytes_log l wr) as Hl.
  destruct (getBytes l wr) as [[i|e|] wr1]; simpl in *; assumption.
Qed.

Lemma WriteRootHash_Ret (root : addr) (wr wr' : journalWriter) (u : unit) :
  isInt64 (off wr) ->
  WriteRootHash root wr = (Ret u, wr') ->
  exists front stale,
    let record := (copy stale (writeRootHashRecord stale root)).1 in
    let b := front ++ record in
    let o := off wr' - blen b in
    blen stale = rootHashRecordSize /\
    len (buf wr') = 0 /\
    off wr' = logicalEnd wr + rootHashRecordSize /\
    flog (file wr')
    = flog (file wr) ++ reservationLog rootHashRecordSize wr
        ++ [SysWriteAt b o; SysSync] /\
    0 <= o /\
    take (length b) (drop (Z.to_nat o) (fdata (file wr'))) = b /\
    fclosed (file wr') = false.
Proof.
  intros Hoff. unfold WriteRootHash.
  pose proof rootHashRecordSize_nonneg as Hn.
  pose proof (getBytes_log rootHashRecordSize wr) as Hlog.
  destruct (getBytes rootHashRecordSize wr) as [[i|e|] wr1] eqn:Hg; try discriminate.
  simpl in Hlog.
  remember (writeRootHashRecord (view (buf wr1) i rootHashRecordSize) root) as bs eqn:Hbs.
  remember (set_buf wr1 (store (buf wr1) i rootHashRecordSize bs)) as wr2 eqn:Hwr2.
  assert (Ho2 : off wr2 = off wr1) by (subst wr2; reflexivity).
  assert (Hb2 : buf wr2 = store (buf wr1) i rootHashRecordSize bs)
    by (subst wr2; reflexivity).
  assert (Hf2 : file wr2 = file wr1) by (subst wr2; reflexivity).
  pose proof (advances_reserved _ _ bs wr wr1 wr2 Hoff Hn Hg Ho2 Hb2 Hf2)
    as ((Hi2 & _) & Hend & _).
  assert (Hi0 : 0 <= i /\ i + rootHashRecordSize = len (buf wr1)).
  { apply getBytes_Ret in Hg as (_ & _ & Hin & _ & _ & Hcase & _); [|assumption].
    pose proof (len_nonneg (buf wr)).
    split; [destruct Hcase as [(_ & -> & _)|(_ & -> & _)]; lia|assumption]. }
  destruct Hi0 as [Hi0 Hin].
  assert (Hst : blen (view (buf wr1) i rootHashRecordSize) = rootHashRecordSize)
    by (apply blen_view; lia).
  assert (Hb : elems (buf wr2)
               = take (Z.to_nat i) (elems (buf wr1))
                   ++ (copy (view (buf wr1) i rootHashRecordSize) bs).1)
    by (rewrite Hb2; apply elems_store_tail; assumption).
  clear Hwr2 Hg.
  destruct (flush wr2) as [[u'|e|] wr3] eqn:Hf; try discriminate.
  apply flush_Ret in Hf as (-> & Ho & Hmax); [|assumption].
  cbn [file off buf].
  unfold osSync. rewrite fclosed_written, ffault_written.
  destruct (fclosed (file wr2)) eqn:Hcl; [discriminate|].
  destruct (ffault (file wr2) SysSync) eqn:Hs; [discriminate|].
  intros Heq; inversion Heq; subst wr'; clear Heq.
  exists (take (Z.to_nat i) (elems (buf wr1))), (view (buf wr1) i rootHashRecordSize).
  cbn zeta. rewrite <- Hbs, <- Hb.
  unfold set_file, logged, written.
  cbn [file off buf flog fdata fclosed].
  replace (off wr2 + len (buf wr2) - blen (elems (buf wr2))) with (off wr2)
    by (unfold len; lia).
  split; [assumption|]. split; [reflexivity|].
  split; [unfold logicalEnd in *; lia|].
  split; [rewrite Hf2, Hlog, <- !app_assoc; reflexivity|].
  split; [assumption|].
  split; [|assumption].
  destruct (blen (elems (buf wr2)) =? 0) eqn:Hz; zbool.
  - unfold blen in Hz. assert (Hnil : elems (buf wr2) = []) by
      (destruct (elems (buf wr2)); [reflexivity|simpl in Hz; lia]).
    rewrite Hnil. reflexivity.
  - apply pwrite_read_back. assumption.
Qed.

End FileLemmas.

Lemma osSync_file (f : osFile) : (osSync f).2 = logged SysSync f.
Proof. unfold osSync. destruct (fclosed f); reflexivity. Qed.

Lemma osClose_log (f : osFile) : flog (osClose f).2 = flog f ++ [SysClose].
Proof. unfold osClose. destruct (fclosed f); reflexivity. Qed.

Lemma osWriteAt_log (f : osFile) (b : list byte) (o : Z) :
  flog (osWriteAt f b o).2 = flog f ++ [SysWriteAt b o].
Proof.
  destruct (osWriteAt_cases f b o) as [[e ->]|[-> _]]; reflexivity.
Qed.

Section Advances.
Context {codec : RecordCodec}.

Lemma advances_WriteRootHash (root : addr) (wr : journalWriter) :
  isInt64 (off wr) -> advances wr (WriteRootHash root wr).2.
Proof.
  intros Hoff. unfold WriteRootHash. pose proof rootHashRecordSize_nonneg as Hn.
  destruct (getBytes rootHashRecordSize wr) as [[i|e|] wr1] eqn:Hg; simpl;
    try (eapply advances_getBytes; eassumption).
  remember (set_buf wr1 _) as wr2 eqn:Hwr2.
  assert (Ha : advances wr wr2).
  { eapply advances_reserved; try eassumption; subst wr2; reflexivity. }
  clear Hwr2.
  assert (Hb : advances wr2 (flush wr2).2).
  { destruct (flush wr2) as [r wr3] eqn:Hf.
    eapply advances_flush; [apply Ha|eassumption]. }
  destruct (flush wr2) as [[u|e|] wr3]; simpl in *;
    try (eapply advances_trans; eassumption).
  pose proof (osSync_file (file wr3)) as Hs.
  destruct (osSync (file wr3)) as [[e|] f]; simpl in *; subst f;
    (apply (advances_same wr wr3);
     [eapply advances_trans; eassumption|reflexivity|reflexivity|apply prefix_logged]).
Qed.

Lemma advances_Snapshot (wr : journalWriter) :
  isInt64 (off wr) -> advances wr (Snapshot wr).2.
Proof.
  intros Hoff. unfold Snapshot.
  assert (Hb : advances wr (flush wr).2).
  { destruct (flush wr) as [r wr1] eqn:Hf. eapply advances_flush; eassumption. }
  destruct (flush wr) as [[u|e|] wr1]; simpl in *; try assumption.
  destruct (ffault (file wr1) SysOpen); assumption.
Qed.

Lemma advances_Close (wr : journalWriter) :
  isInt64 (off wr) -> advances wr (Close wr).2.
Proof.
  intros Hoff. unfold Close.
  assert (Hb : advances wr (flush wr).2).
  { destruct (flush wr) as [r wr1] eqn:Hf. eapply advances_flush; eassumption. }
  destruct (flush wr) as [[u|e|] wr1]; simpl in *; try assumption.
  pose proof (osSync_file (file wr1)) as Hs.
  destruct (osSync (file wr1)) as [serr f1]; simpl in Hs; subst f1.
  pose proof (osClose_log (logged SysSync (file wr1))) as Hc.
  destruct (osClose (logged SysSync (file wr1))) as [cerr f2]; simpl in Hc.
  assert (Hp : flog (file wr1) `prefix_of` flog f2).
  { rewrite Hc. simpl. rewrite <- app_assoc. apply prefix_app_r. reflexivity. }
  destruct cerr, serr; simpl;
    (apply (advances_same wr wr1); [assumption|reflexivity|reflexivity|exact Hp]).
Qed.

Lemma advances_Write (p : list byte) (wr : journalWriter) :
  isInt64 (off wr) -> advances wr (Write p wr).2.
Proof.
  intros Hoff. unfold Write.
  destruct (len (buf wr) <? blen p) eqn:Hlen.
  - assert (Hb : advances wr (flush wr).2).
    { destruct (flush wr) as [r wr1] eqn:Hf. eapply advances_flush; eassumption. }
    destruct (flush wr) as [[u|e|] wr1] eqn:Hf; simpl in *; try assumption.
    apply flush_Ret in Hf as (Hwr1 & Ho & Hmax); [|assumption].
    assert (Hel : elems (buf wr1) = []) by (rewrite Hwr1; reflexivity).
    assert (Ho1 : 0 <= off wr1 <= maxInt64)
      by (pose proof (len_nonneg (buf wr)); rewrite Hwr1; simpl; lia).
    clear Hwr1.
    pose proof (osWriteAt_log (file wr1) p (off wr1)) as Hlog.
    eapply advances_trans; [exact Hb|].
    assert (Hstep : forall n err f, osWriteAt (file wr1) p (off wr1) = (n, err, f) ->
              advances wr1 (set_off (set_file wr1 f) (int64 (off wr1 + n)))).
    { intros n err f Hw. rewrite Hw in Hlog. simpl in Hlog.
      split; [apply int64_range|]. simpl.
      split; [rewrite Hlog; apply prefix_app_r; reflexivity|].
      right. unfold logicalEnd, len. rewrite Hel, blen_nil.
      split.
      - destruct (osWriteAt_cases (file wr1) p (off wr1)) as [[e He]|(He & _ & Hb')];
          rewrite He in Hw; inversion Hw; subst.
        + rewrite int64_id; [lia|]. unfold isInt64, minInt64. lia.
        + pose proof (blen_nonneg p). pose proof (len_nonneg (buf wr)). zbool.
          rewrite int64_id; [lia|]. unfold isInt64, minInt64.
          assert (Hnz : blen p <> 0) by lia. apply Hb' in Hnz. lia.
      - exists p. rewrite Hlog. simpl. apply elem_of_app. right.
        apply list_elem_of_singleton. reflexivity. }
    destruct (osWriteAt (file wr1) p (off wr1)) as [[n err] f] eqn:Hw.
    specialize (Hstep n err f eq_refl). destruct err; exact Hstep.
  - pose proof (blen_nonneg p) as Hn.
    destruct (getBytes (blen p) wr) as [[i|e|] wr1] eqn:Hg; simpl;
      try (eapply advances_getBytes; eassumption).
    eapply advances_reserved; try eassumption; reflexivity.
Qed.

Lemma advances_exec (c : call) (wr : journalWriter) :
  isInt64 (off wr) -> advances wr (exec c wr).
Proof.
  intros Hoff. destruct c; simpl.
  - apply advances_WriteChunk; assumption.
  - apply advances_WriteRootHash; assumption.
  - apply advances_Write; assumption.
  - apply advances_Snapshot; assumption.
  - apply advances_Close; assumption.
  - apply (advances_same wr wr); auto using advances_refl; reflexivity.
Qed.

Lemma advances_run (cs : list call) (wr : journalWriter) :
  isInt64 (off wr) -> advances wr (run cs wr).
Proof.
  revert wr. induction cs as [|c cs IH]; intros wr Hoff; simpl.
  - apply advances_refl; assumption.
  - pose proof (advances_exec c wr Hoff) as Hc.
    eapply advances_trans; [exact Hc|]. apply IH. apply Hc.
Qed.

End Advances.

(** ** Current size, Close and getCompressed as written *)

Section AsWritten.
Context {codec : RecordCodec}.

(** [CurrentSize] is [off]: it leaves out what is buffered. *)
Lemma CurrentSize_is_flushed_size (wr : journalWriter) :
  CurrentSize wr = logicalEnd wr - len (buf wr).
Proof. unfold CurrentSize, logicalEnd. lia. Qed.

(** When the flush fails, [Close] returns its error at once. *)
Lemma Close_flush_fails (wr wr1 : journalWriter) (e : error) :
  flush wr = (Fail e, wr1) ->
  Close wr = (Fail e, wr1) /\
  flog (file wr1) = flog (file wr) ++ [SysWriteAt (elems (buf wr)) (off wr)] /\
  fclosed (file wr1) = fclosed (file wr).
Proof.
  intros Hf. unfold Close. rewrite Hf. split; [reflexivity|].
  apply flush_Fail in Hf as ->. split; reflexivity.
Qed.

(** When the flush succeeds, [Sync] and [Close] are both called and the
    later error wins. *)
Lemma Close_flush_succeeds (wr wr1 : journalWriter) (u : unit) :
  flush wr = (Ret u, wr1) ->
  exists f,
    (Close wr).2 = set_file wr1 f /\
    flog f = flog (file wr1) ++ [SysSync; SysClose] /\
    (Close wr).1 =
      match (osClose (logged SysSync (file wr1))).1, (osSync (file wr1)).1 with
      | Some e, _ => Fail e
      | None, Some e => Fail e
      | None, None => Ret tt
      end.
Proof.
  intros Hf. unfold Close. rewrite Hf.
  pose proof (osSync_file (file wr1)) as Hs.
  destruct (osSync (file wr1)) as [serr f1]; simpl in Hs; subst f1.
  pose proof (osClose_log (logged SysSync (file wr1))) as Hc.
  destruct (osClose (logged SysSync (file wr1))) as [cerr f2]; simpl in Hc.
  exists f2. simpl.
  assert (Hl : flog f2 = flog (file wr1) ++ [SysSync; SysClose])
    by (rewrite Hc; simpl; rewrite <- app_assoc; reflexivity).
  destruct cerr, serr; simpl; repeat split; assumption.
Qed.

(** An error of [ReadAt] is dropped by [getCompressed]. *)
Lemma getCompressed_drops_read_error (h : addr) (wr : journalWriter)
    (l : recLookup) (p : list byte) (n : Z) (e : error) :
  lookups wr !! h = Some l ->
  ReadAt wr (replicate (Z.to_nat (recordLen l)) x00) (journalOff l)
  = ReadRet p n (Some e) ->
  getCompressed h wr = Ret zeroCompressedChunk.
Proof.
  intros Hl Hr. unfold getCompressed. rewrite Hl, Hr. reflexivity.
Qed.

(** The errors after the read are returned: that of the decoder, the
    mismatch of addresses, and that of [NewCompressedChunk]. *)
Lemma getCompressed_after_read (h : addr) (wr : journalWriter)
    (l : recLookup) (p : list byte) (n : Z) :
  lookups wr !! h = Some l ->
  ReadAt wr (replicate (Z.to_nat (recordLen l)) x00) (journalOff l)
  = ReadRet p n None ->
  getCompressed h wr =
    match readJournalRecord p with
    | Err e => Fail e
    | Ok rec =>
        if bool_decide (h = address rec)
        then lift (NewCompressedChunk h (payload rec))
        else Fail (ErrHashMismatch h (address rec))
    end.
Proof.
  intros Hl Hr. unfold getCompressed. rewrite Hl, Hr.
  destruct (readJournalRecord p) as [rec|e]; [|reflexivity].
  destruct (N.eqb_spec h (address rec)) as [Heq|Hne]; simpl.
  - rewrite bool_decide_true by assumption. reflexivity.
  - rewrite bool_decide_false by assumption. reflexivity.
Qed.

End AsWritten.

(** ** ReadAt *)

Lemma copy_short_src (dst src : list byte) :
  (length src <= length dst)%nat ->
  copy dst src = (src ++ drop (length src) dst, blen src).
Proof.
  intros Hle. unfold copy, blen. f_equal.
  - rewrite take_ge; [reflexivity|]. rewrite length_app, length_drop. lia.
  - lia.
Qed.

Lemma copy_exact (dst src : list byte) :
  length src = length dst -> (copy dst src).1 = src.
Proof.
  intros Hle. rewrite copy_short_src by lia. simpl.
  rewrite drop_ge by lia. apply app_nil_r.
Qed.

Lemma osReadAt_ok (f : osFile) (n o : Z) :
  fclosed f = false -> (forall n' o', ffault f (SysReadAt n' o') = None) ->
  0 <= o -> 0 <= n -> o + n <= blen (fdata f) ->
  osReadAt f n o = (take (Z.to_nat n) (drop (Z.to_nat o) (fdata f)), None).
Proof.
  intros Hc Hf Ho Hn Hle. unfold osReadAt.
  destruct (o <? 0) eqn:H0; zbool; [lia|].
  destruct (n <=? 0) eqn:H1; zbool.
  { replace n with 0 by lia. reflexivity. }
  rewrite Hc, Hf. f_equal.
  destruct (blen _ <? n) eqn:H2; zbool; [|reflexivity].
  unfold blen in *. rewrite length_take, length_drop in H2. lia.
Qed.

(** ** Replay *)

Section ReplayLemmas.
Context {codec : RecordCodec}.

Lemma isRoot_not_chunk (r : journalRec) : isRoot r = true -> isChunk r = false.
Proof.
  unfold isRoot, isChunk. intros Hr. zbool. apply Z.eqb_neq.
  rewrite Hr. intros Heq. apply kinds_differ. symmetry. exact Heq.
Qed.

Lemma processRecord_known (o : Z) (r : journalRec) (s : journalWriter * addr) :
  knownKind r = true -> (processRecord o r s).1 = None.
Proof.
  unfold knownKind, processRecord, isChunk, isRoot. destruct s as [wr cand].
  destruct (kind r =? chunkJournalRecKind); [reflexivity|].
  destruct (kind r =? rootHashJournalRecKind); [reflexivity|discriminate].
Qed.

Lemma processRecord_unknown (o : Z) (r : journalRec) (s : journalWriter * addr) :
  knownKind r = false -> processRecord o r s = (Some (ErrUnknownKind (kind r)), s).
Proof.
  unfold knownKind, processRecord, isChunk, isRoot. destruct s as [wr cand].
  destruct (kind r =? chunkJournalRecKind); [discriminate|].
  destruct (kind r =? rootHashJournalRecKind); [discriminate|reflexivity].
Qed.

Lemma validFrame_Some (d : list byte) (o : Z) (r : journalRec) :
  validFrame d o = Some r -> 0 < rlength r /\ o + rlength r <= blen d.
Proof.
  unfold validFrame. destruct (frameAt _) as [r'|]; [|discriminate].
  destruct (0 <? rlength r') eqn:H0; [|discriminate].
  destruct (o + rlength r' <=? blen d) eqn:H1; [|discriminate].
  simpl. intros Heq; inversion Heq; subst. zbool. lia.
Qed.

(** With fuel for every byte left, the scan ends at an offset where the
    read is refused, where the framing is invalid, or at a record the
    callback refuses. *)
Lemma scanFrom_framed (fuel : nat) (f : osFile) (o : Z)
    (s : journalWriter * addr) :
  0 <= o -> (length (fdata f) - Z.to_nat o < fuel)%nat ->
  exists recs o',
    framed (fdata f) o recs o' /\ Forall (fun x => knownKind x.2 = true) recs /\
    Forall (fun x => readFault f x.1 = None) recs /\
    match readFault f o' with
    | Some e => scanFrom fuel f o processRecord s = (0, Some e, replayed s recs)
    | None =>
        match validFrame (fdata f) o' with
        | None => scanFrom fuel f o processRecord s = (o', None, replayed s recs)
        | Some r =>
            knownKind r = false /\
            scanFrom fuel f o processRecord s
            = (0, Some (ErrUnknownKind (kind r)), replayed s recs)
        end
    end.
Proof.
  revert o s. induction fuel as [|fuel IH]; intros o s Ho Hfuel; [lia|].
  simpl. destruct (readFault f o) as [e|] eqn:Hr.
  { exists [], o. split; [constructor|]. split; [constructor|].
    split; [constructor|]. rewrite Hr. reflexivity. }
  destruct (validFrame (fdata f) o) as [r|] eqn:Hv.
  - destruct (knownKind r) eqn:Hk.
    + pose proof (processRecord_known o r s Hk) as Hp.
      destruct (processRecord o r s) as [err s'] eqn:Hpr. simpl in Hp. subst err.
      pose proof (validFrame_Some _ _ _ Hv) as [Hpos Hfit].
      destruct (IH (o + rlength r) s') as (recs & o' & Hfr & Hall & Hrd & Hres).
      { lia. } { unfold blen in Hfit. lia. }
      exists ((o, r) :: recs), o'. split; [constructor; assumption|].
      split; [constructor; assumption|].
      split; [constructor; assumption|].
      unfold replayed in *. simpl. rewrite Hpr. simpl. exact Hres.
    + exists [], o. split; [constructor|]. split; [constructor|].
      split; [constructor|].
      rewrite Hr, Hv. split; [assumption|].
      rewrite processRecord_unknown by assumption. reflexivity.
  - exists [], o. split; [constructor|]. split; [constructor|].
    split; [constructor|].
    rewrite Hr, Hv. reflexivity.
Qed.

Lemma last_filter_cons {A : Type} (P : A -> Prop) `{!forall x, Decision (P x)}
    (x : A) (l : list A) :
  last (filter P (x :: l)) =
    match last (filter P l) with
    | Some y => Some y
    | None => if decide (P x) then Some x else None
    end.
Proof.
  rewrite filter_cons. destruct (decide (P x)).
  - rewrite last_cons. reflexivity.
  - destruct (last (filter P l)); reflexivity.
Qed.

Lemma replayed_cons (s : journalWriter * addr) (x : Z * journalRec)
    (recs : list (Z * journalRec)) :
  replayed s (x :: recs) = replayed (processRecord x.1 x.2 s).2 recs.
Proof. reflexivity. Qed.

Lemma processRecord_frame (o : Z) (r : journalRec) (s : journalWriter * addr) :
  buf (processRecord o r s).2.1 = buf s.1 /\
  file (processRecord o r s).2.1 = file s.1 /\
  off (processRecord o r s).2.1 = off s.1 /\
  path (processRecord o r s).2.1 = path s.1.
Proof.
  destruct s as [wr cand]. unfold processRecord.
  repeat case_match; repeat split.
Qed.

Lemma replayed_frame (s : journalWriter * addr) (recs : list (Z * journalRec)) :
  buf (replayed s recs).1 = buf s.1 /\ file (replayed s recs).1 = file s.1 /\
  off (replayed s recs).1 = off s.1 /\ path (replayed s recs).1 = path s.1.
Proof.
  revert s. induction recs as [|[o r] recs IH]; intros s.
  - repeat split.
  - rewrite replayed_cons.
    destruct (IH (processRecord o r s).2) as (Hb & Hf & Ho & Hp).
    destruct (processRecord_frame o r s) as (Hb' & Hf' & Ho' & Hp').
    simpl in *. rewrite Hb, Hf, Ho, Hp. repeat split; assumption.
Qed.

Lemma replayed_lookups (s : journalWriter * addr) (recs : list (Z * journalRec))
    (a : addr) :
  lookups (replayed s recs).1 !! a = replayLookup (lookups s.1) recs a.
Proof.
  revert s. induction recs as [|[o r] recs IH]; intros [wr cand].
  - reflexivity.
  - rewrite replayed_cons, IH. unfold replayLookup.
    rewrite last_filter_cons.
    destruct (last (filter _ recs)) as [y|]; [reflexivity|].
    unfold processRecord, isChunk. simpl.
    destruct (kind r =? chunkJournalRecKind) eqn:Hc; simpl.
    + destruct (decide (address r = a)) as [Ha|Ha].
      * rewrite decide_True by (split; [reflexivity|assumption]).
        subst a. rewrite lookup_insert_eq. reflexivity.
      * rewrite decide_False by (intros [_ ?]; contradiction).
        rewrite lookup_insert_ne by assumption. reflexivity.
    + destruct (kind r =? rootHashJournalRecKind); reflexivity.
Qed.

Lemma uint64_add_l (a b : Z) : uint64 (uint64 a + b) = uint64 (a + b).
Proof. unfold uint64. apply Zplus_mod_idemp_l. Qed.

Lemma replayed_uncmpSz (s : journalWriter * addr) (recs : list (Z * journalRec)) :
  uint64 (uncmpSz (replayed s recs).1) = uint64 (uncmpSz s.1 + chunkSizes recs).
Proof.
  revert s. induction recs as [|[o r] recs IH]; intros [wr cand].
  - unfold chunkSizes. simpl. rewrite Z.add_0_r. reflexivity.
  - rewrite replayed_cons, IH. unfold chunkSizes.
    rewrite filter_cons. unfold processRecord, isChunk. simpl.
    destruct (kind r =? chunkJournalRecKind) eqn:Hc; simpl.
    + rewrite uint64_add_l. f_equal. lia.
    + destruct (kind r =? rootHashJournalRecKind); reflexivity.
Qed.

Lemma replayed_last (s : journalWriter * addr) (recs : list (Z * journalRec)) :
  (replayed s recs).2 =
    match last (filter (fun x => isRoot x.2 = true) recs) with
    | Some x => address x.2
    | None => s.2
    end.
Proof.
  revert s. induction recs as [|[o r] recs IH]; intros [wr cand].
  - reflexivity.
  - rewrite replayed_cons, IH, last_filter_cons.
    destruct (last (filter _ recs)) as [y|]; [reflexivity|].
    simpl. destruct (decide (isRoot r = true)) as [Hr|Hr].
    + unfold processRecord. pose proof (isRoot_not_chunk r Hr) as Hc.
      unfold isChunk, isRoot in *. rewrite Hc, Hr. reflexivity.
    + unfold processRecord, isRoot in *.
      destruct (kind r =? chunkJournalRecKind); [reflexivity|].
      destruct (kind r =? rootHashJournalRecKind); [contradiction|reflexivity].
Qed.

End ReplayLemmas.

(** ** Create and open *)

Lemma pwrite_at_end (d b : list byte) : pwrite d (blen d) b = d ++ b.
Proof.
  unfold pwrite, blen. rewrite Nat2Z.id, Nat.sub_diag. simpl replicate.
  rewrite app_nil_r, take_ge by lia. rewrite drop_ge by lia.
  rewrite app_nil_r. reflexivity.
Qed.

Lemma osWrite_at_end (f : osFile) (b : list byte) :
  blen b <> 0 -> fclosed f = false -> ffault f (SysWrite b) = None ->
  fpos f = blen (fdata f) ->
  osWrite f b = (blen b, None,
                 mkFile (fdata f ++ b) (blen (fdata f ++ b)) false (ffault f)
                        (flog f ++ [SysWrite b])).
Proof.
  intros Hb Hc Hf Hp. unfold osWrite.
  destruct (blen b =? 0) eqn:H0; zbool; [contradiction|].
  rewrite Hc, Hf, Hp, pwrite_at_end, blen_app. reflexivity.
Qed.

(** [k] rounds of the loop, each appending the batch [b]. *)
Lemma zeroFill_rounds (k : nat) :
  forall (fuel : nat) (size step : Z) (b : list byte) (i : Z) (f : osFile),
    (k < fuel)%nat -> 0 < step -> blen b <> 0 ->
    i + Z.of_nat k * step >= size -> (k <> 0%nat -> i + (Z.of_nat k - 1) * step < size) ->
    fclosed f = false -> ffault f (SysWrite b) = None ->
    fpos f = blen (fdata f) ->
    exists f',
      zeroFill fuel size step b i f = (None, f') /\
      fdata f' = fdata f ++ concat (replicate k b) /\
      fpos f' = blen (fdata f') /\ fclosed f' = false /\ ffault f' = ffault f /\
      flog f' = flog f ++ replicate k (SysWrite b).
Proof.
  induction k as [|k IH]; intros fuel size step b i f Hfuel Hstep Hb Hge Hlt Hc Hf Hp.
  - exists f. destruct fuel as [|fuel]; [lia|]. simpl zeroFill.
    destruct (i <? size) eqn:Hi; zbool; [lia|].
    simpl. rewrite !app_nil_r. repeat split; assumption.
  - destruct fuel as [|fuel]; [lia|]. simpl zeroFill.
    destruct (i <? size) eqn:Hi; zbool; [|specialize (Hlt ltac:(lia)); nia].
    rewrite osWrite_at_end by assumption.
    destruct (IH fuel size step b (i + step)
                (mkFile (fdata f ++ b) (blen (fdata f ++ b)) false (ffault f)
                        (flog f ++ [SysWrite b])))
      as (f' & Hz & Hd & Hp' & Hc' & Hf' & Hl'); try assumption; try reflexivity.
    + lia.
    + lia.
    + intros Hk. specialize (Hlt ltac:(lia)). lia.
    + exists f'. split; [assumption|]. simpl in *.
      split; [rewrite Hd, <- app_assoc; reflexivity|].
      repeat (split; [assumption|]).
      rewrite Hl', <- app_assoc. reflexivity.
Qed.

Lemma concat_replicate_zeros (k n : nat) :
  concat (replicate k (replicate n x00)) = replicate (k * n) x00.
Proof.
  induction k as [|k IH]; [reflexivity|].
  simpl concat. rewrite IH. change (S k * n)%nat with (n + k * n)%nat.
  rewrite replicate_add. reflexivity.
Qed.

Lemma batches : chunkJournalFileSize = 256 * batch /\ 0 < batch.
Proof. split; reflexivity. Qed.

Lemma blen_batch : blen (replicate (Z.to_nat batch) x00) = batch.
Proof.
  unfold blen. rewrite length_replicate. apply Z2Nat.id.
  destruct batches as [_ Hb]. lia.
Qed.

Lemma zeroFill_journal (flt : syscall -> option error) :
  (forall c, flt c = None) ->
  zeroFill (Z.to_nat (chunkJournalFileSize / batch) + 1) chunkJournalFileSize batch
           (replicate (Z.to_nat batch) x00) 0 (mkFile [] 0 false flt [])
  = (None,
     mkFile (replicate (Z.to_nat chunkJournalFileSize) x00) chunkJournalFileSize
            false flt (replicate 256 (SysWrite (replicate (Z.to_nat batch) x00)))).
Proof.
  intros Hflt. destruct batches as [Hsz Hb].
  change (Z.to_nat (chunkJournalFileSize / batch) + 1)%nat with 257%nat.
  destruct (zeroFill_rounds 256 257 chunkJournalFileSize batch
              (replicate (Z.to_nat batch) x00) 0 (mkFile [] 0 false flt []))
    as (f' & Hz & Hd & Hp & Hc & Hf & Hl);
    try reflexivity; try apply Hflt; try lia.
  { rewrite blen_batch. lia. }
  rewrite Hz. clear Hz. destruct f' as [d pos c ft lg]. cbn [fdata fpos fclosed ffault flog] in *.
  subst c ft lg pos. rewrite Hd.
  rewrite app_nil_l, concat_replicate_zeros.
  replace (256 * Z.to_nat batch)%nat with (Z.to_nat chunkJournalFileSize)
    by (rewrite Hsz, Z2Nat.inj_mul by lia; reflexivity).
  unfold blen. rewrite length_replicate, Z2Nat.id by lia. reflexivity.
Qed.

(** ** The records written and the logical end *)

Section RecordSum.
Context {codec : RecordCodec}.

(** The sum of the encoded lengths of the records written is the logical
    end, [off + len(buf)]; [CurrentSize] is short of it by the length of
    the buffer. *)
Lemma records_sum_to_logicalEnd (ws : list recordWrite) (wr wr' : journalWriter) :
  isInt64 (off wr) ->
  writeAll ws wr = Some wr' ->
  logicalEnd wr' = logicalEnd wr + totalSize ws /\
  CurrentSize wr' = logicalEnd wr + totalSize ws - len (buf wr').
Proof.
  revert wr. induction ws as [|w ws IH]; intros wr Hoff Hw; simpl in Hw.
  - inversion Hw; subst. unfold totalSize, CurrentSize, logicalEnd. simpl. lia.
  - destruct (writeRecord w wr) as [[u|e|] wr1] eqn:Hr; try discriminate.
    assert (Hstep : logicalEnd wr1 = logicalEnd wr + recordSize w /\ isInt64 (off wr1)).
    { destruct w as [cc|root]; simpl in Hr.
      - split.
        + apply WriteChunk_Ret in Hr; [apply Hr|assumption].
        + pose proof (advances_WriteChunk cc wr Hoff) as Ha.
          rewrite Hr in Ha. apply Ha.
      - split.
        + apply WriteRootHash_Ret in Hr as (? & ? & _ & Hl & Ho & _); [|assumption].
          unfold logicalEnd at 1. simpl recordSize. lia.
        + pose proof (advances_WriteRootHash root wr Hoff) as Ha.
          rewrite Hr in Ha. apply Ha. }
    destruct Hstep as [Hend Hi].
    destruct (IH wr1 Hi Hw) as [He Hc].
    unfold totalSize in *. cbn [foldr]. split; lia.
Qed.

End RecordSum.

(** * The claims *)

Section Claim1.
#[local] Existing Instance Demo.codec.

(** C1.  After one chunk of record length 5 is written to a fresh writer
    and stays in the buffer, the logical end [offset()] is 5, the sum of
    the encoded lengths, while [CurrentSize()] returns 0. *)
Theorem CurrentSize_leaves_out_buffered_record :
  let wr := (WriteChunk Demo.cc1 Demo.fresh).2 in
  WriteChunk Demo.cc1 Demo.fresh = (Ret tt, wr) /\
  (chunkRecordSize Demo.cc1).1 = 5 /\
  len (buf wr) = 5 /\ offset wr = 5 /\
  CurrentSize wr = 0.
Proof. vm_compute. repeat split; reflexivity. Qed.

End Claim1.

Section Claim2.
#[local] Existing Instance Demo.codec.

(** C2.  With one record in the buffer and a file whose [WriteAt] fails,
    [Close] returns the error of the flush; the only system call made is
    that [WriteAt]: neither [Sync] nor [Close] of the file is attempted,
    and the file stays open. *)
Theorem Close_returns_early_when_flush_fails :
  let wr0 := (WriteChunk Demo.cc1 Demo.fresh).2 in
  let wr := set_file wr0 (set_fault (file wr0) Demo.writeFails) in
  exists wr',
    Close wr = (Fail (ErrIO 5), wr') /\
    flog (file wr') = [SysWriteAt (elems (buf wr)) 0] /\
    (SysSync ∉ flog (file wr')) /\ (SysClose ∉ flog (file wr')) /\
    fclosed (file wr') = false.
Proof.
  eexists. split; [vm_compute; reflexivity|]. simpl.
  split; [reflexivity|].
  split; [|split; [|reflexivity]];
    intros Hin; apply list_elem_of_singleton in Hin; discriminate.
Qed.

End Claim2.

Section Claim3.
#[local] Existing Instance Demo.codec.

(** C3.  A chunk is written, a root hash is written (which flushes and
    syncs) and the writer is closed.  The address is still in the index
    and [ReadAt] of its record fails with the error of the closed file,
    yet [getCompressed] returns the zero chunk and a nil error. *)
Theorem getCompressed_swallows_ReadAt_error :
  let wr := run [CallWriteChunk Demo.cc1; CallWriteRootHash 5%N; CallClose] Demo.fresh in
  lookups wr !! H Demo.cc1 = Some (mkRecLookup 0 5 3) /\
  ReadAt wr (replicate 5 x00) 0 = ReadRet (replicate 5 x00) 0 (Some ErrClosed) /\
  getCompressed (H Demo.cc1) wr = Ret zeroCompressedChunk.
Proof. vm_compute. repeat split; reflexivity. Qed.

End Claim3.

(** C4, as the code has it.  On a writer whose file is open, is read
    without fault and holds the [off] bytes flushed so far, a read at an
    offset [o] between 0 and the logical end whose destination reaches
    past the logical end returns no error and the count of the bytes
    from [o] to the logical end; the destination holds exactly those
    bytes of the journal, and the rest of it is untouched. *)
Theorem ReadAt_past_the_end (wr : journalWriter) (p : list byte) (o : Z) :
  isInt64 (off wr) -> isInt64 o ->
  fclosed (file wr) = false ->
  (forall n o', ffault (file wr) (SysReadAt n o') = None) ->
  0 <= off wr <= blen (fdata (file wr)) ->
  0 <= o <= logicalEnd wr ->
  logicalEnd wr < o + blen p ->
  ReadAt wr p o =
    ReadRet (drop (Z.to_nat o) (journalBytes wr)
               ++ drop (Z.to_nat (logicalEnd wr - o)) p)
            (logicalEnd wr - o) None.
Proof.
  intros Hoff Hio Hc Hf Hfile Ho Hpast.
  pose proof (len_nonneg (buf wr)) as Hl.
  unfold logicalEnd in *. unfold ReadAt, journalBytes.
  destruct (o <? off wr) eqn:Hlt; zbool.
  - (* the read starts in the file and straddles *)
    rewrite int64_id by (unfold isInt64, minInt64, maxInt64 in *; lia).
    destruct (off wr - o <? blen p) eqn:Hs; zbool; [|lia].
    destruct (off wr - o <? 0) eqn:Hneg; zbool; [lia|]. simpl andb. cbv iota.
    assert (Hp1 : blen (take (Z.to_nat (off wr - o)) p) = off wr - o)
      by (unfold blen in *; rewrite length_take; lia).
    rewrite Hp1, osReadAt_ok by (auto; lia).
    set (d := take (Z.to_nat (off wr - o)) (drop (Z.to_nat o) (fdata (file wr)))).
    assert (Hd : blen d = off wr - o)
      by (subst d; unfold blen in *; rewrite length_take, length_drop; lia).
    rewrite copy_exact by (unfold blen in *; lia).
    change (Z.to_nat 0) with 0%nat. rewrite drop_0.
    rewrite copy_short_src
      by (unfold len, blen in *; rewrite length_drop; lia).
    f_equal.
    + rewrite drop_app_le by (unfold blen in *; rewrite length_take; lia).
      rewrite <- app_assoc. f_equal.
      * subst d. rewrite take_drop_commute. f_equal. f_equal. lia.
      * f_equal. rewrite drop_drop. f_equal. unfold len, blen in *. lia.
    + unfold len in *. lia.
  - (* the read lies in the buffer *)
    rewrite int64_id by (unfold isInt64, minInt64, maxInt64 in *; lia).
    destruct (o - off wr <? 0) eqn:Hneg; zbool; [lia|].
    destruct (len (buf wr) <? o - off wr) eqn:Hbig; zbool; [lia|]. simpl orb. cbv iota.
    rewrite copy_short_src
      by (unfold len, blen in *; rewrite length_drop; lia).
    f_equal.
    + rewrite drop_app_ge by (unfold blen in *; rewrite length_take; lia).
      f_equal.
      * f_equal. unfold blen in *. rewrite length_take. lia.
      * f_equal. unfold len, blen in *. rewrite length_drop. lia.
    + unfold len, blen in *. rewrite length_drop. lia.
Qed.

Section Claim4.
#[local] Existing Instance Demo.codec.

(** C4 fails as stated: a read that starts beyond the logical end
    panics; it does not return a short count. *)
Lemma ReadAt_beyond_the_end_panics :
  let wr := (WriteChunk Demo.cc1 Demo.fresh).2 in
  logicalEnd wr = 5 /\
  logicalEnd wr < 6 + blen [x00; x00] /\
  ReadAt wr [x00; x00] 6 = ReadPanic /\
  ~ exists p' n err, ReadAt wr [x00; x00] 6 = ReadRet p' n err.
Proof.
  assert (Hr : ReadAt (WriteChunk Demo.cc1 Demo.fresh).2 [x00; x00] 6 = ReadPanic)
    by reflexivity.
  split; [reflexivity|]. split; [reflexivity|]. split; [exact Hr|].
  intros (p' & n & err & Heq). rewrite Hr in Heq. discriminate.
Qed.

Lemma ReadAt_past_the_end_witness :
  let wr := run [CallWriteChunk Demo.cc1; CallWriteChunk Demo.cc2] Demo.fresh in
  let p := replicate 12 xff in
  off wr = 5 /\ logicalEnd wr = 11 /\
  ReadAt wr p 2 =
    ReadRet (drop (Z.to_nat 2) (journalBytes wr)
               ++ drop (Z.to_nat (logicalEnd wr - 2)) p)
            (logicalEnd wr - 2) None.
Proof.
  intros wr p. split; [reflexivity|]. split; [reflexivity|].
  apply (ReadAt_past_the_end wr p 2).
  - vm_compute. split; discriminate.
  - vm_compute. split; discriminate.
  - reflexivity.
  - intros n o'. reflexivity.
  - vm_compute. split; discriminate.
  - vm_compute. split; discriminate.
  - vm_compute. reflexivity.
Defined.

End Claim4.

Section ReplayOffset.
Context {codec : RecordCodec}.

Lemma framed_forward (d : list byte) (o o' : Z) (recs : list (Z * journalRec)) :
  framed d o recs o' -> o <= o'.
Proof.
  induction 1 as [o|o r recs o' Hv _ IH]; [lia|].
  apply validFrame_Some in Hv. lia.
Qed.

(** The replay after open starts from [off = 0] and does not move [off]
    below it. *)
Lemma ProcessJournal_off (wr : journalWriter) :
  off wr = 0 -> off wr <= off (ProcessJournal wr).2.
Proof.
  intros H0. unfold ProcessJournal, processJournalRecords.
  destruct (scanFrom_framed (S (length (fdata (file wr)))) (file wr) 0
              (wr, zeroHash)) as (recs & o' & Hfr & _ & _ & Hres); [lia|lia|].
  apply framed_forward in Hfr.
  destruct (readFault (file wr) o') as [e|].
  { rewrite Hres.
    destruct (replayed (wr, zeroHash) recs) as [wr1 cand]. simpl. lia. }
  destruct (validFrame (fdata (file wr)) o') as [r|].
  - destruct Hres as [_ ->].
    destruct (replayed (wr, zeroHash) recs) as [wr1 cand]. simpl. lia.
  - rewrite Hres.
    destruct (replayed (wr, zeroHash) recs) as [wr1 cand]. simpl. lia.
Qed.

End ReplayOffset.

Section Claim5.
Context {codec : RecordCodec}.

(** C5.  [ProcessJournal] scans the records framed one after the other
    from offset 0, reading the file as it goes.  The records taken are
    those up to the first offset where the read is refused, the framing
    is invalid or the kind is unknown.  When the scan ends at an invalid
    framing: it returns the address of the last root-hash record (the
    zero hash without one); [off] becomes the offset where the framing is
    first invalid; every chunk record has its lookup entry
    [{offset, length, payload offset}] (the last record of an address
    wins, other entries stay); [uncmpSz] has grown by the sum of the
    uncompressed payload sizes of the chunk records (modulo 2^64); buffer
    and file are as before.  When a record of another kind is met, it
    fails with the unknown-kind error for that kind.  When the file
    refuses a read, it fails with the error of that read: on a closed
    file with the closed-file error, and with the error of the
    environment when the first read fails. *)
Theorem ProcessJournal_replays (wr : journalWriter) :
  (exists recs o',
     framed (fdata (file wr)) 0 recs o' /\
     Forall (fun x => knownKind x.2 = true) recs /\
     Forall (fun x => readFault (file wr) x.1 = None) recs /\
     match readFault (file wr) o' with
     | Some e =>
         exists wr', ProcessJournal wr = (Fail e, wr') /\ file wr' = file wr
     | None =>
         match validFrame (fdata (file wr)) o' with
         | None =>
             exists wr',
               ProcessJournal wr = (Ret (lastRoot recs), wr') /\
               off wr' = o' /\
               (forall a, lookups wr' !! a = replayLookup (lookups wr) recs a) /\
               uint64 (uncmpSz wr') = uint64 (uncmpSz wr + chunkSizes recs) /\
               buf wr' = buf wr /\ file wr' = file wr
         | Some r =>
             knownKind r = false /\
             exists wr', ProcessJournal wr = (Fail (ErrUnknownKind (kind r)), wr')
         end
     end) /\
  (fclosed (file wr) = true ->
     exists wr', ProcessJournal wr = (Fail ErrClosed, wr') /\
                 lookups wr' = lookups wr /\ uncmpSz wr' = uncmpSz wr) /\
  (forall e, fclosed (file wr) = false ->
     ffault (file wr) (SysReadAt journalWriterBuffSize 0) = Some e ->
     exists wr', ProcessJournal wr = (Fail e, wr') /\
                 lookups wr' = lookups wr /\ uncmpSz wr' = uncmpSz wr).
Proof.
  assert (Hfirst : forall e, readFault (file wr) 0 = Some e ->
            exists wr', ProcessJournal wr = (Fail e, wr') /\
                        lookups wr' = lookups wr /\ uncmpSz wr' = uncmpSz wr).
  { intros e Hr. unfold ProcessJournal, processJournalRecords.
    cbn [scanFrom]. rewrite Hr. eexists. split; [reflexivity|].
    split; reflexivity. }
  split; [|split].
  - unfold ProcessJournal, processJournalRecords.
    destruct (scanFrom_framed (S (length (fdata (file wr)))) (file wr) 0
                (wr, zeroHash)) as (recs & o' & Hfr & Hall & Hrd & Hres); [lia|lia|].
    exists recs, o'. split; [assumption|]. split; [assumption|].
    split; [assumption|].
    pose proof (replayed_frame (wr, zeroHash) recs) as (Hb & Hf & _).
    destruct (readFault (file wr) o') as [e|].
    { rewrite Hres.
      destruct (replayed (wr, zeroHash) recs) as [wr1 cand]. simpl in *.
      eexists. split; [reflexivity|]. simpl. assumption. }
    destruct (validFrame (fdata (file wr)) o') as [r|].
    + destruct Hres as [Hk ->]. split; [assumption|].
      destruct (replayed (wr, zeroHash) recs) as [wr1 cand]. eexists. reflexivity.
    + rewrite Hres.
      pose proof (replayed_lookups (wr, zeroHash) recs) as Hl.
      pose proof (replayed_uncmpSz (wr, zeroHash) recs) as Hu.
      pose proof (replayed_last (wr, zeroHash) recs) as Hlast.
      destruct (replayed (wr, zeroHash) recs) as [wr1 cand]. simpl in *.
      eexists. split; [unfold lastRoot; rewrite <- Hlast; reflexivity|].
      simpl. repeat split; assumption.
  - intros Hc. apply Hfirst. unfold readFault. rewrite Hc. reflexivity.
  - intros e Hc He. apply Hfirst. unfold readFault. rewrite Hc. exact He.
Qed.

End Claim5.

Section Claim5Examples.
#[local] Existing Instance Demo.codec.

(** A journal with a chunk record (address 7, two payload bytes) and a
    root-hash record (address 5), then zeros. *)
Example ProcessJournal_demo :
  let journal := [x05; x02; x07; x0a; x0b; x03; x01; x05; x00; x00; x00; x00] in
  let wr := set_file Demo.fresh (mkFile journal 0 false Demo.noFault []) in
  (ProcessJournal wr).1 = Ret 5%N /\
  off (ProcessJournal wr).2 = 8 /\
  lookups (ProcessJournal wr).2 !! 7%N = Some (mkRecLookup 0 5 3) /\
  uncmpSz (ProcessJournal wr).2 = 2.
Proof. vm_compute. repeat split; reflexivity. Qed.

(** A record of kind 9 stops the replay with an error. *)
Example ProcessJournal_unknown_kind :
  let journal := [x05; x02; x07; x0a; x0b; x03; x09; x05; x00; x00] in
  let wr := set_file Demo.fresh (mkFile journal 0 false Demo.noFault []) in
  (ProcessJournal wr).1 = Fail (ErrUnknownKind 9).
Proof. vm_compute. reflexivity. Qed.

(** The same journal on a closed file, and on a file whose reads fail
    from offset 5 on: the replay fails with the error of the read and
    returns no root. *)
Example ProcessJournal_read_refused :
  let journal := [x05; x02; x07; x0a; x0b; x03; x01; x05; x00; x00; x00; x00] in
  let closed := set_file Demo.fresh (mkFile journal 0 true Demo.noFault []) in
  let faulty := set_file Demo.fresh (mkFile journal 0 false Demo.readFailsFrom5 []) in
  (ProcessJournal closed).1 = Fail ErrClosed /\
  lookups (ProcessJournal closed).2 = ∅ /\
  (ProcessJournal faulty).1 = Fail (ErrIO 5).
Proof. vm_compute. repeat split; reflexivity. Qed.

End Claim5Examples.

Section Claim7.
Context {codec : RecordCodec}.

(** C7.  A reservation of [n] bytes: when [n] exceeds the capacity it
    fails at once with the capacity error and leaves the writer (and so
    the current size, [off] and the buffer) as it was; when [n] is the
    capacity and the buffer is empty it succeeds without touching the
    file; when [n] exceeds the room left but not the capacity (which
    includes [n] equal to the capacity with a non-empty buffer) the
    buffer is flushed first, and after the flush the [n] bytes are the
    whole buffer, starting at cell 0, with [off] moved past what was
    flushed; a failed flush is returned. *)
Theorem getBytes_reservation (n : Z) (wr : journalWriter) :
  isInt64 (off wr) ->
  (cap (buf wr) < n ->
     getBytes n wr = (Fail (ErrExceedsCapacity n (cap (buf wr))), wr)) /\
  (n = cap (buf wr) -> len (buf wr) = 0 ->
     exists wr', getBytes n wr = (Ret 0, wr') /\
       len (buf wr') = n /\ cap (buf wr') = cap (buf wr) /\
       off wr' = off wr /\ file wr' = file wr) /\
  (cap (buf wr) - len (buf wr) < n <= cap (buf wr) ->
     match flush wr with
     | (Ret _, wr1) =>
         exists wr', getBytes n wr = (Ret 0, wr') /\
           len (buf wr') = n /\ cap (buf wr') = cap (buf wr) /\
           off wr' = off wr + len (buf wr) /\ file wr' = file wr1 /\
           flog (file wr') = flog (file wr) ++ [SysWriteAt (elems (buf wr)) (off wr)]
     | (Fail e, wr1) => getBytes n wr = (Fail e, wr1)
     | (Panic, _) => False
     end).
Proof.
  intros Hoff. pose proof (len_nonneg (buf wr)) as Hl.
  pose proof (len_le_cap (buf wr)) as Hlc.
  split; [apply getBytes_oversize|]. split.
  - intros Hn H0. rewrite getBytes_fits by lia. eexists. split.
    + rewrite H0. reflexivity.
    + simpl. rewrite len_reslice, cap_reslice by lia. repeat split; lia.
  - intros Hn. rewrite getBytes_flush_first by assumption.
    pose proof (flush_log wr) as Hlog.
    destruct (flush wr) as [[u|e|] wr1] eqn:Hf.
    + apply flush_Ret in Hf as (Hwr1 & _ & _); [|assumption].
      eexists. split; [reflexivity|]. simpl in *.
      rewrite len_reslice, cap_reslice
        by (rewrite ?cap_reslice, Hwr1; simpl; rewrite ?cap_reslice; lia).
      rewrite Hlog, Hwr1; simpl. rewrite cap_reslice. repeat split; reflexivity.
    + reflexivity.
    + exact (flush_not_Panic _ _ Hf).
Qed.

End Claim7.

Section Claim7Witness.
#[local] Existing Instance Demo.codec.

Lemma getBytes_reservation_witness :
  let wr := (WriteChunk Demo.cc1 Demo.fresh).2 in
  isInt64 (off Demo.fresh) /\
  getBytes 9 Demo.fresh
  = (Fail (ErrExceedsCapacity 9 (cap (buf Demo.fresh))), Demo.fresh) /\
  (exists wr', getBytes 8 Demo.fresh = (Ret 0, wr') /\
     len (buf wr') = 8 /\ cap (buf wr') = cap (buf Demo.fresh) /\
     off wr' = off Demo.fresh /\ file wr' = file Demo.fresh) /\
  cap (buf wr) - len (buf wr) < 6 <= cap (buf wr) /\
  (exists wr', getBytes 6 wr = (Ret 0, wr') /\ len (buf wr') = 6 /\
     off wr' = off wr + len (buf wr)).
Proof.
  intros wr.
  assert (Hoff : isInt64 (off Demo.fresh)) by (vm_compute; split; discriminate).
  assert (Hoff' : isInt64 (off wr)) by (vm_compute; split; discriminate).
  assert (Hn : cap (buf wr) - len (buf wr) < 6 <= cap (buf wr))
    by (vm_compute; split; [reflexivity|discriminate]).
  split; [exact Hoff|]. split; [|split; [|split; [exact Hn|]]].
  - apply (proj1 (getBytes_reservation 9 Demo.fresh Hoff)). vm_compute. reflexivity.
  - apply (proj1 (proj2 (getBytes_reservation 8 Demo.fresh Hoff))); reflexivity.
  - pose proof (proj2 (proj2 (getBytes_reservation 6 wr Hoff')) Hn) as Hg.
    destruct (flush wr) as [[u|e|] wr1] eqn:Hf.
    + destruct Hg as (wr' & Hg & Hl & _ & Ho & _). exists wr'. repeat split; assumption.
    + exfalso. vm_compute in Hf. discriminate.
    + destruct Hg.
Defined.

End Claim7Witness.

(** C8, as the code has it.  With no fault on the path calls: [create]
    fails with the already-exists error whenever the path exists, as a
    regular file or as a directory, and leaves the file system as it
    was; on an absent path (and a descriptor without faults) it creates
    the file, fills it with zeros in 256 writes of one batch up to the
    pre-allocated size, syncs, seeks to 0 and only then builds the
    writer; [open] on an absent path returns [(nil, false, nil)], and on
    a directory it is [open] that reports the found-directory error. *)
Theorem create_and_open (w : world) (p : string) :
  (forall c, wfault w c = None) ->
  (is_Some (nodes w !! wabs w p) ->
     createJournalWriter w p = (Err ErrAlreadyExists, w)) /\
  (nodes w !! wabs w p = None -> (forall c, hfault w c = None) ->
     createJournalWriter w p
     = (Ok (newJournalWriter (zeroFilled (hfault w)) (wabs w p)),
        set_node w (wabs w p)
          (RegularFile (replicate (Z.to_nat chunkJournalFileSize) x00)))) /\
  (nodes w !! wabs w p = None -> openJournalWriter w p = (None, false, None)) /\
  (nodes w !! wabs w p = Some Directory ->
     openJournalWriter w p = (None, true, Some ErrFoundDirectory)).
Proof.
  intros Hw. split; [|split; [|split]].
  - intros [n Hn]. unfold createJournalWriter, fsAbs, fsStat.
    rewrite !Hw, Hn. destruct n; reflexivity.
  - intros Hn Hh. unfold createJournalWriter, fsAbs, fsStat, fsOpenFile.
    rewrite !Hw, Hn. cbn [isNotExist negb].
    rewrite zeroFill_journal by assumption.
    unfold osSync, osSeek, logged. cbn [fclosed ffault fdata fpos flog].
    rewrite !Hh. cbn [fclosed ffault fdata fpos flog].
    change (0 <? 0) with false. change (negb (0 =? 0)) with false. cbv iota.
    f_equal.
    unfold set_node. cbn [nodes wabs wfault hfault].
    rewrite insert_insert_eq. reflexivity.
  - intros Hn. unfold openJournalWriter, fsAbs, fsStat. rewrite !Hw, Hn. reflexivity.
  - intros Hn. unfold openJournalWriter, fsAbs, fsStat. rewrite !Hw, Hn. reflexivity.
Qed.

(** C8 fails as stated: on a directory, [create] reports that the
    journal file already exists, not that a directory was found. *)
Lemma create_on_directory_says_exists :
  fsStat Demo.dirWorld "/j" = Ok true /\
  createJournalWriter Demo.dirWorld "/j" = (Err ErrAlreadyExists, Demo.dirWorld) /\
  createJournalWriter Demo.dirWorld "/j" <> (Err ErrFoundDirectory, Demo.dirWorld).
Proof.
  assert (Hc : createJournalWriter Demo.dirWorld "/j" = (Err ErrAlreadyExists, Demo.dirWorld))
    by reflexivity.
  split; [reflexivity|]. split; [exact Hc|]. rewrite Hc. discriminate.
Qed.

Lemma create_and_open_witness :
  createJournalWriter Demo.dirWorld "/j" = (Err ErrAlreadyExists, Demo.dirWorld) /\
  openJournalWriter Demo.dirWorld "/j" = (None, true, Some ErrFoundDirectory) /\
  createJournalWriter Demo.emptyWorld "/j"
  = (Ok (newJournalWriter (zeroFilled (hfault Demo.emptyWorld)) "/j"),
     set_node Demo.emptyWorld "/j"
       (RegularFile (replicate (Z.to_nat chunkJournalFileSize) x00))) /\
  openJournalWriter Demo.emptyWorld "/j" = (None, false, None).
Proof.
  assert (Hd : forall c, wfault Demo.dirWorld c = None) by reflexivity.
  assert (He : forall c, wfault Demo.emptyWorld c = None) by reflexivity.
  destruct (create_and_open Demo.dirWorld "/j" Hd) as (Hc1 & _ & _ & Ho1).
  destruct (create_and_open Demo.emptyWorld "/j" He) as (_ & Hc2 & Ho2 & _).
  split; [apply Hc1; eexists; reflexivity|].
  split; [apply Ho1; reflexivity|].
  split; [apply Hc2; reflexivity|].
  apply Ho2; reflexivity.
Defined.

Section Claim9.
Context {codec : RecordCodec}.

(** C9.  Over every sequence of calls on a writer, [off] never decreases
    and neither does the logical end [off + len(buf)]; the buffer either
    keeps its contents at the same [off] or was written to the file at
    [off] while [off] moved past it.  A successful flush advances [off]
    by exactly the bytes it empties from the buffer and so keeps the
    logical end; a failed flush changes neither [off] nor the buffer.  A
    successful reservation of [n] bytes, and so a written record, moves
    the logical end by exactly that length. *)
Theorem off_never_decreases (cs : list call) (wr : journalWriter) :
  isInt64 (off wr) ->
  (off wr <= off (run cs wr) /\ logicalEnd wr <= logicalEnd (run cs wr)) /\
  ((off (run cs wr) = off wr /\
    elems (buf wr) `prefix_of` elems (buf (run cs wr))) \/
   (logicalEnd wr <= off (run cs wr) /\
    exists extra,
      SysWriteAt (elems (buf wr) ++ extra) (off wr) ∈ flog (file (run cs wr)))) /\
  (forall r wr1, flush wr = (r, wr1) ->
     match r with
     | Ret _ => off wr1 = off wr + len (buf wr) /\ len (buf wr1) = 0 /\
                logicalEnd wr1 = logicalEnd wr
     | Fail _ => off wr1 = off wr /\ buf wr1 = buf wr
     | Panic => False
     end) /\
  (forall n i wr1, getBytes n wr = (Ret i, wr1) ->
     logicalEnd wr1 = logicalEnd wr + n) /\
  (forall cc u wr1, WriteChunk cc wr = (Ret u, wr1) ->
     logicalEnd wr1 = logicalEnd wr + (chunkRecordSize cc).1) /\
  (forall root u wr1, WriteRootHash root wr = (Ret u, wr1) ->
     logicalEnd wr1 = logicalEnd wr + rootHashRecordSize).
Proof.
  intros Hoff. pose proof (advances_run cs wr Hoff) as Ha.
  split; [split; [eapply advances_off|eapply advances_end]; eassumption|].
  split; [apply Ha|].
  split.
  { intros [u|e|] wr1 Hf.
    - apply flush_Ret in Hf as (-> & _ & _); [|assumption].
      unfold logicalEnd; simpl. change (len (reslice (buf wr) 0)) with 0.
      repeat split; lia.
    - apply flush_Fail in Hf as ->. split; reflexivity.
    - exact (flush_not_Panic _ _ Hf). }
  split.
  { intros n i wr1 Hg. apply getBytes_Ret in Hg; [|assumption]. apply Hg. }
  split.
  { intros cc u wr1 Hw. apply WriteChunk_Ret in Hw; [|assumption]. apply Hw. }
  intros root u wr1 Hw.
  apply WriteRootHash_Ret in Hw as (front & stale & _ & Hl & Ho & _); [|assumption].
  unfold logicalEnd at 1. lia.
Qed.

End Claim9.

Section Claim9Witness.
#[local] Existing Instance Demo.codec.

Lemma off_never_decreases_witness :
  let cs := [CallWriteChunk Demo.cc1; CallWriteChunk Demo.cc2; CallWriteRootHash 5%N] in
  isInt64 (off Demo.fresh) /\
  off Demo.fresh <= off (run cs Demo.fresh) /\
  logicalEnd Demo.fresh <= logicalEnd (run cs Demo.fresh).
Proof.
  intros cs.
  assert (Hoff : isInt64 (off Demo.fresh))
    by (unfold isInt64, minInt64, maxInt64; simpl; lia).
  split; [exact Hoff|].
  exact (proj1 (off_never_decreases cs Demo.fresh Hoff)).
Defined.

End Claim9Witness.

Section Claim10.
Context {codec : RecordCodec}.

(** C10.  For an address that the index does not hold, [getCompressed]
    returns the zero [CompressedChunk] and a nil error. *)
Theorem getCompressed_absent (h : addr) (wr : journalWriter) :
  lookups wr !! h = None -> getCompressed h wr = Ret zeroCompressedChunk.
Proof. intros Hl. unfold getCompressed. rewrite Hl. reflexivity. Qed.

End Claim10.

Section Claim10Witness.
#[local] Existing Instance Demo.codec.

Lemma getCompressed_absent_witness :
  lookups Demo.fresh !! 7%N = None /\
  getCompressed 7%N Demo.fresh = Ret zeroCompressedChunk.
Proof.
  split; [reflexivity|]. apply getCompressed_absent. reflexivity.
Defined.

End Claim10Witness.

(** * Further properties of the writer *)

(** ** Reads inside the journal *)

Lemma copy_long_src (dst src : list byte) :
  (length dst <= length src)%nat ->
  copy dst src = (take (length dst) src, blen dst).
Proof.
  intros Hle. unfold copy, blen. f_equal.
  - rewrite take_app_le by lia. reflexivity.
  - lia.
Qed.

Lemma blen_journalBytes (wr : journalWriter) :
  inFile wr -> blen (journalBytes wr) = logicalEnd wr.
Proof.
  intros [Ho _]. unfold journalBytes, logicalEnd, len.
  rewrite blen_app. f_equal. unfold blen in *. rewrite length_take. lia.
Qed.

Lemma ReadAt_inside (wr : journalWriter) (p : list byte) (o : Z) :
  inFile wr -> readable (file wr) ->
  isInt64 o -> 0 <= o -> o + blen p <= logicalEnd wr ->
  ReadAt wr p o =
    ReadRet (take (length p) (drop (Z.to_nat o) (journalBytes wr))) (blen p) None.
Proof.
  intros [Hfile Hmax] [Hc Hf] Hio Ho Hin.
  pose proof (len_nonneg (buf wr)) as Hl. pose proof (blen_nonneg p) as Hp.
  unfold logicalEnd in *. unfold ReadAt, journalBytes.
  destruct (o <? off wr) eqn:Hlt; zbool.
  - rewrite int64_id by (unfold isInt64, minInt64, maxInt64 in *; lia).
    destruct (off wr - o <? 0) eqn:Hneg; zbool; [lia|]. rewrite andb_false_r.
    destruct (off wr - o <? blen p) eqn:Hs; zbool.
    + (* straddled *)
      assert (Hp1 : blen (take (Z.to_nat (off wr - o)) p) = off wr - o)
        by (unfold blen in *; rewrite length_take; lia).
      rewrite Hp1, osReadAt_ok by (auto; lia).
      set (d := take (Z.to_nat (off wr - o)) (drop (Z.to_nat o) (fdata (file wr)))).
      assert (Hd : blen d = off wr - o)
        by (subst d; unfold blen in *; rewrite length_take, length_drop; lia).
      rewrite copy_exact by (unfold blen in *; lia).
      change (Z.to_nat 0) with 0%nat. rewrite drop_0.
      rewrite copy_long_src
        by (unfold len, blen in *; rewrite length_drop; lia).
      f_equal.
      * rewrite drop_app_le by (unfold blen in *; rewrite length_take; lia).
        rewrite take_app_ge
          by (unfold blen in *; rewrite length_drop, length_take; lia).
        f_equal.
        -- subst d. rewrite take_drop_commute. f_equal. f_equal. lia.
        -- f_equal. unfold blen in *. rewrite !length_drop, length_take. lia.
      * unfold blen in *. rewrite length_drop. lia.
    + (* all of it from the file *)
      rewrite osReadAt_ok by (auto; lia).
      assert (Hd : length (take (Z.to_nat (blen p))
                             (drop (Z.to_nat o) (fdata (file wr)))) = length p)
        by (unfold blen in *; rewrite length_take, length_drop; lia).
      rewrite copy_exact by assumption.
      unfold copy. cbn [length take fst]. rewrite app_nil_r.
      f_equal.
      * rewrite drop_app_le by (unfold blen in *; rewrite length_take; lia).
        rewrite take_app_le
          by (unfold blen in *; rewrite length_drop, length_take; lia).
        unfold blen. rewrite Nat2Z.id.
        rewrite (take_drop_commute (take _ _)), take_take.
        rewrite Nat.min_l by (unfold blen in *; lia).
        rewrite take_drop_commute. reflexivity.
      * unfold blen at 1. rewrite Hd. unfold blen. simpl length. lia.
  - rewrite int64_id by (unfold isInt64, minInt64, maxInt64 in *; lia).
    destruct (o - off wr <? 0) eqn:Hneg; zbool; [lia|].
    destruct (len (buf wr) <? o - off wr) eqn:Hbig; zbool; [lia|]. simpl orb. cbv iota.
    rewrite copy_long_src
      by (unfold len, blen in *; rewrite length_drop; lia).
    f_equal. rewrite drop_app_ge by (unfold blen in *; rewrite length_take; lia).
    f_equal. f_equal. unfold blen in *. rewrite length_take. lia.
Qed.

(** ** The journal grows at its end *)

Lemma pwrite_inside (d b : list byte) (o : Z) :
  0 <= o <= blen d ->
  pwrite d o b = take (Z.to_nat o) d ++ b ++ drop (Z.to_nat o + length b) d.
Proof.
  intros Ho. unfold pwrite. rewrite take_app_le by (unfold blen in *; lia).
  reflexivity.
Qed.

(** After a successful [WriteAt(b, o)] inside the file, the file holds
    what it held below [o], then [b]. *)
Lemma written_prefix (f : osFile) (b : list byte) (o : Z) :
  0 <= o <= blen (fdata f) ->
  take (Z.to_nat (o + blen b)) (fdata (written f b o)) = take (Z.to_nat o) (fdata f) ++ b
  /\ o + blen b <= blen (fdata (written f b o)).
Proof.
  intros Ho. unfold written. cbn [fdata].
  destruct (blen b =? 0) eqn:Hb; zbool.
  - assert (Hnil : b = []) by (destruct b; [reflexivity|unfold blen in Hb; simpl in Hb; lia]).
    subst b. rewrite app_nil_r, Z.add_0_r. split; [reflexivity|lia].
  - rewrite pwrite_inside by assumption. split.
    + rewrite app_assoc, take_app_length'; [reflexivity|].
      rewrite length_app, length_take. unfold blen in *. lia.
    + rewrite !blen_app. unfold blen in *. rewrite length_take, length_drop. lia.
Qed.

Lemma flush_journal (wr wr' : journalWriter) (u : unit) :
  inFile wr -> flush wr = (Ret u, wr') ->
  inFile wr' /\ journalBytes wr' = journalBytes wr /\
  take (Z.to_nat (off wr')) (fdata (file wr')) = journalBytes wr /\
  elems (buf wr') = [] /\ off wr' = logicalEnd wr.
Proof.
  intros [Hfile Hmax] Hf.
  apply flush_Ret in Hf as (-> & _ & Hm);
    [|unfold isInt64, minInt64 in *; lia].
  destruct (written_prefix (file wr) (elems (buf wr)) (off wr) Hfile) as [Ht Hlen].
  pose proof (len_nonneg (buf wr)) as Hl.
  unfold inFile, journalBytes, logicalEnd, len in *. cbn [off file buf elems reslice take].
  rewrite app_nil_r, Ht. repeat split; try reflexivity; lia.
Qed.

Lemma flush_failed_journal (wr wr' : journalWriter) (e : error) :
  flush wr = (Fail e, wr') ->
  journalBytes wr' = journalBytes wr /\ off wr' = off wr /\ buf wr' = buf wr /\
  fdata (file wr') = fdata (file wr) /\ lookups wr' = lookups wr.
Proof. intros Hf. apply flush_Fail in Hf as ->. repeat split. Qed.

Lemma grows_refl (wr : journalWriter) : inFile wr -> grows wr wr.
Proof. intros Hi. split; [assumption|reflexivity]. Qed.

Lemma grows_trans (a b c : journalWriter) : grows a b -> grows b c -> grows a c.
Proof. intros [_ Hab] [Hc Hbc]. split; [assumption|etransitivity; eassumption]. Qed.

(** Only the data of the file, [off] and the cells of the buffer matter. *)
Lemma grows_same (wr wr' : journalWriter) :
  inFile wr -> off wr' = off wr -> elems (buf wr') = elems (buf wr) ->
  fdata (file wr') = fdata (file wr) -> grows wr wr'.
Proof.
  intros Hi Ho Hb Hf. unfold grows, inFile, journalBytes in *.
  rewrite Ho, Hb, Hf. split; [assumption|reflexivity].
Qed.

Lemma grows_flush (wr wr' : journalWriter) (r : outcome unit) :
  inFile wr -> flush wr = (r, wr') -> grows wr wr' /\ journalBytes wr' = journalBytes wr.
Proof.
  intros Hi Hf. destruct r as [u|e|].
  - apply flush_journal in Hf as (Hi' & Hj & _); [|assumption].
    split; [split; [assumption|rewrite Hj; reflexivity]|assumption].
  - apply flush_failed_journal in Hf as (Hj & Ho & Hb & Hd & _).
    split; [apply grows_same; congruence|assumption].
  - exfalso. exact (flush_not_Panic _ _ Hf).
Qed.

(** Reserving [n] bytes and filling them with [bs] puts the record at
    the end of the journal. *)
Lemma reserved_journal (n i : Z) (bs : list byte) (wr wr1 wr2 : journalWriter) :
  inFile wr -> 0 <= n ->
  getBytes n wr = (Ret i, wr1) ->
  off wr2 = off wr1 -> buf wr2 = store (buf wr1) i n bs -> file wr2 = file wr1 ->
  inFile wr2 /\
  blen (view (buf wr1) i n) = n /\
  journalBytes wr2 = journalBytes wr ++ (copy (view (buf wr1) i n) bs).1.
Proof.
  intros Hi Hn Hg Ho2 Hb2 Hf2.
  assert (Hoff : isInt64 (off wr))
    by (destruct Hi as [? ?]; unfold isInt64, minInt64; lia).
  pose proof (len_nonneg (buf wr)) as Hl.
  pose proof (getBytes_Ret _ _ _ _ Hoff Hg)
    as (_ & _ & Hin & _ & _ & Hcase & _).
  assert (H0i : 0 <= i) by (destruct Hcase as [(_ & -> & _)|(_ & -> & _)]; lia).
  split; [|split].
  - destruct Hcase as [(Ho & _ & Hf & _)|(Ho & _ & _ & Hf & _)].
    + unfold inFile in *. rewrite Ho2, Hf2, Ho, Hf. assumption.
    + destruct Hi as [Hfile Hmax].
      destruct (written_prefix (file wr) (elems (buf wr)) (off wr) Hfile) as [_ Hlen].
      assert (Hm : off wr + len (buf wr) <= maxInt64).
      { pose proof (getBytes_Ret _ _ _ _ Hoff Hg) as (_ & _ & _ & _ & _ & _ & _ & _ & _ & Hi64).
        rewrite Ho in Hi64. unfold isInt64 in Hi64. lia. }
      unfold inFile, len in *. rewrite Ho2, Hf2, Ho, Hf. lia.
  - apply blen_view; lia.
  - unfold journalBytes. rewrite Ho2, Hb2, Hf2, elems_store_tail by lia.
    destruct Hcase as [(Ho & Hil & Hf & Hb)|(Ho & Hil & _ & Hf & Hb)].
    + rewrite Ho, Hf. rewrite <- app_assoc. f_equal. f_equal.
      rewrite Hb, elems_reslice_grow by assumption. subst i.
      unfold len, blen. rewrite Nat2Z.id, take_app_length. reflexivity.
    + destruct Hi as [Hfile Hmax].
      destruct (written_prefix (file wr) (elems (buf wr)) (off wr) Hfile) as [Ht _].
      rewrite Ho, Hf. unfold len. rewrite Ht. subst i. reflexivity.
Qed.

Lemma getBytes_failed (n : Z) (wr wr' : journalWriter) (e : error) :
  getBytes n wr = (Fail e, wr') ->
  journalBytes wr' = journalBytes wr /\ off wr' = off wr /\ buf wr' = buf wr /\
  fdata (file wr') = fdata (file wr) /\ lookups wr' = lookups wr.
Proof.
  intros Hg. apply getBytes_Fail in Hg as [->|Hf].
  - repeat split.
  - eapply flush_failed_journal; eassumption.
Qed.

Lemma getBytes_file_state (n i : Z) (wr wr' : journalWriter) :
  isInt64 (off wr) -> getBytes n wr = (Ret i, wr') ->
  fclosed (file wr') = fclosed (file wr) /\ ffault (file wr') = ffault (file wr).
Proof.
  intros Hoff Hg.
  apply getBytes_Ret in Hg as (_ & _ & _ & _ & _ & Hcase & _); [|assumption].
  destruct Hcase as [(_ & _ & -> & _)|(_ & _ & _ & -> & _)]; split; reflexivity.
Qed.

Lemma inFile_int64 (wr : journalWriter) : inFile wr -> isInt64 (off wr).
Proof. intros [? ?]. unfold isInt64, minInt64. lia. Qed.

Lemma osClose_data (f : osFile) : fdata (osClose f).2 = fdata f.
Proof. unfold osClose. destruct (fclosed f); reflexivity. Qed.

Section Growth.
Context {codec : RecordCodec}.

Lemma WriteChunk_journal (cc : CompressedChunk) (wr wr' : journalWriter) (u : unit) :
  inFile wr -> WriteChunk cc wr = (Ret u, wr') ->
  exists stale,
    blen stale = (chunkRecordSize cc).1 /\
    inFile wr' /\
    journalBytes wr' = journalBytes wr ++ (copy stale (writeChunkRecord stale cc)).1 /\
    fclosed (file wr') = fclosed (file wr) /\ ffault (file wr') = ffault (file wr).
Proof.
  intros Hi. unfold WriteChunk. pose proof (chunkRecordSize_nonneg cc) as Hn.
  destruct (chunkRecordSize cc) as [l o]; simpl in *.
  destruct (getBytes l wr) as [[i|e|] wr1] eqn:Hg; try discriminate.
  intros Heq; inversion Heq; subst wr'; clear Heq.
  exists (view (buf wr1) i l).
  destruct (reserved_journal l i (writeChunkRecord (view (buf wr1) i l) cc) wr wr1
              (set_lookups
                 (set_buf wr1 (store (buf wr1) i l
                    (writeChunkRecord (view (buf wr1) i l) cc)))
                 (<[H cc := mkRecLookup (offset wr) l o]> (lookups wr1)))
              Hi Hn Hg eq_refl eq_refl eq_refl) as (Hi' & Hv & Hj).
  split; [assumption|]. split; [assumption|]. split; [assumption|].
  apply (getBytes_file_state l i wr wr1); [apply inFile_int64|]; assumption.
Qed.

Lemma WriteChunk_failed (cc : CompressedChunk) (wr wr' : journalWriter) (e : error) :
  WriteChunk cc wr = (Fail e, wr') ->
  getBytes (chunkRecordSize cc).1 wr = (Fail e, wr').
Proof.
  unfold WriteChunk. destruct (chunkRecordSize cc) as [l o]; simpl.
  destruct (getBytes l wr) as [[i|e'|] wr1]; try discriminate.
  intros Heq; inversion Heq; reflexivity.
Qed.

Lemma grows_WriteChunk (cc : CompressedChunk) (wr : journalWriter) :
  inFile wr -> grows wr (WriteChunk cc wr).2.
Proof.
  intros Hi. destruct (WriteChunk cc wr) as [[u|e|] wr'] eqn:Hw; simpl.
  - apply WriteChunk_journal in Hw as (stale & _ & Hi' & Hj & _); [|assumption].
    split; [assumption|]. rewrite Hj. apply prefix_app_r. reflexivity.
  - apply WriteChunk_failed, getBytes_failed in Hw as (_ & Ho & Hb & Hd & _).
    apply grows_same; congruence.
  - exfalso. exact (WriteChunk_not_Panic _ _ _ Hw).
Qed.

Lemma WriteRootHash_reserved (root : addr) (wr : journalWriter) (r : outcome Z)
    (wr1 : journalWriter) :
  inFile wr -> getBytes rootHashRecordSize wr = (r, wr1) ->
  match r with
  | Ret i =>
      let stale := view (buf wr1) i rootHashRecordSize in
      let wr2 := set_buf wr1 (store (buf wr1) i rootHashRecordSize
                                (writeRootHashRecord stale root)) in
      blen stale = rootHashRecordSize /\ inFile wr2 /\
      journalBytes wr2 = journalBytes wr ++ (copy stale (writeRootHashRecord stale root)).1
  | Fail _ => grows wr wr1 /\ journalBytes wr1 = journalBytes wr
  | Panic => False
  end.
Proof.
  intros Hi Hg. pose proof rootHashRecordSize_nonneg as Hn.
  destruct r as [i|e|].
  - cbn zeta.
    destruct (reserved_journal rootHashRecordSize i
                (writeRootHashRecord (view (buf wr1) i rootHashRecordSize) root)
                wr wr1
                (set_buf wr1 (store (buf wr1) i rootHashRecordSize
                   (writeRootHashRecord (view (buf wr1) i rootHashRecordSize) root)))
                Hi Hn Hg eq_refl eq_refl eq_refl) as (Hi' & Hv & Hj).
    split; [assumption|split; assumption].
  - apply getBytes_failed in Hg as (Hj & Ho & Hb & Hd & _).
    split; [apply grows_same; congruence|assumption].
  - apply getBytes_Panic in Hg. lia.
Qed.

Lemma grows_WriteRootHash (root : addr) (wr : journalWriter) :
  inFile wr -> grows wr (WriteRootHash root wr).2.
Proof.
  intros Hi. unfold WriteRootHash.
  pose proof (WriteRootHash_reserved root wr) as Hres.
  destruct (getBytes rootHashRecordSize wr) as [[i|e|] wr1] eqn:Hg;
    specialize (Hres _ _ Hi eq_refl); simpl in Hres; try apply Hres; try contradiction.
  destruct Hres as (_ & Hi2 & Hj2).
  remember (set_buf wr1 _) as wr2 eqn:Hwr2. clear Hwr2.
  assert (G2 : grows wr wr2)
    by (split; [assumption|rewrite Hj2; apply prefix_app_r; reflexivity]).
  pose proof (grows_flush wr2) as Hfl.
  destruct (flush wr2) as [[u|e|] wr3] eqn:Hf;
    specialize (Hfl _ _ Hi2 eq_refl); destruct Hfl as [G3 _]; simpl;
    try (eapply grows_trans; eassumption).
  pose proof (osSync_file (file wr3)) as Hs.
  destruct (osSync (file wr3)) as [[e|] f]; simpl in *; subst f;
    (eapply grows_trans; [exact G2|]; eapply grows_trans; [exact G3|];
     apply grows_same; [apply G3|reflexivity|reflexivity|reflexivity]).
Qed.

Lemma grows_Snapshot (wr : journalWriter) :
  inFile wr -> grows wr (Snapshot wr).2.
Proof.
  intros Hi. unfold Snapshot. pose proof (grows_flush wr) as Hfl.
  destruct (flush wr) as [[u|e|] wr1]; specialize (Hfl _ _ Hi eq_refl);
    destruct Hfl as [G _]; simpl; try assumption.
  destruct (ffault (file wr1) SysOpen); assumption.
Qed.

Lemma grows_Close (wr : journalWriter) :
  inFile wr -> grows wr (Close wr).2.
Proof.
  intros Hi. unfold Close. pose proof (grows_flush wr) as Hfl.
  destruct (flush wr) as [[u|e|] wr1]; specialize (Hfl _ _ Hi eq_refl);
    destruct Hfl as [G _]; simpl; try assumption.
  pose proof (osSync_file (file wr1)) as Hs.
  destruct (osSync (file wr1)) as [serr f1]; simpl in Hs; subst f1.
  pose proof (osClose_data (logged SysSync (file wr1))) as Hc.
  destruct (osClose (logged SysSync (file wr1))) as [cerr f2]; simpl in Hc.
  eapply grows_trans; [exact G|].
  destruct cerr, serr; simpl;
    (apply grows_same; [apply G|reflexivity|reflexivity|exact Hc]).
Qed.

Lemma Write_journal (p : list byte) (wr wr' : journalWriter) (n : Z) :
  inFile wr -> Write p wr = (Ret n, wr') ->
  n = blen p /\ inFile wr' /\ journalBytes wr' = journalBytes wr ++ p.
Proof.
  intros Hi. unfold Write. pose proof (blen_nonneg p) as Hp.
  pose proof (len_nonneg (buf wr)) as Hl.
  destruct (len (buf wr) <? blen p) eqn:Hlen; zbool.
  - destruct (flush wr) as [[u|e|] wr1] eqn:Hf; try discriminate.
    apply flush_journal in Hf as ((Hfile1 & Hmax1) & Hj1 & Ht1 & Hel1 & _); [|assumption].
    destruct (osWriteAt_cases (file wr1) p (off wr1)) as [[e Hw]|(Hw & _ & Hb)];
      rewrite Hw; [discriminate|].
    intros Heq; inversion Heq; subst; clear Heq.
    assert (Hnz : blen p <> 0) by lia. apply Hb in Hnz as (Hm & _).
    destruct (written_prefix (file wr1) p (off wr1) Hfile1) as [Ht Hlen'].
    rewrite int64_id by (unfold isInt64, minInt64; lia).
    split; [reflexivity|]. split.
    + unfold inFile, set_off, set_file. cbn [off file]. lia.
    + unfold journalBytes, set_off, set_file. cbn [off file buf].
      rewrite Hel1, Ht, app_nil_r, Ht1. reflexivity.
  - destruct (getBytes (blen p) wr) as [[i|e|] wr1] eqn:Hg; try discriminate.
    intros Heq; inversion Heq; subst; clear Heq.
    destruct (reserved_journal (blen p) i p wr wr1
                (set_buf wr1 (store (buf wr1) i (blen p) p))
                Hi Hp Hg eq_refl eq_refl eq_refl) as (Hi' & Hv & Hj).
    assert (Hlenv : length p = length (view (buf wr1) i (blen p)))
      by (apply Nat2Z.inj; symmetry; exact Hv).
    split; [|split; [assumption|]].
    + unfold copy. simpl. unfold blen in *. lia.
    + rewrite Hj, copy_exact by assumption. reflexivity.
Qed.

Lemma grows_Write (p : list byte) (wr : journalWriter) :
  inFile wr -> grows wr (Write p wr).2.
Proof.
  intros Hi. destruct (Write p wr) as [[n|e|] wr'] eqn:Hw; simpl.
  - apply Write_journal in Hw as (_ & Hi' & Hj); [|assumption].
    split; [assumption|]. rewrite Hj. apply prefix_app_r. reflexivity.
  - unfold Write in Hw. pose proof (len_nonneg (buf wr)) as Hl.
    destruct (len (buf wr) <? blen p) eqn:Hlen; zbool.
    + pose proof (grows_flush wr) as Hfl.
      destruct (flush wr) as [[u|e'|] wr1] eqn:Hf;
        specialize (Hfl _ _ Hi eq_refl); destruct Hfl as [G _].
      * destruct (osWriteAt_cases (file wr1) p (off wr1)) as [[e' Hwa]|(Hwa & _)];
          rewrite Hwa in Hw; [|discriminate].
        inversion Hw; subst; clear Hw.
        eapply grows_trans; [exact G|].
        destruct G as [[Hf1 Hm1] _].
        apply grows_same; [split; assumption| |reflexivity|reflexivity].
        simpl. rewrite Z.add_0_r. apply int64_id. unfold isInt64, minInt64. lia.
      * inversion Hw; subst. assumption.
      * discriminate.
    + destruct (getBytes (blen p) wr) as [[i|e'|] wr1] eqn:Hg; try discriminate.
      inversion Hw; subst; clear Hw.
      apply getBytes_failed in Hg as (_ & Ho & Hb & Hd & _).
      apply grows_same; congruence.
  - unfold Write in Hw. exfalso.
    destruct (len (buf wr) <? blen p).
    + destruct (flush wr) as [[u|e'|] wr1] eqn:Hf; try discriminate.
      * destruct (osWriteAt (file wr1) p (off wr1)) as [[n err] f].
        destruct err; discriminate.
      * exact (flush_not_Panic _ _ Hf).
    + destruct (getBytes (blen p) wr) as [[i|e'|] wr1] eqn:Hg; try discriminate.
      apply getBytes_Panic in Hg. pose proof (blen_nonneg p). lia.
Qed.

Lemma grows_exec (c : call) (wr : journalWriter) :
  inFile wr -> grows wr (exec c wr).
Proof.
  intros Hi. destruct c; simpl.
  - apply grows_WriteChunk; assumption.
  - apply grows_WriteRootHash; assumption.
  - apply grows_Write; assumption.
  - apply grows_Snapshot; assumption.
  - apply grows_Close; assumption.
  - apply grows_same; auto.
Qed.

Lemma grows_run (cs : list call) (wr : journalWriter) :
  inFile wr -> grows wr (run cs wr).
Proof.
  revert wr. induction cs as [|c cs IH]; intros wr Hi; simpl.
  - apply grows_refl; assumption.
  - pose proof (grows_exec c wr Hi) as Hc.
    eapply grows_trans; [exact Hc|]. apply IH. apply Hc.
Qed.

End Growth.

(** ** The durability barrier *)

Lemma never_in (l : list syscall) :
  Forall (fun c => c <> SysSync) l -> SysSync ∉ l.
Proof. intros Hall Hin. rewrite Forall_forall in Hall. exact (Hall _ Hin eq_refl). Qed.

Lemma reservation_never_syncs (n : Z) (wr : journalWriter) :
  Forall (fun c => c <> SysSync) (reservationLog n wr).
Proof. unfold reservationLog. case_match; repeat constructor; discriminate. Qed.

(** The cells in front of the reserved ones hold what was buffered, or
    nothing when the reservation flushed first. *)
Lemma reserved_front (n i : Z) (wr wr1 : journalWriter) :
  isInt64 (off wr) -> 0 <= n ->
  getBytes n wr = (Ret i, wr1) ->
  take (Z.to_nat i) (elems (buf wr1)) = bufferedBefore n wr.
Proof.
  intros Hoff Hn Hg. unfold bufferedBefore.
  pose proof (len_nonneg (buf wr)) as Hl.
  destruct (cap (buf wr) - len (buf wr) <? n) eqn:Hr; zbool.
  - destruct (Z_lt_dec (cap (buf wr)) n) as [Hbig|Hbig].
    + rewrite getBytes_oversize in Hg by assumption. discriminate.
    + rewrite getBytes_flush_first in Hg by (assumption || lia).
      destruct (flush wr) as [[u|e|] wr2]; try discriminate.
      inversion Hg; subst. reflexivity.
  - rewrite getBytes_fits in Hg by lia. inversion Hg; subst. cbn [buf set_buf].
    rewrite elems_reslice_grow by assumption.
    unfold len, blen. rewrite Nat2Z.id. apply take_app_length.
Qed.

Section Barrier.
Context {codec : RecordCodec}.

Lemma WriteRootHash_done (root : addr) (wr wr' : journalWriter) (u : unit) :
  inFile wr ->
  WriteRootHash root wr = (Ret u, wr') ->
  exists stale,
    let record := (copy stale (writeRootHashRecord stale root)).1 in
    let b := bufferedBefore rootHashRecordSize wr ++ record in
    blen stale = rootHashRecordSize /\
    elems (buf wr') = [] /\
    off wr' = logicalEnd wr + rootHashRecordSize /\
    flog (file wr')
    = flog (file wr) ++ reservationLog rootHashRecordSize wr
        ++ [SysWriteAt b (off wr' - blen b); SysSync] /\
    take (Z.to_nat (off wr')) (fdata (file wr')) = journalBytes wr ++ record /\
    lookups wr' = lookups wr /\
    fclosed (file wr') = false /\ inFile wr'.
Proof.
  intros Hi. pose proof (inFile_int64 _ Hi) as Hoff. unfold WriteRootHash.
  pose proof rootHashRecordSize_nonneg as Hn.
  pose proof (getBytes_log rootHashRecordSize wr) as Hlog.
  pose proof (WriteRootHash_reserved root wr) as Hres.
  destruct (getBytes rootHashRecordSize wr) as [[i|e|] wr1] eqn:Hg; try discriminate.
  simpl in Hlog.
  specialize (Hres _ _ Hi eq_refl). cbn zeta in Hres.
  destruct Hres as (Hs & Hi2 & Hj2).
  pose proof (reserved_front _ _ _ _ Hoff Hn Hg) as Hfront.
  pose proof Hg as Hg'.
  apply getBytes_Ret in Hg' as (_ & Hend & Hin & _ & _ & Hcase & Hlk & _);
    [|assumption].
  assert (Hi0 : 0 <= i).
  { pose proof (len_nonneg (buf wr)).
    destruct Hcase as [(_ & -> & _)|(_ & -> & _)]; lia. }
  set (stale := view (buf wr1) i rootHashRecordSize) in *.
  remember (set_buf wr1 (store (buf wr1) i rootHashRecordSize
                           (writeRootHashRecord stale root))) as wr2 eqn:Hwr2.
  assert (Ho2 : off wr2 = off wr1) by (subst wr2; reflexivity).
  assert (Hf2 : file wr2 = file wr1) by (subst wr2; reflexivity).
  assert (Hlk2 : lookups wr2 = lookups wr) by (subst wr2; exact Hlk).
  assert (Hb : elems (buf wr2)
               = bufferedBefore rootHashRecordSize wr
                   ++ (copy stale (writeRootHashRecord stale root)).1).
  { subst wr2. cbn [buf set_buf]. rewrite elems_store_tail by assumption.
    rewrite Hfront. reflexivity. }
  assert (Hlen : len (buf wr2) = len (buf wr1)).
  { subst wr2. cbn [buf set_buf]. apply len_store; lia. }
  clear Hwr2 Hg.
  destruct (flush wr2) as [[u'|e|] wr3] eqn:Hf; try discriminate.
  pose proof (flush_journal _ _ _ Hi2 Hf) as (Hi3 & _ & Ht3 & Hel3 & Ho3).
  pose proof (flush_log wr2) as Hl3. rewrite Hf in Hl3. cbn [snd] in Hl3.
  assert (Hlk3 : lookups wr3 = lookups wr2).
  { apply flush_Ret in Hf as (-> & _); [reflexivity|apply inFile_int64; assumption]. }
  unfold osSync.
  destruct (fclosed (file wr3)) eqn:Hcl; [discriminate|].
  destruct (ffault (file wr3) SysSync) eqn:Hsy; [discriminate|].
  intros Heq; inversion Heq; subst wr'; clear Heq.
  exists stale. cbn zeta.
  unfold set_file, logged. cbn [file off buf flog fdata fclosed lookups].
  split; [assumption|]. split; [assumption|].
  split; [rewrite Ho3; unfold logicalEnd in *; lia|].
  split.
  { rewrite Hl3, Hf2, Hlog, <- Hb, <- !app_assoc.
    replace (off wr3 - blen (elems (buf wr2))) with (off wr2)
      by (rewrite Ho3; unfold logicalEnd, len; lia).
    reflexivity. }
  split; [rewrite Ht3; exact Hj2|].
  split; [rewrite Hlk3; exact Hlk2|].
  split; [exact Hcl|].
  exact Hi3.
Qed.

(** The system calls a call makes: only [WriteRootHash] and [Close] call
    [Sync], and [Close] leaves the file closed. *)
Lemma exec_syncs (c : call) (wr : journalWriter) :
  exists l,
    flog (file (exec c wr)) = flog (file wr) ++ l /\
    (SysSync ∈ l ->
     (exists root, c = CallWriteRootHash root) \/
     (c = CallClose /\ fclosed (file (exec c wr)) = true)).
Proof.
  destruct c as [cc|root|p| | |flt]; cbn [exec].
  - exists (reservationLog (chunkRecordSize cc).1 wr).
    split; [apply WriteChunk_log|].
    intros Hin. destruct (never_in _ (reservation_never_syncs _ wr) Hin).
  - assert (Hl : flog (file wr) `prefix_of` flog (file (WriteRootHash root wr).2)).
    { unfold WriteRootHash.
      pose proof (getBytes_log rootHashRecordSize wr) as Hlog.
      destruct (getBytes rootHashRecordSize wr) as [[i|e|] wr1]; cbn [snd] in *;
        try (rewrite Hlog; apply prefix_app_r; reflexivity).
      match goal with |- context [flush ?w] =>
        pose proof (flush_log w) as Hl2; destruct (flush w) as [[u|e|] wr3] end;
        cbn [snd file set_buf] in *;
        try (rewrite Hl2, Hlog, <- app_assoc; apply prefix_app_r; reflexivity).
      pose proof (osSync_file (file wr3)) as Hsy.
      destruct (osSync (file wr3)) as [[e|] f]; cbn [snd fst] in *; subst f;
        cbn [file set_file logged flog];
        rewrite Hl2, Hlog, <- !app_assoc; apply prefix_app_r; reflexivity. }
    destruct Hl as [l Hl]. exists l. split; [exact Hl|].
    intros _. left. exists root. reflexivity.
  - unfold Write. destruct (len (buf wr) <? blen p).
    + pose proof (flush_log wr) as Hl.
      destruct (flush wr) as [[u|e|] wr1]; cbn [snd] in *.
      * pose proof (osWriteAt_log (file wr1) p (off wr1)) as Hl2.
        destruct (osWriteAt (file wr1) p (off wr1)) as [[n err] f]. cbn [snd] in Hl2.
        exists [SysWriteAt (elems (buf wr)) (off wr); SysWriteAt p (off wr1)].
        split.
        { destruct err; cbn [snd file set_off set_file];
            rewrite Hl2, Hl, <- app_assoc; reflexivity. }
        intros Hin. exfalso. revert Hin. apply never_in.
        repeat constructor; discriminate.
      * exists [SysWriteAt (elems (buf wr)) (off wr)]. split; [exact Hl|].
        intros Hin. exfalso. revert Hin. apply never_in.
        repeat constructor; discriminate.
      * exists [SysWriteAt (elems (buf wr)) (off wr)]. split; [exact Hl|].
        intros Hin. exfalso. revert Hin. apply never_in.
        repeat constructor; discriminate.
    + pose proof (getBytes_log (blen p) wr) as Hl.
      exists (reservationLog (blen p) wr). split.
      { destruct (getBytes (blen p) wr) as [[i|e|] wr1]; cbn [snd] in *; exact Hl. }
      intros Hin. destruct (never_in _ (reservation_never_syncs _ wr) Hin).
  - unfold Snapshot. pose proof (flush_log wr) as Hl.
    exists [SysWriteAt (elems (buf wr)) (off wr)]. split.
    { destruct (flush wr) as [[u|e|] wr1]; cbn [snd] in *; try exact Hl.
      destruct (ffault (file wr1) SysOpen); exact Hl. }
    intros Hin. exfalso. revert Hin. apply never_in.
    repeat constructor; discriminate.
  - unfold Close. pose proof (flush_log wr) as Hl.
    destruct (flush wr) as [[u|e|] wr1]; cbn [snd] in *.
    + exists [SysWriteAt (elems (buf wr)) (off wr); SysSync; SysClose].
      unfold osSync, osClose, logged. cbn [fclosed ffault fdata fpos flog].
      destruct (fclosed (file wr1)) eqn:Hc;
        cbn [fclosed ffault fdata fpos flog].
      * cbn [snd file set_file flog fclosed].
        split; [rewrite Hl, <- !app_assoc; reflexivity|].
        intros _. right. split; reflexivity.
      * destruct (ffault (file wr1) SysClose), (ffault (file wr1) SysSync);
          cbn [snd file set_file flog fclosed];
          (split; [rewrite Hl, <- !app_assoc; reflexivity|]);
          intros _; right; split; reflexivity.
    + exists [SysWriteAt (elems (buf wr)) (off wr)]. split; [exact Hl|].
      intros Hin. exfalso. revert Hin. apply never_in.
      repeat constructor; discriminate.
    + exists [SysWriteAt (elems (buf wr)) (off wr)]. split; [exact Hl|].
      intros Hin. exfalso. revert Hin. apply never_in.
      repeat constructor; discriminate.
  - exists []. split; [rewrite app_nil_r; reflexivity|].
    intros Hin. destruct (not_elem_of_nil _ Hin).
Qed.

(** C6.  A [WriteRootHash] that returns without error has reserved the
    record, written the whole buffer to the file at [off], what was
    buffered before followed by the record, and called [Sync] last: the
    buffer is empty, [off] is the former logical end plus the record
    length, and the first [off] bytes of the file are the journal there
    was, every buffered chunk record included, followed by the record.
    [WriteChunk] makes no system call but the [WriteAt] of a reservation
    that does not fit the room left: it never calls [Sync]; on success it
    has appended the record the codec serializes to the journal, moved
    the logical end by the record length and inserted the lookup entry.
    Of all the calls, only [WriteRootHash] and [Close] call [Sync], and
    [Close] leaves the file closed: on a journal that stays open,
    [WriteRootHash] is the only barrier. *)
Theorem root_hash_is_the_barrier (wr : journalWriter) :
  inFile wr ->
  (forall root u wr', WriteRootHash root wr = (Ret u, wr') ->
     exists stale,
       let record := (copy stale (writeRootHashRecord stale root)).1 in
       let b := bufferedBefore rootHashRecordSize wr ++ record in
       blen stale = rootHashRecordSize /\
       elems (buf wr') = [] /\
       off wr' = logicalEnd wr + rootHashRecordSize /\
       flog (file wr')
       = flog (file wr) ++ reservationLog rootHashRecordSize wr
           ++ [SysWriteAt b (off wr' - blen b); SysSync] /\
       take (Z.to_nat (off wr')) (fdata (file wr')) = journalBytes wr ++ record /\
       lookups wr' = lookups wr /\
       fclosed (file wr') = false /\ inFile wr') /\
  (forall cc,
     flog (file (WriteChunk cc wr).2)
     = flog (file wr) ++ reservationLog (chunkRecordSize cc).1 wr /\
     (SysSync ∉ reservationLog (chunkRecordSize cc).1 wr) /\
     forall u wr', WriteChunk cc wr = (Ret u, wr') ->
       exists stale,
         blen stale = (chunkRecordSize cc).1 /\
         journalBytes wr'
         = journalBytes wr ++ (copy stale (writeChunkRecord stale cc)).1 /\
         logicalEnd wr' = logicalEnd wr + (chunkRecordSize cc).1 /\
         lookups wr' =
           <[H cc := mkRecLookup (offset wr) (chunkRecordSize cc).1
                       (chunkRecordSize cc).2]> (lookups wr)) /\
  (forall c, exists l,
     flog (file (exec c wr)) = flog (file wr) ++ l /\
     (SysSync ∈ l ->
      (exists root, c = CallWriteRootHash root) \/
      (c = CallClose /\ fclosed (file (exec c wr)) = true))).
Proof.
  intros Hi. pose proof (inFile_int64 _ Hi) as Hoff. split; [|split].
  - intros root u wr' Hw. eapply WriteRootHash_done; eassumption.
  - intros cc. split; [apply WriteChunk_log|]. split.
    + apply never_in, reservation_never_syncs.
    + intros u wr' Hw.
      destruct (WriteChunk_journal _ _ _ _ Hi Hw) as (stale & Hs & _ & Hj & _).
      apply WriteChunk_Ret in Hw as (Hend & Hl & _); [|assumption].
      exists stale. repeat split; assumption.
  - intros c. apply exec_syncs.
Qed.

End Barrier.

Section Claim6Witness.
#[local] Existing Instance Demo.codec.

Lemma root_hash_is_the_barrier_witness :
  let wr := (WriteChunk Demo.cc1 Demo.fresh).2 in
  inFile wr /\
  flog (file (WriteChunk Demo.cc2 wr).2)
  = flog (file wr) ++ reservationLog (chunkRecordSize Demo.cc2).1 wr /\
  exists wr' stale,
    WriteRootHash 5%N wr = (Ret tt, wr') /\
    elems (buf wr') = [] /\ off wr' = logicalEnd wr + rootHashRecordSize /\
    take (Z.to_nat (off wr')) (fdata (file wr'))
    = journalBytes wr ++ (copy stale (writeRootHashRecord stale 5%N)).1.
Proof.
  intros wr.
  assert (Hi : inFile wr).
  { vm_compute. repeat split; try discriminate; reflexivity. }
  destruct (root_hash_is_the_barrier wr Hi) as (Hroot & Hchunk & _).
  split; [exact Hi|]. split; [apply (Hchunk Demo.cc2)|].
  assert (Hw : WriteRootHash 5%N wr = (Ret tt, (WriteRootHash 5%N wr).2))
    by (vm_compute; reflexivity).
  destruct (Hroot _ _ _ Hw) as (stale & _ & Hel & Ho & _ & Ht & _).
  exists (WriteRootHash 5%N wr).2, stale.
  split; [exact Hw|]. split; [exact Hel|]. split; [exact Ho|exact Ht].
Defined.

End Claim6Witness.

(** ** Reads, flushes and writes on the journal as a sequence of bytes *)

(** X1.  A read that lies inside the journal, [0 <= o] and
    [o + len(p) <= off + len(buf)], fills all of [p] with the journal
    bytes from [o] and returns [len(p)] and no error, whether the bytes
    are in the file, in the buffer or straddle the two. *)
Theorem ReadAt_reads_the_journal (wr : journalWriter) (p : list byte) (o : Z) :
  inFile wr -> readable (file wr) ->
  isInt64 o -> 0 <= o -> o + blen p <= logicalEnd wr ->
  ReadAt wr p o =
    ReadRet (take (length p) (drop (Z.to_nat o) (journalBytes wr))) (blen p) None.
Proof. apply ReadAt_inside. Qed.

(** X2.  A flush that succeeds leaves the journal bytes as they were and
    moves them all to the file: the buffer is empty, [off] is the former
    logical end and the first [off] bytes of the file are the journal.
    A flush that fails leaves [off], the buffer and the index as they
    were, so the journal, the file below [off] followed by the buffer,
    is unchanged and nothing of it is lost; what the file holds from
    [off] on after the failed write is not stated.  A flush does not
    panic. *)
Theorem flush_moves_the_buffer_to_the_file (wr : journalWriter) :
  inFile wr ->
  match flush wr with
  | (Ret _, wr') =>
      journalBytes wr' = journalBytes wr /\
      take (Z.to_nat (off wr')) (fdata (file wr')) = journalBytes wr /\
      elems (buf wr') = [] /\ off wr' = logicalEnd wr /\ inFile wr'
  | (Fail _, wr') =>
      off wr' = off wr /\ buf wr' = buf wr /\ lookups wr' = lookups wr /\
      journalBytes wr' = journalBytes wr /\ inFile wr'
  | (Panic, _) => False
  end.
Proof.
  intros Hi. destruct (flush wr) as [[u|e|] wr'] eqn:Hf.
  - apply flush_journal in Hf as (? & ? & ? & ? & ?); auto.
  - apply flush_failed_journal in Hf as (Hj & Ho & Hb & Hd & Hl).
    repeat (split; [assumption|]).
    unfold inFile in *. rewrite Ho, Hd. exact Hi.
  - exact (flush_not_Panic _ _ Hf).
Qed.

Section Extras1.
Context {codec : RecordCodec}.

(** X3.  A [WriteChunk] that succeeds appends one record of the length
    [chunkRecordSize] gives to the journal bytes, what the codec wrote
    into the reserved cells, and indexes the chunk's address with the
    offset where the record starts (the former logical end), that length
    and the payload offset. *)
Theorem WriteChunk_appends_its_record (cc : CompressedChunk)
    (wr wr' : journalWriter) (u : unit) :
  inFile wr -> logicalEnd wr <= maxInt64 ->
  WriteChunk cc wr = (Ret u, wr') ->
  exists stale,
    blen stale = (chunkRecordSize cc).1 /\
    journalBytes wr' = journalBytes wr ++ (copy stale (writeChunkRecord stale cc)).1 /\
    logicalEnd wr' = logicalEnd wr + (chunkRecordSize cc).1 /\
    lookups wr' !! H cc
    = Some (mkRecLookup (logicalEnd wr) (chunkRecordSize cc).1 (chunkRecordSize cc).2) /\
    inFile wr'.
Proof.
  intros Hi Hm Hw. pose proof (inFile_int64 _ Hi) as Hoff.
  destruct (WriteChunk_journal _ _ _ _ Hi Hw) as (stale & Hs & Hi' & Hj & _).
  apply WriteChunk_Ret in Hw as (Hend & Hl & _); [|assumption].
  exists stale. repeat (split; [assumption|]). split; [|assumption].
  rewrite Hl, lookup_insert_eq. unfold offset. fold (logicalEnd wr).
  rewrite int64_id; [reflexivity|].
  destruct Hi as [[? _] _]. pose proof (len_nonneg (buf wr)).
  unfold isInt64, minInt64, logicalEnd in *. lia.
Qed.

(** X4.  After a [WriteChunk] that succeeds, on a file that can be read,
    [getCompressed] of the chunk's address hands the decoder exactly the
    record bytes that [WriteChunk] put into the journal, whether they
    are still in the buffer or were flushed: its result is the decoder's
    error, the address mismatch, or the chunk made from the decoded
    payload. *)
Theorem written_chunk_is_read_back (cc : CompressedChunk)
    (wr wr' : journalWriter) (u : unit) :
  inFile wr -> readable (file wr) -> logicalEnd wr <= maxInt64 ->
  WriteChunk cc wr = (Ret u, wr') ->
  exists stale,
    blen stale = (chunkRecordSize cc).1 /\
    getCompressed (H cc) wr' =
      match readJournalRecord (copy stale (writeChunkRecord stale cc)).1 with
      | Err e => Fail e
      | Ok rec =>
          if bool_decide (H cc = address rec)
          then lift (NewCompressedChunk (H cc) (payload rec))
          else Fail (ErrHashMismatch (H cc) (address rec))
      end.
Proof.
  intros Hi [Hc Hf] Hm Hw. pose proof (inFile_int64 _ Hi) as Hoff.
  pose proof (chunkRecordSize_nonneg cc) as Hn.
  destruct (WriteChunk_journal _ _ _ _ Hi Hw) as (stale & Hs & Hi' & Hj & Hc' & Hf').
  pose proof Hw as Hw'.
  apply WriteChunk_Ret in Hw' as (Hend & Hl & _); [|assumption].
  exists stale. split; [assumption|].
  assert (H0 : 0 <= logicalEnd wr).
  { destruct Hi as [[? _] _]. pose proof (len_nonneg (buf wr)).
    unfold logicalEnd. lia. }
  assert (Hoffset : offset wr = logicalEnd wr).
  { unfold offset. fold (logicalEnd wr). apply int64_id.
    unfold isInt64, minInt64. lia. }
  set (rec := (copy stale (writeChunkRecord stale cc)).1) in *.
  assert (Hrec : length rec = Z.to_nat (chunkRecordSize cc).1).
  { subst rec. rewrite length_copy. unfold blen in Hs. lia. }
  apply (getCompressed_after_read (H cc) wr'
           (mkRecLookup (offset wr) (chunkRecordSize cc).1 (chunkRecordSize cc).2)
           rec (chunkRecordSize cc).1).
  - rewrite Hl. apply lookup_insert_eq.
  - cbn [recordLen journalOff]. rewrite Hoffset.
    rewrite ReadAt_inside.
    + rewrite length_replicate, Hj.
      rewrite drop_app_length'
        by (pose proof (blen_journalBytes wr Hi) as Hb; unfold blen in Hb; lia).
      rewrite <- Hrec, firstn_all. f_equal.
      unfold blen. rewrite length_replicate. lia.
    + assumption.
    + split; [rewrite Hc'; assumption|]. intros n o. rewrite Hf'. apply Hf.
    + unfold isInt64, minInt64. lia.
    + assumption.
    + unfold blen. rewrite length_replicate. lia.
Qed.

(** X5.  A [WriteRootHash] that succeeds appends the root-hash record to
    the journal bytes and leaves every byte of the journal in the file:
    the buffer is empty and the first [off] bytes of the file are the
    journal, the records written before included.  The index is
    unchanged: root hashes are not indexed. *)
Theorem WriteRootHash_puts_the_journal_on_file (root : addr)
    (wr wr' : journalWriter) (u : unit) :
  inFile wr ->
  WriteRootHash root wr = (Ret u, wr') ->
  exists stale,
    blen stale = rootHashRecordSize /\
    journalBytes wr' = journalBytes wr ++ (copy stale (writeRootHashRecord stale root)).1 /\
    take (Z.to_nat (off wr')) (fdata (file wr')) = journalBytes wr' /\
    elems (buf wr') = [] /\
    lookups wr' = lookups wr /\ inFile wr'.
Proof.
  intros Hi. unfold WriteRootHash.
  pose proof (WriteRootHash_reserved root wr) as Hres.
  destruct (getBytes rootHashRecordSize wr) as [[i|e|] wr1] eqn:Hg; try discriminate.
  specialize (Hres _ _ Hi eq_refl). cbn zeta in Hres.
  destruct Hres as (Hs & Hi2 & Hj2).
  assert (Hlk : lookups wr1 = lookups wr).
  { apply getBytes_Ret in Hg as (_ & _ & _ & _ & _ & _ & Hlk & _);
      [assumption|apply inFile_int64; assumption]. }
  set (stale := view (buf wr1) i rootHashRecordSize) in *.
  remember (set_buf wr1 _) as wr2 eqn:Hwr2.
  assert (Hlk2 : lookups wr2 = lookups wr) by (subst wr2; exact Hlk).
  clear Hwr2.
  destruct (flush wr2) as [[u'|e|] wr3] eqn:Hf; try discriminate.
  pose proof (flush_Ret wr2 wr3 u' (inFile_int64 _ Hi2) Hf) as (Hwr3 & _).
  assert (Hlk3 : lookups wr3 = lookups wr) by (rewrite Hwr3; exact Hlk2).
  clear Hwr3.
  apply flush_journal in Hf as (Hi3 & Hj3 & Ht3 & Hel3 & _); [|assumption].
  pose proof (osSync_file (file wr3)) as Hsync.
  destruct (osSync (file wr3)) as [[e|] f]; [discriminate|]. simpl in Hsync. subst f.
  intros Heq; inversion Heq; subst wr'; clear Heq.
  exists stale. split; [assumption|].
  assert (Hj' : journalBytes (set_file wr3 (logged SysSync (file wr3)))
                = journalBytes wr3) by reflexivity.
  rewrite Hj2 in Hj3, Ht3. rewrite Hj', Hj3.
  split; [reflexivity|]. split; [exact Ht3|]. split; [exact Hel3|].
  split; [exact Hlk3|exact Hi3].
Qed.

(** X6.  A [Snapshot] that succeeds returns the logical end as its
    length and a reader over exactly the journal bytes, those that were
    in the buffer included; the buffer is empty afterwards and the
    journal is unchanged. *)
Theorem Snapshot_is_the_whole_journal (wr wr' : journalWriter)
    (rd : list byte) (n : Z) :
  inFile wr ->
  Snapshot wr = (Ret (rd, n), wr') ->
  rd = journalBytes wr /\ n = logicalEnd wr /\ blen rd = n /\
  elems (buf wr') = [] /\ journalBytes wr' = journalBytes wr.
Proof.
  intros Hi. unfold Snapshot.
  destruct (flush wr) as [[u|e|] wr1] eqn:Hf; try discriminate.
  apply flush_journal in Hf as (Hi1 & Hj & Ht & Hel & Ho); [|assumption].
  destruct (ffault (file wr1) SysOpen); [discriminate|].
  intros Heq; inversion Heq; subst; clear Heq.
  repeat split; try assumption.
  rewrite Ht, blen_journalBytes by assumption. symmetry. assumption.
Qed.

(** X7.  A [Write] that succeeds returns [len(p)] and appends [p] to the
    journal bytes, on the direct path to the file (when [p] is longer
    than what is buffered) as on the buffered one. *)
Theorem Write_appends (p : list byte) (wr wr' : journalWriter) (n : Z) :
  inFile wr -> Write p wr = (Ret n, wr') ->
  n = blen p /\ journalBytes wr' = journalBytes wr ++ p /\ inFile wr'.
Proof.
  intros Hi Hw. apply Write_journal in Hw as (? & ? & ?); auto.
Qed.

(** X8.  The journal is append-only: after any sequence of calls,
    whatever their outcomes and whatever the environment refuses in
    between, the journal bytes start with the journal bytes there were,
    and the flushed part still lies inside the file. *)
Theorem journal_is_append_only (cs : list call) (wr : journalWriter) :
  inFile wr ->
  journalBytes wr `prefix_of` journalBytes (run cs wr) /\ inFile (run cs wr).
Proof.
  intros Hi. destruct (grows_run cs wr Hi) as [Hi' Hp]. split; assumption.
Qed.

End Extras1.

(** ** What the calls leave alone *)

Lemma flush_keeps (wr : journalWriter) :
  cap (buf (flush wr).2) = cap (buf wr) /\ path (flush wr).2 = path wr /\
  uncmpSz (flush wr).2 = uncmpSz wr /\ lookups (flush wr).2 = lookups wr /\
  fclosed (file (flush wr).2) = fclosed (file wr).
Proof.
  unfold flush.
  destruct (osWriteAt_cases (file wr) (elems (buf wr)) (off wr)) as [[e ->]|[-> _]];
    simpl; rewrite ?cap_reslice; repeat split.
Qed.

Lemma getBytes_keeps (n : Z) (wr : journalWriter) :
  cap (buf (getBytes n wr).2) = cap (buf wr) /\ path (getBytes n wr).2 = path wr /\
  uncmpSz (getBytes n wr).2 = uncmpSz wr /\ lookups (getBytes n wr).2 = lookups wr /\
  fclosed (file (getBytes n wr).2) = fclosed (file wr).
Proof.
  unfold getBytes. destruct (cap (buf wr) <? n); [repeat split|].
  destruct (cap (buf wr) - len (buf wr) <? n).
  - pose proof (flush_keeps wr) as (Hc & Hp & Hu & Hl & Hf).
    destruct (flush wr) as [[u|e|] wr1]; simpl in *;
      repeat case_match; simpl; rewrite ?cap_reslice; repeat split; assumption.
  - repeat case_match; simpl; rewrite ?cap_reslice; repeat split.
Qed.

Section Extras2.
Context {codec : RecordCodec}.

Lemma WriteChunk_lookups (cc : CompressedChunk) (wr : journalWriter) :
  match (WriteChunk cc wr).1 with
  | Ret _ =>
      lookups (WriteChunk cc wr).2 =
        <[H cc := mkRecLookup (offset wr) (chunkRecordSize cc).1 (chunkRecordSize cc).2]>
          (lookups wr)
  | _ => lookups (WriteChunk cc wr).2 = lookups wr
  end.
Proof.
  unfold WriteChunk. destruct (chunkRecordSize cc) as [l o]; simpl.
  pose proof (getBytes_keeps l wr) as (_ & _ & _ & Hl & _).
  destruct (getBytes l wr) as [[i|e|] wr1]; simpl in *; rewrite ?Hl; reflexivity.
Qed.

Lemma WriteRootHash_lookups (root : addr) (wr : journalWriter) :
  lookups (WriteRootHash root wr).2 = lookups wr.
Proof.
  unfold WriteRootHash.
  pose proof (getBytes_keeps rootHashRecordSize wr) as (_ & _ & _ & Hl & _).
  destruct (getBytes rootHashRecordSize wr) as [[i|e|] wr1]; simpl in *; try assumption.
  match goal with |- context [flush ?w] =>
    pose proof (flush_keeps w) as (_ & _ & _ & Hl2 & _);
    destruct (flush w) as [[u|e|] wr3] end; simpl in *; try congruence.
  destruct (osSync (file wr3)) as [[e|] f]; simpl; congruence.
Qed.

Lemma Write_lookups (p : list byte) (wr : journalWriter) :
  lookups (Write p wr).2 = lookups wr.
Proof.
  unfold Write. destruct (len (buf wr) <? blen p).
  - pose proof (flush_keeps wr) as (_ & _ & _ & Hl & _).
    destruct (flush wr) as [[u|e|] wr1]; simpl in *; try assumption.
    destruct (osWriteAt (file wr1) p (off wr1)) as [[n err] f].
    destruct err; simpl; assumption.
  - pose proof (getBytes_keeps (blen p) wr) as (_ & _ & _ & Hl & _).
    destruct (getBytes (blen p) wr) as [[i|e|] wr1]; simpl in *; assumption.
Qed.

Lemma Snapshot_lookups (wr : journalWriter) : lookups (Snapshot wr).2 = lookups wr.
Proof.
  unfold Snapshot. pose proof (flush_keeps wr) as (_ & _ & _ & Hl & _).
  destruct (flush wr) as [[u|e|] wr1]; simpl in *; try assumption.
  destruct (ffault (file wr1) SysOpen); assumption.
Qed.

Lemma Close_lookups (wr : journalWriter) : lookups (Close wr).2 = lookups wr.
Proof.
  unfold Close. pose proof (flush_keeps wr) as (_ & _ & _ & Hl & _).
  destruct (flush wr) as [[u|e|] wr1]; simpl in *; try assumption.
  destruct (osSync (file wr1)) as [serr f1].
  destruct (osClose f1) as [cerr f2]. destruct cerr, serr; simpl; assumption.
Qed.

(** The index after a call: as it was, or with one entry put at the
    address of the chunk written. *)
Lemma exec_lookups (c : call) (wr : journalWriter) (h : addr) :
  lookups (exec c wr) !! h = lookups wr !! h \/
  (touches h c /\ is_Some (lookups (exec c wr) !! h)).
Proof.
  destruct c as [cc|root|p| | |flt]; simpl.
  - pose proof (WriteChunk_lookups cc wr) as Hl.
    destruct (WriteChunk cc wr) as [[u|e|] wr']; simpl in *; rewrite Hl; auto.
    destruct (decide (H cc = h)) as [->|Hne].
    + right. split; [reflexivity|]. rewrite lookup_insert_eq. eauto.
    + left. apply lookup_insert_ne. assumption.
  - left. rewrite WriteRootHash_lookups. reflexivity.
  - left. rewrite Write_lookups. reflexivity.
  - left. rewrite Snapshot_lookups. reflexivity.
  - left. rewrite Close_lookups. reflexivity.
  - left. reflexivity.
Qed.

(** X9.  Over any sequence of calls an address that the index holds
    stays in it, and the entry of an address changes only through a
    [WriteChunk] of a chunk with that address: the other calls, failed
    ones included, leave it as it is. *)
Theorem index_changes_only_by_WriteChunk (cs : list call) (wr : journalWriter)
    (h : addr) :
  (has h wr = true -> has h (run cs wr) = true) /\
  (Forall (fun c => ~ touches h c) cs ->
     lookups (run cs wr) !! h = lookups wr !! h).
Proof.
  split.
  - revert wr. induction cs as [|c cs IH]; intros wr Hh; simpl; [assumption|].
    apply IH. unfold has in *. apply bool_decide_eq_true in Hh.
    apply bool_decide_eq_true.
    destruct (exec_lookups c wr h) as [Heq|[_ Hs]]; [rewrite Heq|]; assumption.
  - revert wr. induction cs as [|c cs IH]; intros wr Hall; simpl; [reflexivity|].
    inversion Hall as [|? ? Hc Hcs]; subst. rewrite IH by assumption.
    destruct (exec_lookups c wr h) as [Heq|[Ht _]]; [assumption|contradiction].
Qed.

(** X10.  A [WriteChunk] that succeeds makes [has] true for the chunk's
    address and leaves the entries of all other addresses; the record
    count grows by one when the address is new and stays when the
    address was there (its entry then points at the new record). *)
Theorem WriteChunk_indexes_the_address (cc : CompressedChunk)
    (wr wr' : journalWriter) (u : unit) :
  WriteChunk cc wr = (Ret u, wr') ->
  has (H cc) wr' = true /\
  (forall h, h <> H cc -> lookups wr' !! h = lookups wr !! h) /\
  lookups wr' !! H cc
  = Some (mkRecLookup (offset wr) (chunkRecordSize cc).1 (chunkRecordSize cc).2) /\
  recordCount wr' =
    if has (H cc) wr then recordCount wr
    else (Z.of_nat (size (lookups wr)) + 1) mod 2 ^ 32.
Proof.
  intros Hw. pose proof (WriteChunk_lookups cc wr) as Hl.
  rewrite Hw in Hl. simpl in Hl.
  split; [|split; [|split]].
  - unfold has. apply bool_decide_eq_true. rewrite Hl, lookup_insert_eq. eauto.
  - intros h Hne. rewrite Hl. apply lookup_insert_ne. auto.
  - rewrite Hl. apply lookup_insert_eq.
  - unfold recordCount, has. rewrite Hl.
    destruct (lookups wr !! H cc) as [x|] eqn:Hx.
    + rewrite bool_decide_true by eauto.
      rewrite map_size_insert_Some by eauto. reflexivity.
    + rewrite bool_decide_false by (intros [? ?]; discriminate).
      rewrite map_size_insert_None by assumption.
      f_equal. lia.
Qed.

Lemma WriteChunk_fits (cc : CompressedChunk) (wr : journalWriter) :
  (chunkRecordSize cc).1 <= cap (buf wr) - len (buf wr) ->
  exists wr',
    WriteChunk cc wr = (Ret tt, wr') /\
    file wr' = file wr /\ off wr' = off wr /\
    len (buf wr') = len (buf wr) + (chunkRecordSize cc).1.
Proof.
  intros Hfit. pose proof (chunkRecordSize_nonneg cc) as Hn.
  pose proof (len_nonneg (buf wr)) as Hl.
  unfold WriteChunk. destruct (chunkRecordSize cc) as [l o]; simpl in *.
  rewrite getBytes_fits by lia.
  eexists. split; [reflexivity|]. simpl.
  repeat split. rewrite len_store.
  - apply len_reslice. lia.
  - lia.
  - lia.
  - rewrite len_reslice; lia.
Qed.

(** X11.  A [WriteChunk] whose record fits the room left in the buffer
    makes no system call and cannot fail: it returns nil with the file
    and [off] untouched, also when the file is closed or refuses every
    call. *)
Theorem buffered_WriteChunk_needs_no_file (cc : CompressedChunk) (wr : journalWriter) :
  (chunkRecordSize cc).1 <= cap (buf wr) - len (buf wr) ->
  exists wr',
    WriteChunk cc wr = (Ret tt, wr') /\
    file wr' = file wr /\ off wr' = off wr /\
    len (buf wr') = len (buf wr) + (chunkRecordSize cc).1.
Proof. apply WriteChunk_fits. Qed.

(** X12.  A [WriteChunk] that fails indexes nothing and leaves the
    journal as it was: index, buffer and [off] are as before, and so is
    the journal, the file below [off] followed by the buffer.  It fails
    either because the record exceeds the capacity, with the writer
    untouched, or with the error of the flush that the reservation made;
    what that failed write left in the file from [off] on is not
    stated. *)
Theorem failed_WriteChunk_leaves_the_journal (cc : CompressedChunk)
    (wr wr' : journalWriter) (e : error) :
  inFile wr ->
  WriteChunk cc wr = (Fail e, wr') ->
  lookups wr' = lookups wr /\ buf wr' = buf wr /\ off wr' = off wr /\
  journalBytes wr' = journalBytes wr /\
  ((e = ErrExceedsCapacity (chunkRecordSize cc).1 (cap (buf wr)) /\ wr' = wr) \/
   flush wr = (Fail e, wr')).
Proof.
  intros _ Hw. apply WriteChunk_failed in Hw.
  pose proof (getBytes_failed _ _ _ _ Hw) as (Hj & Ho & Hb & _ & Hl).
  repeat (split; [assumption|]).
  unfold getBytes in Hw.
  destruct (cap (buf wr) <? (chunkRecordSize cc).1).
  - left. inversion Hw; subst. split; reflexivity.
  - right. destruct (cap (buf wr) - len (buf wr) <? (chunkRecordSize cc).1).
    + destruct (flush wr) as [[u|e'|] wr1] eqn:Hf.
      * repeat case_match; discriminate.
      * inversion Hw; subst. reflexivity.
      * discriminate.
    + repeat case_match; discriminate.
Qed.

End Extras2.

Section Extras3.
Context {codec : RecordCodec}.

Lemma reserved_keeps (n i : Z) (bs : list byte) (wr wr1 : journalWriter) :
  isInt64 (off wr) -> 0 <= n -> getBytes n wr = (Ret i, wr1) ->
  cap (store (buf wr1) i n bs) = cap (buf wr) /\ path wr1 = path wr /\
  uncmpSz wr1 = uncmpSz wr.
Proof.
  intros Hoff Hn Hg.
  pose proof (getBytes_keeps n wr) as (_ & Hp & Hu & _). rewrite Hg in Hp, Hu.
  split; [|split; assumption].
  apply (advances_reserved n i bs wr wr1 (set_buf wr1 (store (buf wr1) i n bs)));
    auto.
Qed.

Lemma exec_keeps (c : call) (wr : journalWriter) :
  isInt64 (off wr) ->
  cap (buf (exec c wr)) = cap (buf wr) /\ path (exec c wr) = path wr /\
  uncmpSz (exec c wr) = uncmpSz wr.
Proof.
  intros Hoff. destruct c as [cc|root|p| | |flt]; simpl.
  - unfold WriteChunk. pose proof (chunkRecordSize_nonneg cc) as Hn.
    destruct (chunkRecordSize cc) as [l o]; simpl in *.
    pose proof (getBytes_keeps l wr) as (Hc & Hp & Hu & _).
    destruct (getBytes l wr) as [[i|e|] wr1] eqn:Hg; simpl in *; auto.
    eapply reserved_keeps; eassumption.
  - unfold WriteRootHash. pose proof rootHashRecordSize_nonneg as Hn.
    pose proof (getBytes_keeps rootHashRecordSize wr) as (Hc & Hp & Hu & _).
    destruct (getBytes rootHashRecordSize wr) as [[i|e|] wr1] eqn:Hg; simpl in *; auto.
    pose proof (reserved_keeps _ _ (writeRootHashRecord
                  (view (buf wr1) i rootHashRecordSize) root) _ _ Hoff Hn Hg)
      as (Hc2 & _ & _).
    match goal with |- context [flush ?w] =>
      pose proof (flush_keeps w) as (Hc3 & Hp3 & Hu3 & _);
      destruct (flush w) as [[u|e|] wr3] end; simpl in *;
      try (repeat split; congruence).
    destruct (osSync (file wr3)) as [[e|] f]; simpl; repeat split; congruence.
  - unfold Write. destruct (len (buf wr) <? blen p).
    + pose proof (flush_keeps wr) as (Hc & Hp & Hu & _).
      destruct (flush wr) as [[u|e|] wr1]; simpl in *; auto.
      destruct (osWriteAt (file wr1) p (off wr1)) as [[n err] f].
      destruct err; simpl; auto.
    + pose proof (getBytes_keeps (blen p) wr) as (Hc & Hp & Hu & _).
      destruct (getBytes (blen p) wr) as [[i|e|] wr1] eqn:Hg; simpl in *; auto.
      eapply reserved_keeps; try eassumption. apply blen_nonneg.
  - unfold Snapshot. pose proof (flush_keeps wr) as (Hc & Hp & Hu & _).
    destruct (flush wr) as [[u|e|] wr1]; simpl in *; auto.
    destruct (ffault (file wr1) SysOpen); auto.
  - unfold Close. pose proof (flush_keeps wr) as (Hc & Hp & Hu & _).
    destruct (flush wr) as [[u|e|] wr1]; simpl in *; auto.
    destruct (osSync (file wr1)) as [serr f1].
    destruct (osClose f1) as [cerr f2]. destruct cerr, serr; simpl; auto.
  - auto.
Qed.

(** X13.  No sequence of calls changes the capacity of the buffer, the
    path or the uncompressed-size statistic: the buffer never holds more
    than its first capacity, and [uncompressedSize] is what replay set
    it to ([WriteChunk] does not add to it). *)
Theorem calls_keep_capacity_and_statistic (cs : list call) (wr : journalWriter) :
  isInt64 (off wr) ->
  cap (buf (run cs wr)) = cap (buf wr) /\
  len (buf (run cs wr)) <= cap (buf wr) /\
  path (run cs wr) = path wr /\
  uncompressedSize (run cs wr) = uncompressedSize wr.
Proof.
  intros Hoff.
  assert (Hk : cap (buf (run cs wr)) = cap (buf wr) /\ path (run cs wr) = path wr /\
               uncmpSz (run cs wr) = uncmpSz wr).
  { revert wr Hoff. induction cs as [|c cs IH]; intros wr Hoff; simpl; [auto|].
    destruct (exec_keeps c wr Hoff) as (Hc & Hp & Hu).
    destruct (IH (exec c wr)) as (Hc' & Hp' & Hu').
    - apply (advances_exec c wr Hoff).
    - repeat split; congruence. }
  destruct Hk as (Hc & Hp & Hu). unfold uncompressedSize.
  repeat split; try assumption.
  rewrite <- Hc. apply len_le_cap.
Qed.

Lemma Close_on_closed (wr : journalWriter) :
  fclosed (file wr) = true -> 0 <= off wr -> (Close wr).1 = Fail ErrClosed.
Proof.
  intros Hc Ho. unfold Close, flush, osWriteAt.
  destruct (off wr <? 0) eqn:H0; zbool; [lia|].
  destruct (blen (elems (buf wr)) =? 0); [|rewrite Hc; reflexivity].
  unfold osSync, osClose, logged, set_buf, set_off, set_file.
  cbn [file fclosed]. rewrite Hc. reflexivity.
Qed.

(** X14.  On a writer whose file is closed, [Close] returns the error of
    the closed file, and [WriteRootHash] never returns nil: it cannot
    report a root hash as durable. *)
Theorem closed_file_is_reported (wr : journalWriter) :
  fclosed (file wr) = true -> 0 <= off wr ->
  (Close wr).1 = Fail ErrClosed /\
  forall root u wr', WriteRootHash root wr <> (Ret u, wr').
Proof.
  intros Hc Ho. split; [apply Close_on_closed; assumption|].
  intros root u wr'. unfold WriteRootHash.
  pose proof (getBytes_keeps rootHashRecordSize wr) as (_ & _ & _ & _ & Hf1).
  destruct (getBytes rootHashRecordSize wr) as [[i|e|] wr1]; try discriminate.
  simpl in Hf1.
  match goal with |- context [flush ?w] =>
    pose proof (flush_keeps w) as (_ & _ & _ & _ & Hf3);
    destruct (flush w) as [[u'|e|] wr3] end; try discriminate.
  simpl in Hf3. unfold osSync. rewrite Hf3, Hf1, Hc. discriminate.
Qed.

(** X15.  A [Close] that succeeds leaves the whole journal in the file
    and the file closed: the buffer is empty, the first [off] bytes of
    the file are the journal bytes, and the last two system calls are
    [Sync] and [Close].  A second [Close] returns the error of the
    closed file. *)
Theorem Close_leaves_the_journal_on_file (wr wr' : journalWriter) (u : unit) :
  inFile wr -> Close wr = (Ret u, wr') ->
  fclosed (file wr') = true /\ elems (buf wr') = [] /\
  take (Z.to_nat (off wr')) (fdata (file wr')) = journalBytes wr /\
  (exists log, flog (file wr') = log ++ [SysSync; SysClose]) /\
  (Close wr').1 = Fail ErrClosed.
Proof.
  intros Hi Hw. unfold Close in Hw.
  destruct (flush wr) as [[u'|e|] wr1] eqn:Hf; try discriminate.
  apply flush_journal in Hf as (Hi1 & _ & Ht & Hel & _); [|assumption].
  unfold osSync, osClose, logged in Hw. cbn [fclosed ffault fdata fpos flog] in Hw.
  destruct (fclosed (file wr1)) eqn:Hc; [discriminate|].
  cbn [fclosed ffault fdata fpos flog] in Hw.
  destruct (ffault (file wr1) SysClose) eqn:Hfc; [discriminate|].
  destruct (ffault (file wr1) SysSync) eqn:Hfs; [discriminate|].
  inversion Hw; subst wr'; clear Hw.
  unfold set_file. cbn [file fclosed fdata flog buf off].
  split; [reflexivity|]. split; [assumption|]. split; [assumption|].
  split; [eexists; rewrite <- app_assoc; reflexivity|].
  apply Close_on_closed; [reflexivity|]. apply Hi1.
Qed.

End Extras3.

(** X16.  A read at a negative offset returns the negative-offset error
    of the file with count 0 and leaves [p] as it was. *)
Theorem ReadAt_negative_offset (wr : journalWriter) (p : list byte) (o : Z) :
  0 <= off wr -> o < 0 -> off wr - o <= maxInt64 ->
  ReadAt wr p o = ReadRet p 0 (Some ErrNegativeOffset).
Proof.
  intros Hoff Ho Hm. unfold ReadAt.
  destruct (o <? off wr) eqn:Hlt; zbool; [|lia].
  rewrite int64_id by (unfold isInt64, minInt64; lia).
  destruct (off wr - o <? 0) eqn:Hneg; zbool; [lia|]. rewrite andb_false_r.
  assert (Hread : forall n, osReadAt (file wr) n o = ([], Some ErrNegativeOffset)).
  { intros n. unfold osReadAt. destruct (o <? 0) eqn:H0; zbool; [reflexivity|lia]. }
  assert (Hcopy : forall q : list byte, (copy q []).1 = q).
  { intros q. unfold copy. simpl. rewrite drop_0. apply firstn_all. }
  destruct (off wr - o <? blen p); rewrite Hread, Hcopy.
  - rewrite take_drop. reflexivity.
  - rewrite app_nil_r. reflexivity.
Qed.

(** X17.  [journalFileExists] and [openJournalWriter] agree on whether
    the file exists when [os.Stat] answers: absent gives [(false, nil)],
    a regular file [(true, nil)], a directory [true] with the
    found-directory error.  When [os.Stat] fails with another error,
    [openJournalWriter] returns that error but [journalFileExists]
    panics, calling [IsDir] on the nil [FileInfo]. *)
Theorem journalFileExists_and_open (w : world) (p : string) :
  wfault w (FsAbs p) = None ->
  (wfault w (FsStat (wabs w p)) = None ->
     journalFileExists w p =
       Ret (match nodes w !! wabs w p with
            | None => (false, None)
            | Some Directory => (true, Some ErrFoundDirectory)
            | Some (RegularFile _) => (true, None)
            end) /\
     (openJournalWriter w p).1.2 = bool_decide (is_Some (nodes w !! wabs w p))) /\
  (forall e, wfault w (FsStat (wabs w p)) = Some e -> isNotExist e = false ->
     journalFileExists w p = Panic /\
     openJournalWriter w p = (None, false, Some e)).
Proof.
  intros Ha. split.
  - intros Hs. unfold journalFileExists, openJournalWriter, fsAbs, fsStat.
    rewrite Ha, Hs. destruct (nodes w !! wabs w p) as [[d|]|] eqn:Hn; simpl.
    + split; [reflexivity|]. unfold fsOpenFile. rewrite Hn.
      destruct (wfault w (FsOpenFile (wabs w p))); reflexivity.
    + split; reflexivity.
    + split; reflexivity.
  - intros e Hs He. unfold journalFileExists, openJournalWriter, fsAbs, fsStat.
    rewrite Ha, Hs, He. split; reflexivity.
Qed.

Lemma cap_make0 (c : Z) : 0 <= c -> cap (make0 c) = c.
Proof.
  intros Hc. unfold cap, make0, blen. cbn [elems spare length].
  rewrite length_replicate. lia.
Qed.

Section Extras5.
Context {codec : RecordCodec}.

(** X18.  [openJournalWriter] on a regular file returns a writer on the
    bytes of that file with [exists = true]: the index is empty, the
    buffer is empty with the capacity [journalWriterBuffSize], and [off]
    is 0 whatever the file holds.  So until [ProcessJournal] has run, a
    chunk whose record is within the capacity is accepted and indexed at
    offset 0, without a system call.  When [os.OpenFile] fails its error
    is returned with [exists = true]. *)
Theorem open_regular_file (w : world) (p : string) (d : list byte) :
  wfault w (FsAbs p) = None -> wfault w (FsStat (wabs w p)) = None ->
  nodes w !! wabs w p = Some (RegularFile d) ->
  match wfault w (FsOpenFile (wabs w p)) with
  | Some e => openJournalWriter w p = (None, true, Some e)
  | None =>
      exists wr,
        openJournalWriter w p = (Some wr, true, None) /\
        fdata (file wr) = d /\ fclosed (file wr) = false /\ flog (file wr) = [] /\
        off wr = 0 /\ lookups wr = ∅ /\ uncmpSz wr = 0 /\
        len (buf wr) = 0 /\ cap (buf wr) = journalWriterBuffSize /\
        path wr = wabs w p /\ inFile wr /\
        forall cc, (chunkRecordSize cc).1 <= journalWriterBuffSize ->
          exists wr',
            WriteChunk cc wr = (Ret tt, wr') /\ file wr' = file wr /\
            lookups wr' !! H cc
            = Some (mkRecLookup 0 (chunkRecordSize cc).1 (chunkRecordSize cc).2)
  end.
Proof.
  intros Ha Hs Hn. unfold openJournalWriter, fsAbs, fsStat, fsOpenFile.
  rewrite Ha, Hs, Hn.
  destruct (wfault w (FsOpenFile (wabs w p))); [reflexivity|].
  exists (newJournalWriter (mkFile d 0 false (hfault w) []) (wabs w p)).
  split; [reflexivity|].
  set (wr := newJournalWriter (mkFile d 0 false (hfault w) []) (wabs w p)).
  assert (Hcap : cap (buf wr) = journalWriterBuffSize)
    by (apply cap_make0; unfold journalWriterBuffSize; lia).
  assert (Hlen : len (buf wr) = 0) by reflexivity.
  assert (Hoff : off wr = 0) by reflexivity.
  pose proof (blen_nonneg d).
  split; [reflexivity|]. split; [reflexivity|]. split; [reflexivity|].
  split; [reflexivity|]. split; [reflexivity|]. split; [reflexivity|].
  split; [exact Hlen|]. split; [exact Hcap|]. split; [reflexivity|].
  split; [unfold inFile; rewrite Hoff; unfold maxInt64; cbn [file fdata wr newJournalWriter]; lia|].
  intros cc Hfit.
  destruct (WriteChunk_fits cc wr) as (wr' & Hw & Hf & _); [lia|].
  exists wr'. split; [exact Hw|]. split; [exact Hf|].
  pose proof (WriteChunk_lookups cc wr) as Hl. rewrite Hw in Hl. simpl in Hl.
  rewrite Hl, lookup_insert_eq. unfold offset. rewrite Hoff, Hlen. reflexivity.
Qed.

End Extras5.

Section Extras4.
Context {codec : RecordCodec}.

(** X19.  A [WriteRootHash] that fails is not rolled back.  When the
    reservation failed (the record exceeds the capacity, or the flush the
    reservation made failed) the error is that of the reservation and
    the journal is as before.  But once the record was reserved, every
    failure leaves the record in the journal, after what was there: it
    is still in the buffer when the final flush failed, and it is in the
    file, with the buffer empty, when only [Sync] failed.  The logical
    end has moved past the record although the call returned an
    error. *)
Theorem failed_WriteRootHash_keeps_its_record (root : addr)
    (wr wr' : journalWriter) (e : error) :
  inFile wr ->
  WriteRootHash root wr = (Fail e, wr') ->
  match getBytes rootHashRecordSize wr with
  | (Ret i, wr1) =>
      exists stale,
        let record := (copy stale (writeRootHashRecord stale root)).1 in
        blen stale = rootHashRecordSize /\
        journalBytes wr' = journalBytes wr ++ record /\
        logicalEnd wr' = logicalEnd wr + rootHashRecordSize /\
        ((off wr' = off wr1 /\
          elems (buf wr') = bufferedBefore rootHashRecordSize wr ++ record) \/
         (elems (buf wr') = [] /\
          take (Z.to_nat (off wr')) (fdata (file wr')) = journalBytes wr ++ record /\
          exists log, flog (file wr') = log ++ [SysSync]))
  | (Fail e1, wr1) =>
      e = e1 /\ wr' = wr1 /\ journalBytes wr' = journalBytes wr /\
      logicalEnd wr' = logicalEnd wr
  | (Panic, _) => False
  end.
Proof.
  intros Hi. pose proof (inFile_int64 _ Hi) as Hoff. unfold WriteRootHash.
  pose proof rootHashRecordSize_nonneg as Hn.
  pose proof (WriteRootHash_reserved root wr) as Hres.
  destruct (getBytes rootHashRecordSize wr) as [[i|e'|] wr1] eqn:Hg;
    specialize (Hres _ _ Hi eq_refl); cbn zeta in Hres; try contradiction.
  - destruct Hres as (Hs & Hi2 & Hj2).
    pose proof (reserved_front _ _ _ _ Hoff Hn Hg) as Hfront.
    pose proof Hg as Hg'.
    apply getBytes_Ret in Hg' as (_ & Hend & Hin & _ & _ & Hcase & _);
      [|assumption].
    assert (Hi0 : 0 <= i).
    { pose proof (len_nonneg (buf wr)).
      destruct Hcase as [(_ & -> & _)|(_ & -> & _)]; lia. }
    set (stale := view (buf wr1) i rootHashRecordSize) in *.
    remember (set_buf wr1 (store (buf wr1) i rootHashRecordSize
                             (writeRootHashRecord stale root))) as wr2 eqn:Hwr2.
    assert (Ho2 : off wr2 = off wr1) by (subst wr2; reflexivity).
    assert (Hb : elems (buf wr2)
                 = bufferedBefore rootHashRecordSize wr
                     ++ (copy stale (writeRootHashRecord stale root)).1).
    { subst wr2. cbn [buf set_buf]. rewrite elems_store_tail by assumption.
      rewrite Hfront. reflexivity. }
    assert (Hlen : len (buf wr2) = len (buf wr1)).
    { subst wr2. cbn [buf set_buf]. apply len_store; lia. }
    assert (Hend2 : logicalEnd wr2 = logicalEnd wr + rootHashRecordSize).
    { unfold logicalEnd in *. rewrite Ho2, Hlen. exact Hend. }
    clear Hwr2 Hg.
    destruct (flush wr2) as [[u|e'|] wr3] eqn:Hf; try discriminate.
    + pose proof (flush_journal _ _ _ Hi2 Hf) as (Hi3 & Hj3 & Ht3 & Hel3 & Ho3).
      destruct (osSync (file wr3)) as [[e'|] f] eqn:Hsync; [|discriminate].
      intros Heq; inversion Heq; subst; clear Heq.
      pose proof (osSync_file (file wr3)) as Hsf. rewrite Hsync in Hsf.
      cbn [snd] in Hsf. subst f.
      exists stale. cbn zeta. split; [assumption|].
      assert (Hj' : journalBytes (set_file wr3 (logged SysSync (file wr3)))
                    = journalBytes wr3) by reflexivity.
      split; [rewrite Hj', Hj3; exact Hj2|].
      split.
      { unfold logicalEnd at 1. unfold set_file, len. cbn [off buf].
        rewrite Hel3, Ho3, Hend2. change (blen []) with 0. lia. }
      right. unfold set_file, logged. cbn [buf file fdata off flog].
      split; [assumption|]. split; [rewrite Ht3; exact Hj2|].
      eexists. reflexivity.
    + intros Heq; inversion Heq; subst; clear Heq.
      apply flush_failed_journal in Hf as (Hj3 & Ho3 & Hb3 & _).
      exists stale. cbn zeta. split; [assumption|].
      split; [rewrite Hj3; exact Hj2|].
      split; [unfold logicalEnd in *; rewrite Ho3, Hb3; exact Hend2|].
      left. split; [rewrite Ho3; exact Ho2|]. rewrite Hb3. exact Hb.
  - intros Heq; inversion Heq; subst; clear Heq.
    destruct Hres as [_ Hj].
    apply getBytes_failed in Hg as (_ & Ho & Hb & _).
    repeat split; try assumption.
    unfold logicalEnd. rewrite Ho, Hb. reflexivity.
Qed.

End Extras4.

(** ** Creating a journal *)

(** The first [Write] of the zero-fill loop is refused. *)
Lemma zeroFill_first_refused (fuel : nat) (size step : Z) (b : list byte) (i : Z)
    (f : osFile) (e : error) :
  i < size -> blen b <> 0 -> fclosed f = false -> ffault f (SysWrite b) = Some e ->
  zeroFill (S fuel) size step b i f = (Some e, logged (SysWrite b) f).
Proof.
  intros Hi Hb Hc Hf. simpl zeroFill.
  destruct (i <? size) eqn:Hlt; zbool; [|lia].
  unfold osWrite. destruct (blen b =? 0) eqn:H0; zbool; [contradiction|].
  rewrite Hc, Hf. reflexivity.
Qed.

(** The loop runs to its end as soon as the batch can be written. *)
Lemma zeroFill_complete (flt : syscall -> option error) :
  flt (SysWrite (replicate (Z.to_nat batch) x00)) = None ->
  zeroFill (Z.to_nat (chunkJournalFileSize / batch) + 1) chunkJournalFileSize batch
           (replicate (Z.to_nat batch) x00) 0 (mkFile [] 0 false flt [])
  = (None,
     mkFile (replicate (Z.to_nat chunkJournalFileSize) x00) chunkJournalFileSize
            false flt (replicate 256 (SysWrite (replicate (Z.to_nat batch) x00)))).
Proof.
  intros Hflt. destruct batches as [Hsz Hb].
  change (Z.to_nat (chunkJournalFileSize / batch) + 1)%nat with 257%nat.
  destruct (zeroFill_rounds 256 257 chunkJournalFileSize batch
              (replicate (Z.to_nat batch) x00) 0 (mkFile [] 0 false flt []))
    as (f' & Hz & Hd & Hp & Hc & Hf & Hl);
    try reflexivity; try exact Hflt; try lia.
  { rewrite blen_batch. lia. }
  rewrite Hz. clear Hz. destruct f' as [d pos c ft lg]. cbn [fdata fpos fclosed ffault flog] in *.
  subst c ft lg pos. rewrite Hd.
  rewrite app_nil_l, concat_replicate_zeros.
  replace (256 * Z.to_nat batch)%nat with (Z.to_nat chunkJournalFileSize)
    by (rewrite Hsz, Z2Nat.inj_mul by lia; reflexivity).
  unfold blen. rewrite length_replicate, Z2Nat.id by lia. reflexivity.
Qed.

(** Results are compared by their parts, without evaluating them. *)
Lemma pair_inv {A B : Type} (a c : A) (b d : B) :
  (a, b) = (c, d) -> a = c /\ b = d.
Proof. intros Heq. injection Heq as Ha Hb. split; assumption. Qed.

Lemma Ok_inv {A : Type} (a b : A) : @Ok A a = Ok b -> a = b.
Proof. intros Heq. injection Heq as Ha. assumption. Qed.

Lemma Ok_not_Err {A : Type} (a : A) (e : error) : @Ok A a <> Err e.
Proof. discriminate. Qed.

Lemma Err_not_Ok {A : Type} (a : A) (e : error) : @Err A e <> Ok a.
Proof. discriminate. Qed.

(** What [create] and [open] find at a path that holds a regular file. *)
Lemma on_regular_file (w : world) (p : string) (d : list byte) :
  wfault w (FsAbs p) = None -> wfault w (FsStat (wabs w p)) = None ->
  wfault w (FsOpenFile (wabs w p)) = None ->
  let w' := set_node w (wabs w p) (RegularFile d) in
  nodes w' !! wabs w p = Some (RegularFile d) /\
  createJournalWriter w' p = (Err ErrAlreadyExists, w') /\
  openJournalWriter w' p
  = (Some (newJournalWriter (mkFile d 0 false (hfault w) []) (wabs w p)), true, None).
Proof.
  intros Ha Hs Ho w'.
  assert (Hn : nodes w' !! wabs w p = Some (RegularFile d)).
  { unfold w', set_node. cbn [nodes]. apply lookup_insert_eq. }
  split; [exact Hn|]. split.
  - unfold createJournalWriter, fsAbs, fsStat.
    change (wfault w') with (wfault w). change (wabs w') with (wabs w).
    rewrite Ha, Hs, Hn. reflexivity.
  - unfold openJournalWriter, fsAbs, fsStat, fsOpenFile.
    change (wfault w') with (wfault w). change (wabs w') with (wabs w).
    change (hfault w') with (hfault w).
    rewrite Ha, Hs, Hn, Ho. reflexivity.
Qed.

(** [create] on an absent path when the first [Write] is refused. *)
Lemma create_refused (w : world) (p : string) (e : error) :
  wfault w (FsAbs p) = None -> wfault w (FsStat (wabs w p)) = None ->
  wfault w (FsOpenFile (wabs w p)) = None ->
  nodes w !! wabs w p = None ->
  hfault w (SysWrite (replicate (Z.to_nat batch) x00)) = Some e ->
  createJournalWriter w p = (Err e, set_node w (wabs w p) (RegularFile [])).
Proof.
  intros Ha Hs Ho Hn Hw. unfold createJournalWriter, fsAbs, fsStat, fsOpenFile.
  rewrite Ha, Hs, Hn, Ho. cbn [isNotExist negb].
  change (Z.to_nat (chunkJournalFileSize / batch) + 1)%nat with (S 256).
  rewrite (zeroFill_first_refused _ _ _ _ _ _ e).
  - unfold logged, set_node. cbn [fdata nodes wabs wfault hfault].
    rewrite insert_insert_eq. reflexivity.
  - destruct batches as [Hsz Hb]. lia.
  - rewrite blen_batch. destruct batches as [_ Hb]. lia.
  - reflexivity.
  - exact Hw.
Qed.

(** [create] on an absent path when nothing is refused. *)
Lemma create_fresh (w : world) (p : string) :
  (forall c, wfault w c = None) -> (forall c, hfault w c = None) ->
  nodes w !! wabs w p = None ->
  createJournalWriter w p
  = (Ok (newJournalWriter (zeroFilled (hfault w)) (wabs w p)),
     set_node w (wabs w p)
       (RegularFile (replicate (Z.to_nat chunkJournalFileSize) x00))).
Proof.
  intros Hw Hh Hn. unfold createJournalWriter, fsAbs, fsStat, fsOpenFile.
  rewrite !Hw, Hn. cbn [isNotExist negb].
  rewrite zeroFill_complete by apply Hh.
  unfold osSync, osSeek, logged. cbn [fclosed ffault fdata fpos flog].
  rewrite !Hh. cbn [fclosed ffault fdata fpos flog].
  change (0 <? 0) with false. change (negb (0 =? 0)) with false. cbv iota.
  f_equal.
  unfold set_node. cbn [nodes wabs wfault hfault].
  rewrite insert_insert_eq. reflexivity.
Qed.

(** X20.  A [createJournalWriter] that fails after it created the file
    does not remove it: the path then holds a regular file, with
    whatever the writes left in it.  So a second [create] fails with the
    already-exists error, and [open] takes what was left as a journal,
    with [exists = true], no error and [off = 0]. *)
Theorem failed_create_leaves_a_file (w w' : world) (p : string) (e : error) :
  wfault w (FsAbs p) = None -> wfault w (FsStat (wabs w p)) = None ->
  wfault w (FsOpenFile (wabs w p)) = None ->
  nodes w !! wabs w p = None ->
  createJournalWriter w p = (Err e, w') ->
  exists d : list byte,
    nodes w' !! wabs w p = Some (RegularFile d) /\
    createJournalWriter w' p = (Err ErrAlreadyExists, w') /\
    exists wr,
      openJournalWriter w' p = (Some wr, true, None) /\
      fdata (file wr) = d /\ off wr = 0 /\ lookups wr = ∅.
Proof.
  intros Ha Hs Ho Hn.
  assert (Hleft : forall d,
             w' = set_node w (wabs w p) (RegularFile d) ->
             exists d : list byte,
               nodes w' !! wabs w p = Some (RegularFile d) /\
               createJournalWriter w' p = (Err ErrAlreadyExists, w') /\
               exists wr,
                 openJournalWriter w' p = (Some wr, true, None) /\
                 fdata (file wr) = d /\ off wr = 0 /\ lookups wr = ∅).
  { intros d ->. exists d.
    destruct (on_regular_file w p d Ha Hs Ho) as (Hnode & Hc & Hop).
    split; [exact Hnode|]. split; [exact Hc|].
    eexists. split; [exact Hop|]. split; [reflexivity|]. split; reflexivity. }
  destruct (hfault w (SysWrite (replicate (Z.to_nat batch) x00))) as [e'|] eqn:Hw.
  - rewrite (create_refused w p e' Ha Hs Ho Hn Hw).
    intros Heq. apply pair_inv in Heq as [_ Hq].
    apply (Hleft []). symmetry. exact Hq.
  - unfold createJournalWriter, fsAbs, fsStat, fsOpenFile.
    rewrite Ha, Hs, Hn, Ho. cbn [isNotExist negb].
    rewrite zeroFill_complete by exact Hw.
    unfold osSync, osSeek, logged. cbn [fclosed ffault fdata fpos flog].
    unfold set_node at 1 2 3 4. cbn [nodes wabs wfault hfault].
    rewrite insert_insert_eq. fold (set_node w (wabs w p)
      (RegularFile (replicate (Z.to_nat chunkJournalFileSize) x00))).
    destruct (hfault w SysSync) as [e1|].
    + intros Heq. apply pair_inv in Heq as [_ Hq].
      apply (Hleft (replicate (Z.to_nat chunkJournalFileSize) x00)).
      symmetry. exact Hq.
    + cbn [fclosed ffault fdata fpos flog].
      change (0 <? 0) with false. cbv iota.
      destruct (hfault w (SysSeek 0)) as [e2|].
      * intros Heq. apply pair_inv in Heq as [_ Hq].
        apply (Hleft (replicate (Z.to_nat chunkJournalFileSize) x00)).
        symmetry. exact Hq.
      * change (negb (0 =? 0)) with false. cbv iota.
        intros Heq. apply pair_inv in Heq as [Hq _].
        exfalso. exact (Ok_not_Err _ _ Hq).
Qed.

(** X21.  A [createJournalWriter] that succeeds has filled the file: it
    returns only after all 256 batches of zeros were written and [Sync]
    and [Seek(0)] succeeded, whatever the environment refuses otherwise.
    The writer starts at [off = 0] inside the file, and the path holds
    the file: a second [create] fails with the already-exists error and
    [open] returns a writer on the same bytes. *)
Theorem created_journal_is_zero_filled (w w' : world) (p : string)
    (wr : journalWriter) :
  wfault w (FsStat (wabs w p)) = None ->
  createJournalWriter w p = (Ok wr, w') ->
  nodes w !! wabs w p = None /\
  wr = newJournalWriter (zeroFilled (hfault w)) (wabs w p) /\
  w' = set_node w (wabs w p)
         (RegularFile (replicate (Z.to_nat chunkJournalFileSize) x00)) /\
  blen (fdata (file wr)) = chunkJournalFileSize /\ inFile wr /\
  createJournalWriter w' p = (Err ErrAlreadyExists, w') /\
  openJournalWriter w' p
  = (Some (newJournalWriter
             (mkFile (replicate (Z.to_nat chunkJournalFileSize) x00) 0 false
                     (hfault w) [])
             (wabs w p)), true, None).
Proof.
  intros Hs. unfold createJournalWriter at 1. unfold fsAbs, fsStat, fsOpenFile.
  destruct (wfault w (FsAbs p)) as [e|] eqn:Ha; [discriminate|].
  rewrite Hs.
  destruct (nodes w !! wabs w p) as [[d|]|] eqn:Hn; try discriminate.
  cbn [isNotExist negb].
  destruct (wfault w (FsOpenFile (wabs w p))) as [e|] eqn:Ho; [discriminate|].
  destruct (hfault w (SysWrite (replicate (Z.to_nat batch) x00))) as [e|] eqn:Hw.
  { change (Z.to_nat (chunkJournalFileSize / batch) + 1)%nat with (S 256).
    rewrite (zeroFill_first_refused _ _ _ _ _ _ e).
    - discriminate.
    - destruct batches as [Hsz Hb]. lia.
    - rewrite blen_batch. destruct batches as [_ Hb]. lia.
    - reflexivity.
    - exact Hw. }
  rewrite zeroFill_complete by exact Hw.
  unfold osSync, osSeek, logged. cbn [fclosed ffault fdata fpos flog].
  assert (Hbad : forall (e0 : error) (w0 : world),
             (@Err journalWriter e0, w0) = (Ok wr, w') -> False).
  { intros e0 w0 Heq. apply pair_inv in Heq as [Hq _]. exact (Err_not_Ok _ _ Hq). }
  destruct (hfault w SysSync) as [e1|]; [intros Heq; destruct (Hbad _ _ Heq)|].
  cbn [fclosed ffault fdata fpos flog].
  change (0 <? 0) with false. cbv iota.
  destruct (hfault w (SysSeek 0)) as [e2|]; [intros Heq; destruct (Hbad _ _ Heq)|].
  change (negb (0 =? 0)) with false. cbv iota.
  unfold set_node at 1 2. cbn [nodes wabs wfault hfault].
  rewrite insert_insert_eq.
  fold (set_node w (wabs w p)
          (RegularFile (replicate (Z.to_nat chunkJournalFileSize) x00))).
  intros Heq. apply pair_inv in Heq as [Hwr <-]. apply Ok_inv in Hwr. subst wr.
  assert (Hlen : blen (replicate (Z.to_nat chunkJournalFileSize) x00)
                 = chunkJournalFileSize).
  { unfold blen. rewrite length_replicate. apply Z2Nat.id.
    destruct batches as [Hsz Hb]. lia. }
  split; [reflexivity|]. split; [reflexivity|]. split; [reflexivity|].
  split; [exact Hlen|].
  split.
  { unfold inFile, newJournalWriter. cbn [off file fdata].
    rewrite Hlen. destruct batches as [Hsz Hb]. unfold maxInt64. lia. }
  destruct (on_regular_file w p (replicate (Z.to_nat chunkJournalFileSize) x00)
              Ha Hs Ho) as (_ & Hc & Hop).
  split; [exact Hc|exact Hop].
Qed.

(** ** The further properties on the small codec *)

Section ExtraWitnesses.
#[local] Existing Instance Demo.codec.

Ltac evaluated := vm_compute; repeat split; try discriminate; try reflexivity.

Lemma ReadAt_reads_the_journal_witness :
  let wr := run [CallWriteChunk Demo.cc1; CallWriteChunk Demo.cc2] Demo.fresh in
  let p := replicate 7 xff in
  inFile wr /\ 2 + blen p <= logicalEnd wr /\
  ReadAt wr p 2 =
    ReadRet (take (length p) (drop (Z.to_nat 2) (journalBytes wr))) (blen p) None.
Proof.
  intros wr p.
  assert (Hi : inFile wr) by evaluated.
  assert (Hin : 2 + blen p <= logicalEnd wr) by evaluated.
  split; [exact Hi|]. split; [exact Hin|].
  apply (ReadAt_reads_the_journal wr p 2 Hi).
  - split; [reflexivity|]. intros n o. reflexivity.
  - evaluated.
  - lia.
  - exact Hin.
Defined.

Lemma flush_moves_the_buffer_to_the_file_witness :
  let wr := (WriteChunk Demo.cc1 Demo.fresh).2 in
  inFile wr /\
  match flush wr with
  | (Ret _, wr') =>
      journalBytes wr' = journalBytes wr /\
      take (Z.to_nat (off wr')) (fdata (file wr')) = journalBytes wr /\
      elems (buf wr') = [] /\ off wr' = logicalEnd wr /\ inFile wr'
  | (Fail _, wr') =>
      off wr' = off wr /\ buf wr' = buf wr /\ lookups wr' = lookups wr /\
      journalBytes wr' = journalBytes wr /\ inFile wr'
  | (Panic, _) => False
  end.
Proof.
  intros wr. assert (Hi : inFile wr) by evaluated.
  split; [exact Hi|]. apply (flush_moves_the_buffer_to_the_file wr Hi).
Defined.

Lemma WriteChunk_appends_its_record_witness :
  let wr := (WriteChunk Demo.cc1 Demo.fresh).2 in
  let wr' := (WriteChunk Demo.cc2 wr).2 in
  WriteChunk Demo.cc2 wr = (Ret tt, wr') /\
  exists stale,
    blen stale = (chunkRecordSize Demo.cc2).1 /\
    journalBytes wr'
    = journalBytes wr ++ (copy stale (writeChunkRecord stale Demo.cc2)).1 /\
    logicalEnd wr' = logicalEnd wr + (chunkRecordSize Demo.cc2).1 /\
    lookups wr' !! H Demo.cc2
    = Some (mkRecLookup (logicalEnd wr) (chunkRecordSize Demo.cc2).1
                        (chunkRecordSize Demo.cc2).2) /\
    inFile wr'.
Proof.
  intros wr wr'.
  assert (Hw : WriteChunk Demo.cc2 wr = (Ret tt, wr')) by reflexivity.
  split; [exact Hw|].
  apply (WriteChunk_appends_its_record Demo.cc2 wr wr' tt); [evaluated|evaluated|exact Hw].
Defined.

Lemma written_chunk_is_read_back_witness :
  let wr := (WriteChunk Demo.cc1 Demo.fresh).2 in
  let wr' := (WriteChunk Demo.cc2 wr).2 in
  WriteChunk Demo.cc2 wr = (Ret tt, wr') /\
  exists stale,
    blen stale = (chunkRecordSize Demo.cc2).1 /\
    getCompressed (H Demo.cc2) wr' =
      match readJournalRecord (copy stale (writeChunkRecord stale Demo.cc2)).1 with
      | Err e => Fail e
      | Ok rec =>
          if bool_decide (H Demo.cc2 = address rec)
          then lift (NewCompressedChunk (H Demo.cc2) (payload rec))
          else Fail (ErrHashMismatch (H Demo.cc2) (address rec))
      end.
Proof.
  intros wr wr'.
  assert (Hw : WriteChunk Demo.cc2 wr = (Ret tt, wr')) by reflexivity.
  split; [exact Hw|].
  apply (written_chunk_is_read_back Demo.cc2 wr wr' tt).
  - evaluated.
  - split; [reflexivity|]. intros n o. reflexivity.
  - evaluated.
  - exact Hw.
Defined.

Lemma WriteRootHash_puts_the_journal_on_file_witness :
  let wr := (WriteChunk Demo.cc1 Demo.fresh).2 in
  let wr' := (WriteRootHash 5%N wr).2 in
  WriteRootHash 5%N wr = (Ret tt, wr') /\
  exists stale,
    blen stale = rootHashRecordSize /\
    journalBytes wr' = journalBytes wr ++ (copy stale (writeRootHashRecord stale 5%N)).1 /\
    take (Z.to_nat (off wr')) (fdata (file wr')) = journalBytes wr' /\
    elems (buf wr') = [] /\
    lookups wr' = lookups wr /\ inFile wr'.
Proof.
  intros wr wr'.
  assert (Hw : WriteRootHash 5%N wr = (Ret tt, wr')) by reflexivity.
  split; [exact Hw|].
  apply (WriteRootHash_puts_the_journal_on_file 5%N wr wr' tt); [evaluated|exact Hw].
Defined.

Lemma Snapshot_is_the_whole_journal_witness :
  let wr := (WriteChunk Demo.cc1 Demo.fresh).2 in
  let rd := [x05; x02; x07; x0a; x0b] in
  let wr' := (Snapshot wr).2 in
  Snapshot wr = (Ret (rd, 5), wr') /\
  rd = journalBytes wr /\ 5 = logicalEnd wr /\ blen rd = 5 /\
  elems (buf wr') = [] /\ journalBytes wr' = journalBytes wr.
Proof.
  intros wr rd wr'.
  assert (Hs : Snapshot wr = (Ret (rd, 5), wr')) by reflexivity.
  split; [exact Hs|].
  apply (Snapshot_is_the_whole_journal wr wr' rd 5); [evaluated|exact Hs].
Defined.

Lemma Write_appends_witness :
  let wr := (WriteChunk Demo.cc1 Demo.fresh).2 in
  let p := [x01; x02; x03; x04; x05; x06] in
  let wr' := (Write p wr).2 in
  Write p wr = (Ret 6, wr') /\
  6 = blen p /\ journalBytes wr' = journalBytes wr ++ p /\ inFile wr'.
Proof.
  intros wr p wr'.
  assert (Hw : Write p wr = (Ret 6, wr')) by reflexivity.
  split; [exact Hw|].
  apply (Write_appends p wr wr' 6); [evaluated|exact Hw].
Defined.

Lemma journal_is_append_only_witness :
  let cs := [CallWriteChunk Demo.cc1; CallWriteChunk Demo.cc2;
             CallWriteRootHash 5%N; CallClose; CallWriteChunk Demo.cc1] in
  inFile Demo.fresh /\
  journalBytes Demo.fresh `prefix_of` journalBytes (run cs Demo.fresh) /\
  inFile (run cs Demo.fresh).
Proof.
  intros cs. assert (Hi : inFile Demo.fresh) by evaluated.
  split; [exact Hi|]. apply (journal_is_append_only cs Demo.fresh Hi).
Defined.

Lemma index_changes_only_by_WriteChunk_witness :
  let cs := [CallWriteChunk Demo.cc1; CallWriteRootHash 5%N; CallClose] in
  let wr := (WriteChunk Demo.cc2 Demo.fresh).2 in
  has 9%N wr = true /\ has 9%N (run cs wr) = true /\
  lookups (run cs wr) !! 9%N = lookups wr !! 9%N.
Proof.
  intros cs wr.
  destruct (index_changes_only_by_WriteChunk cs wr 9%N) as [Hhas Hsame].
  assert (Hh : has 9%N wr = true) by reflexivity.
  split; [exact Hh|]. split; [exact (Hhas Hh)|].
  apply Hsame. repeat constructor; simpl; intros Ht; try exact Ht; discriminate.
Defined.

Lemma WriteChunk_indexes_the_address_witness :
  let wr := (WriteChunk Demo.cc1 Demo.fresh).2 in
  let wr' := (WriteChunk Demo.cc1 wr).2 in
  WriteChunk Demo.cc1 wr = (Ret tt, wr') /\
  has (H Demo.cc1) wr' = true /\
  recordCount wr' = if has (H Demo.cc1) wr then recordCount wr
                    else (Z.of_nat (size (lookups wr)) + 1) mod 2 ^ 32.
Proof.
  intros wr wr'.
  assert (Hw : WriteChunk Demo.cc1 wr = (Ret tt, wr')) by reflexivity.
  split; [exact Hw|].
  destruct (WriteChunk_indexes_the_address Demo.cc1 wr wr' tt Hw) as (Hh & _ & _ & Hc).
  split; assumption.
Defined.

Lemma buffered_WriteChunk_needs_no_file_witness :
  let wr := run [CallWriteChunk Demo.cc1; CallWriteRootHash 5%N; CallClose] Demo.fresh in
  fclosed (file wr) = true /\
  exists wr',
    WriteChunk Demo.cc2 wr = (Ret tt, wr') /\
    file wr' = file wr /\ off wr' = off wr /\
    len (buf wr') = len (buf wr) + (chunkRecordSize Demo.cc2).1.
Proof.
  intros wr. split; [reflexivity|].
  apply (buffered_WriteChunk_needs_no_file Demo.cc2 wr). evaluated.
Defined.

Lemma failed_WriteChunk_leaves_the_journal_witness :
  let wr0 := (WriteChunk Demo.cc1 Demo.fresh).2 in
  let wr := set_file wr0 (set_fault (file wr0) Demo.writeFails) in
  let wr' := (WriteChunk Demo.cc2 wr).2 in
  inFile wr /\
  WriteChunk Demo.cc2 wr = (Fail (ErrIO 5), wr') /\
  lookups wr' = lookups wr /\ buf wr' = buf wr /\ off wr' = off wr /\
  journalBytes wr' = journalBytes wr.
Proof.
  intros wr0 wr wr'.
  assert (Hi : inFile wr) by evaluated.
  assert (Hw : WriteChunk Demo.cc2 wr = (Fail (ErrIO 5), wr')) by reflexivity.
  split; [exact Hi|]. split; [exact Hw|].
  destruct (failed_WriteChunk_leaves_the_journal Demo.cc2 wr wr' _ Hi Hw)
    as (Hl & Hb & Ho & Hj & _).
  repeat split; assumption.
Defined.

Lemma calls_keep_capacity_and_statistic_witness :
  let cs := [CallWriteChunk Demo.cc1; CallWriteChunk Demo.cc2;
             CallWriteRootHash 5%N; CallSnapshot; CallClose] in
  isInt64 (off Demo.fresh) /\
  cap (buf (run cs Demo.fresh)) = cap (buf Demo.fresh) /\
  len (buf (run cs Demo.fresh)) <= cap (buf Demo.fresh) /\
  path (run cs Demo.fresh) = path Demo.fresh /\
  uncompressedSize (run cs Demo.fresh) = uncompressedSize Demo.fresh.
Proof.
  intros cs. assert (Hoff : isInt64 (off Demo.fresh)) by evaluated.
  split; [exact Hoff|]. apply (calls_keep_capacity_and_statistic cs Demo.fresh Hoff).
Defined.

Lemma closed_file_is_reported_witness :
  let wr := run [CallWriteChunk Demo.cc1; CallWriteRootHash 5%N; CallClose] Demo.fresh in
  fclosed (file wr) = true /\
  (Close wr).1 = Fail ErrClosed /\
  forall root u wr', WriteRootHash root wr <> (Ret u, wr').
Proof.
  intros wr. split; [reflexivity|].
  apply (closed_file_is_reported wr); [reflexivity|evaluated].
Defined.

Lemma Close_leaves_the_journal_on_file_witness :
  let wr := (WriteChunk Demo.cc1 Demo.fresh).2 in
  let wr' := (Close wr).2 in
  Close wr = (Ret tt, wr') /\
  fclosed (file wr') = true /\ elems (buf wr') = [] /\
  take (Z.to_nat (off wr')) (fdata (file wr')) = journalBytes wr /\
  (exists log, flog (file wr') = log ++ [SysSync; SysClose]) /\
  (Close wr').1 = Fail ErrClosed.
Proof.
  intros wr wr'.
  assert (Hc : Close wr = (Ret tt, wr')) by reflexivity.
  split; [exact Hc|].
  apply (Close_leaves_the_journal_on_file wr wr' tt); [evaluated|exact Hc].
Defined.

Lemma failed_WriteRootHash_keeps_its_record_witness :
  let wr0 := (WriteChunk Demo.cc1 Demo.fresh).2 in
  let wr := set_file wr0 (set_fault (file wr0) syncFails) in
  let wr' := (WriteRootHash 5%N wr).2 in
  inFile wr /\
  WriteRootHash 5%N wr = (Fail (ErrIO 5), wr') /\
  exists stale,
    let record := (copy stale (writeRootHashRecord stale 5%N)).1 in
    blen stale = rootHashRecordSize /\
    journalBytes wr' = journalBytes wr ++ record /\
    logicalEnd wr' = logicalEnd wr + rootHashRecordSize /\
    ((off wr' = off (getBytes rootHashRecordSize wr).2 /\
      elems (buf wr') = bufferedBefore rootHashRecordSize wr ++ record) \/
     (elems (buf wr') = [] /\
      take (Z.to_nat (off wr')) (fdata (file wr')) = journalBytes wr ++ record /\
      exists log, flog (file wr') = log ++ [SysSync])).
Proof.
  intros wr0 wr wr'.
  assert (Hi : inFile wr) by evaluated.
  assert (Hw : WriteRootHash 5%N wr = (Fail (ErrIO 5), wr')) by reflexivity.
  assert (Hg : getBytes rootHashRecordSize wr
               = (Ret 5, (getBytes rootHashRecordSize wr).2)) by reflexivity.
  split; [exact Hi|]. split; [exact Hw|].
  pose proof (failed_WriteRootHash_keeps_its_record 5%N wr wr' (ErrIO 5) Hi Hw) as Hk.
  rewrite Hg in Hk. exact Hk.
Defined.

End ExtraWitnesses.

Lemma ReadAt_negative_offset_witness :
  ReadAt Demo.fresh [x01; x02] (-1) = ReadRet [x01; x02] 0 (Some ErrNegativeOffset).
Proof.
  apply (ReadAt_negative_offset Demo.fresh [x01; x02] (-1)).
  - vm_compute. discriminate.
  - lia.
  - vm_compute. discriminate.
Defined.

Lemma journalFileExists_and_open_witness :
  journalFileExists fileWorld "/j" = Ret (true, None) /\
  (openJournalWriter fileWorld "/j").1.2 = true /\
  journalFileExists statFails "/j" = Panic /\
  openJournalWriter statFails "/j" = (None, false, Some (ErrIO 13)).
Proof.
  destruct (journalFileExists_and_open fileWorld "/j" eq_refl) as [Hok _].
  destruct (journalFileExists_and_open statFails "/j" eq_refl) as [_ Hbad].
  destruct (Hok eq_refl) as [H1 H2].
  destruct (Hbad (ErrIO 13) eq_refl eq_refl) as [H3 H4].
  split; [exact H1|]. split; [exact H2|]. split; [exact H3|exact H4].
Defined.

Section OpenWitness.
#[local] Existing Instance Demo.codec.

Lemma open_regular_file_witness :
  match wfault fileWorld (FsOpenFile (wabs fileWorld "/j")) with
  | Some e => openJournalWriter fileWorld "/j" = (None, true, Some e)
  | None =>
      exists wr,
        openJournalWriter fileWorld "/j" = (Some wr, true, None) /\
        fdata (file wr) = [x01; x02; x03; x04] /\ fclosed (file wr) = false /\
        flog (file wr) = [] /\
        off wr = 0 /\ lookups wr = ∅ /\ uncmpSz wr = 0 /\
        len (buf wr) = 0 /\ cap (buf wr) = journalWriterBuffSize /\
        path wr = wabs fileWorld "/j" /\ inFile wr /\
        forall cc, (chunkRecordSize cc).1 <= journalWriterBuffSize ->
          exists wr',
            WriteChunk cc wr = (Ret tt, wr') /\ file wr' = file wr /\
            lookups wr' !! H cc
            = Some (mkRecLookup 0 (chunkRecordSize cc).1 (chunkRecordSize cc).2)
  end.
Proof.
  apply (open_regular_file fileWorld "/j" [x01; x02; x03; x04]);
    reflexivity.
Defined.

End OpenWitness.

(** A [create] whose first [Write] is refused. *)
Lemma failed_create_leaves_a_file_witness :
  createJournalWriter writeRefused "/j"
  = (Err (ErrIO 28), set_node writeRefused "/j" (RegularFile [])) /\
  exists d : list byte,
    (nodes (set_node writeRefused "/j" (RegularFile [])) !! wabs writeRefused "/j"
     = Some (RegularFile d)) /\
    (createJournalWriter (set_node writeRefused "/j" (RegularFile [])) "/j"
     = (Err ErrAlreadyExists, set_node writeRefused "/j" (RegularFile []))) /\
    exists wr,
      openJournalWriter (set_node writeRefused "/j" (RegularFile [])) "/j"
      = (Some wr, true, None) /\
      fdata (file wr) = d /\ off wr = 0 /\ lookups wr = ∅.
Proof.
  assert (Hc : createJournalWriter writeRefused "/j"
               = (Err (ErrIO 28), set_node writeRefused "/j" (RegularFile [])))
    by (apply create_refused; reflexivity).
  split; [exact Hc|].
  apply (failed_create_leaves_a_file writeRefused
           (set_node writeRefused "/j" (RegularFile [])) "/j" (ErrIO 28));
    [reflexivity|reflexivity|reflexivity|reflexivity|exact Hc].
Defined.

(** A [create] that goes through on an empty file system. *)
Lemma created_journal_is_zero_filled_witness :
  let wr := newJournalWriter (zeroFilled (hfault Demo.emptyWorld)) "/j" in
  let w' := set_node Demo.emptyWorld "/j"
              (RegularFile (replicate (Z.to_nat chunkJournalFileSize) x00)) in
  createJournalWriter Demo.emptyWorld "/j" = (Ok wr, w') /\
  blen (fdata (file wr)) = chunkJournalFileSize /\ inFile wr /\
  createJournalWriter w' "/j" = (Err ErrAlreadyExists, w') /\
  openJournalWriter w' "/j"
  = (Some (newJournalWriter
             (mkFile (replicate (Z.to_nat chunkJournalFileSize) x00) 0 false
                     (hfault Demo.emptyWorld) [])
             "/j"), true, None).
Proof.
  intros wr w'.
  assert (Hc : createJournalWriter Demo.emptyWorld "/j" = (Ok wr, w')).
  { apply create_fresh; reflexivity. }
  destruct (created_journal_is_zero_filled Demo.emptyWorld w' "/j" wr eq_refl Hc)
    as (_ & _ & _ & Hlen & Hi & Hc2 & Ho).
  split; [exact Hc|]. split; [exact Hlen|]. split; [exact Hi|].
  split; [exact Hc2|exact Ho].
Defined.
